(** * XAI Sentinel: the risk engine [runXaiInference] of src/App.jsx

    The engine is a pure JavaScript function over IEEE-754 binary64
    numbers.  In [Binary64] those numbers are Rocq's primitive floats
    (binary64, round to nearest even), so [+], [-], [*], [/], [<], [>],
    unary minus and [Math.abs] are bit-exact.  [Math.exp] is a builtin
    whose value ECMAScript leaves "implementation-approximated" outside a
    few special cases; it is a parameter [exp] of the engine, and the
    properties that depend on it say what they ask of it.

    The real numbers appear in the proofs only, as the values that the
    binary64 operations round ([SF64Real]).

    [Array.prototype.sort] is stable (ECMAScript 2019) and orders by the sign
    of the comparator; it is modelled by a stable insertion sort in
    [JsArray]. *)

From Stdlib Require Import Bool List String ZArith Lia.
From Stdlib Require Import Floats.
From Stdlib Require Import Reals Lra.
From Stdlib Require Import Sorted Permutation.
Import ListNotations.

Set Warnings "-inexact-float,-register-all".

(** * Part I: the embedding *)

(** ** Array.prototype.push and Array.prototype.sort *)

Module JsArray.

Section Sort.

Context {A : Type}.

(** [swaps a b] is the test [comparefn(a, b) > 0] for [a] standing before
    [b]: a positive result asks for [b] to be placed first.  Zero, negative
    and NaN results leave the pair as it stands. *)
Variable swaps : A -> A -> bool.

Fixpoint insert (x : A) (l : list A) : list A :=
  match l with
  | [] => [x]
  | y :: l' => if swaps x y then y :: insert x l' else x :: l
  end.

Fixpoint sort (l : list A) : list A :=
  match l with
  | [] => []
  | x :: l' => insert x (sort l')
  end.

(** [push] is [Array.prototype.push] with one argument. *)
Definition push (l : list A) (x : A) : list A := l ++ [x].

(** [precedes a b l]: some occurrence of [a] stands before some occurrence
    of [b] in [l]. *)
Definition precedes (a b : A) (l : list A) : Prop :=
  exists l1 l2 l3, l = l1 ++ a :: l2 ++ b :: l3.

End Sort.

End JsArray.

(** ** Binary64 numbers as the specification sees them *)

Module SF64.

(** [is_pos f]: [f] is a positive number or [+infinity], which is what
    [f > 0] tests. *)
Definition is_pos (f : spec_float) : bool :=
  match f with
  | S754_finite false _ _ | S754_infinity false => true
  | _ => false
  end.

End SF64.

(** ** The engine over binary64 *)

Module Binary64.

Open Scope string_scope.
Open Scope float_scope.

Notation "x >? y" := (PrimFloat.ltb y x) (at level 70, no associativity) : float_scope.

Record Vitals := {
  heartRate : float;
  bloodPressure : float;
  oxygen : float;
  temperature : float;
  infectionMarker : float
}.

Record Symptoms := {
  pain : bool;
  breathless : bool
}.

Record ShapValue := {
  feature : string;
  phi : float;
  color : string
}.

Record Inference := {
  probability : float;
  baseValue : float;
  shapValues : list ShapValue;
  limeSensitivity : float
}.

(** The comparator handed to [sort]:
    [(a, b) => Math.abs(b.phi) - Math.abs(a.phi)]. *)
Definition compareFn (a b : ShapValue) : float :=
  abs (phi b) - abs (phi a).

Definition sortByMagnitude : list ShapValue -> list ShapValue :=
  JsArray.sort (fun a b => compareFn a b >? 0).

Section Engine.

(** [Math.exp]. *)
Variable exp : float -> float.

Definition runXaiInference (vitals : Vitals) (symptoms : Symptoms) : Inference :=
  let baseValue := 0.18 in
  let logOdds := 0 in
  let shapValues := [] in
  let hrWeight :=
    if heartRate vitals >? 100 then (heartRate vitals - 100) * 0.009 else -0.04 in
  let logOdds := logOdds + hrWeight in
  let shapValues := JsArray.push shapValues
    {| feature := "Heart Rate"; phi := hrWeight;
       color := if hrWeight >? 0 then "text-red-500" else "text-emerald-500" |} in
  let bpWeight :=
    if bloodPressure vitals <? 90 then (90 - bloodPressure vitals) * 0.015 else -0.02 in
  let logOdds := logOdds + bpWeight in
  let shapValues := JsArray.push shapValues
    {| feature := "Blood Pressure"; phi := bpWeight;
       color := if bpWeight >? 0 then "text-red-500" else "text-emerald-500" |} in
  let o2Weight :=
    if oxygen vitals <? 94 then (94 - oxygen vitals) * 0.05 else -0.09 in
  let logOdds := logOdds + o2Weight in
  let shapValues := JsArray.push shapValues
    {| feature := "SpO2 Saturation"; phi := o2Weight;
       color := if o2Weight >? 0 then "text-red-500" else "text-emerald-500" |} in
  let infWeight :=
    if infectionMarker vitals >? 3 then (infectionMarker vitals - 3) * 0.08 else -0.03 in
  let logOdds := logOdds + infWeight in
  let shapValues := JsArray.push shapValues
    {| feature := "Infection Marker"; phi := infWeight;
       color := if infWeight >? 0 then "text-red-500" else "text-emerald-500" |} in
  let '(logOdds, shapValues) :=
    if pain symptoms
    then (logOdds + 0.14,
          JsArray.push shapValues
            {| feature := "Pain Index"; phi := 0.14; color := "text-red-500" |})
    else (logOdds, shapValues) in
  let '(logOdds, shapValues) :=
    if breathless symptoms
    then (logOdds + 0.25,
          JsArray.push shapValues
            {| feature := "Resp. Distress"; phi := 0.25; color := "text-red-500" |})
    else (logOdds, shapValues) in
  let probability := 1 / (1 + exp (- (logOdds + baseValue))) in
  let limeSensitivity := if heartRate vitals >? 100 then 0.009 else 0.002 in
  {| probability := probability;
     baseValue := baseValue;
     shapValues := sortByMagnitude shapValues;
     limeSensitivity := limeSensitivity |}.

End Engine.

(** *** Views of the engine used to state its properties *)

(** [sigmoid exp x] is the logistic function [1/(1+e^-x)] as the engine
    computes it. *)
Definition sigmoid (exp : float -> float) (x : float) : float :=
  1 / (1 + exp (- x)).

(** The phi values of the terms of [l] whose feature is [name], in the
    order of [l]. *)
Definition phiOf (name : string) (l : list ShapValue) : list float :=
  map phi (filter (fun t => String.eqb (feature t) name) l).

(** The order of the feature-term table, which is the order of the pushes. *)
Definition featureTable : list string :=
  ["Heart Rate"; "Blood Pressure"; "SpO2 Saturation"; "Infection Marker";
   "Pain Index"; "Resp. Distress"].

Fixpoint indexOf (name : string) (l : list string) : nat :=
  match l with
  | [] => 0
  | x :: l' => if String.eqb x name then 0 else S (indexOf name l')
  end.

(** The position of a feature in the table. *)
Definition featureRank (name : string) : nat := indexOf name featureTable.

(** The terms of [l] taken feature by feature in table order. *)
Definition tableOrder (l : list ShapValue) : list ShapValue :=
  flat_map (fun name => filter (fun t => String.eqb (feature t) name) l) featureTable.

(** The sum of the phi of [l], accumulated from [0] left to right as
    [logOdds += phi] does. *)
Definition sumPhi (l : list ShapValue) : float :=
  fold_left (fun acc t => acc + phi t) l 0.

(** A term as the four vital branches build it. *)
Definition vitalTerm (name : string) (w : float) : ShapValue :=
  {| feature := name; phi := w;
     color := if w >? 0 then "text-red-500" else "text-emerald-500" |}.

Definition hrWeight (v : Vitals) : float :=
  if heartRate v >? 100 then (heartRate v - 100) * 0.009 else -0.04.

Definition bpWeight (v : Vitals) : float :=
  if bloodPressure v <? 90 then (90 - bloodPressure v) * 0.015 else -0.02.

Definition o2Weight (v : Vitals) : float :=
  if oxygen v <? 94 then (94 - oxygen v) * 0.05 else -0.09.

Definition infWeight (v : Vitals) : float :=
  if infectionMarker v >? 3 then (infectionMarker v - 3) * 0.08 else -0.03.

(** The array [shapValues] as it stands just before the sort. *)
Definition pushed (v : Vitals) (s : Symptoms) : list ShapValue :=
  [vitalTerm "Heart Rate" (hrWeight v); vitalTerm "Blood Pressure" (bpWeight v);
   vitalTerm "SpO2 Saturation" (o2Weight v); vitalTerm "Infection Marker" (infWeight v)]
  ++ (if pain s then [vitalTerm "Pain Index" 0.14] else [])
  ++ (if breathless s then [vitalTerm "Resp. Distress" 0.25] else []).

(** *** Math.exp *)

(** What ECMAScript fixes of [Math.exp]: the results at NaN, at both zeros
    and at both infinities. *)
Record conforming (exp : float -> float) : Prop := {
  exp_nan : exp nan = nan;
  exp_pos_zero : exp 0 = 1;
  exp_neg_zero : exp (-0) = 1;
  exp_pos_infinity : exp infinity = infinity;
  exp_neg_infinity : exp neg_infinity = 0
}.

(** Below [-746] the exponential is smaller than half the least positive
    binary64 number [2^-1074], so an [exp] that returns one of the two
    binary64 numbers around the exact value returns [+0] or [2^-1074]. *)
Definition underflows (exp : float -> float) : Prop :=
  forall x, (x <? -746) = true -> exp x = 0 \/ exp x = 0x1p-1074.

(** A concrete [exp], to run the engine: the degree-12 Taylor polynomial at
    [x / 2^11], squared eleven times.  The engine's own [Math.exp] is the
    JavaScript runtime's; every property below that depends on [exp] is
    stated for an arbitrary one. *)
Definition expTaylor (y : float) : float :=
  1 + y * (1 + y / 2 * (1 + y / 3 * (1 + y / 4 * (1 + y / 5 * (1 + y / 6 *
  (1 + y / 7 * (1 + y / 8 * (1 + y / 9 * (1 + y / 10 * (1 + y / 11 *
  (1 + y / 12))))))))))).

Definition expReference (x : float) : float :=
  if x <? -746 then 0
  else Nat.iter 11 (fun p => p * p) (expTaylor (x / 2048)).

(** *** Inputs used in the examples *)

Definition noSymptoms : Symptoms := {| pain := false; breathless := false |}.

(** The dashboard's initial vitals. *)
Definition restingVitals : Vitals :=
  {| heartRate := 80; bloodPressure := 120; oxygen := 98;
     temperature := 37; infectionMarker := 1 |}.

(** Vitals with a heart rate far outside the slider range. *)
Definition racingVitals : Vitals :=
  {| heartRate := 1000000; bloodPressure := 120; oxygen := 98;
     temperature := 37; infectionMarker := 1 |}.

End Binary64.

(** ** Ranges of binary64 numbers *)

Module SF64Range.

Open Scope Z_scope.

(** The binary64 number 1. *)
Definition SFone : spec_float := S754_finite false 4503599627370496 (-52).

(** [nonneg f]: [f] is a zero, a positive number or [+infinity]. *)
Definition nonneg (f : spec_float) : Prop :=
  match f with
  | S754_zero _ | S754_finite false _ _ | S754_infinity false => True
  | _ => False
  end.

(** [at_least_one f]: [f] is [+infinity] or a number [m * 2^e >= 1]. *)
Definition at_least_one (f : spec_float) : Prop :=
  f = S754_infinity false \/
  exists m e, f = S754_finite false m e /\ (e <= 0 -> 2 ^ (0 - e) <= Zpos m).

(** [at_most_one f]: [f] is a zero or a positive number [m * 2^e <= 1]. *)
Definition at_most_one (f : spec_float) : Prop :=
  (exists s, f = S754_zero s) \/
  exists m e, f = S754_finite false m e /\ e <= 0 /\ Zpos m <= 2 ^ (0 - e).

(** [aboveb k f]: [f] is a number or [+infinity], and above [-2^k]. *)
Definition aboveb (k : Z) (f : spec_float) : bool :=
  match f with
  | S754_nan => false
  | S754_infinity s => negb s
  | S754_zero _ => true
  | S754_finite s m e => if s then Zpos (digits2_pos m) + e <=? k else true
  end.

End SF64Range.

(** ** Binary64 numbers as real numbers *)

Module SF64Real.

Open Scope R_scope.

(** [bpow e] is [2^e]. *)
Definition bpow (e : Z) : R := powerRZ 2 e.

(** The real number a binary64 number stands for; a zero for the values
    that are not numbers. *)
Definition SFR (f : spec_float) : R :=
  match f with
  | S754_finite s m e => IZR (cond_Zopp s (Zpos m)) * bpow e
  | _ => 0
  end.

(** [located y M l]: [y] lies in [[M, M+1)] at the place [l] tells: on [M],
    below, on or above the middle. *)
Definition located (y M : R) (l : location) : Prop :=
  match l with
  | loc_Exact => y = M
  | loc_Inexact Lt => M < y < M + / 2
  | loc_Inexact Eq => y = M + / 2
  | loc_Inexact Gt => M + / 2 < y < M + 1
  end.

(** [inbetween x m e l]: the triple [(m, e, l)] that the rounding functions
    work on stands for the real [x]. *)
Definition inbetween (x : R) (m e : Z) (l : location) : Prop :=
  located (x / bpow e) (IZR m) l.

(** [mag x g]: [2^(g-1) <= x < 2^g]. *)
Definition mag (x : R) (g : Z) : Prop := bpow (g - 1) <= x < bpow g.

(** The last step of [binary_round_aux]: the rounded mantissa [m] at
    exponent [e] is renormalised and checked for overflow. *)
Definition finish (s : bool) (m e : Z) : spec_float :=
  let '(mrs, e') := shr_fexp prec emax m e loc_Exact in
  match shr_m mrs with
  | Z0 => S754_zero s
  | Zpos p => if (e' <=? emax - prec)%Z then S754_finite s p e' else S754_infinity s
  | Zneg _ => S754_nan
  end.

Definition signed (s : bool) (v : R) : R := if s then - v else v.

(** [rounded_value s v F]: [F] has sign [s] and is the zero, the valid
    number of magnitude [v], or the infinity when [v] is [2^1024] or more. *)
Definition rounded_value (s : bool) (v : R) (F : spec_float) : Prop :=
  (v = 0 /\ F = S754_zero s) \/
  (exists mf ef, F = S754_finite s mf ef /\ valid_binary F = true /\
                 IZR (Zpos mf) * bpow ef = v) \/
  (F = S754_infinity s /\ bpow 1024 <= v).

(** [rounds_mag s x F]: [F] is what rounding to nearest even makes of the
    positive real [x], with sign [s]. *)
Definition rounds_mag (s : bool) (x : R) (F : spec_float) : Prop :=
  exists m l g, mag x g /\ (0 <= m)%Z /\ inbetween x m (fexp prec emax g) l /\
                F = finish s (round_nearest_even m l) (fexp prec emax g).

(** [rounds r F]: [F] is what rounding to nearest even makes of [r]. *)
Definition rounds (r : R) (F : spec_float) : Prop :=
  (r = 0 /\ exists s, F = S754_zero s) \/
  (0 < r /\ rounds_mag false r F) \/
  (r < 0 /\ rounds_mag true (- r) F).

Definition finite_or_zero (f : spec_float) : Prop :=
  match f with S754_zero _ | S754_finite _ _ _ => True | _ => False end.

(** [SFproper f]: [f] is a number or [+infinity]. *)
Definition SFproper (f : spec_float) : Prop :=
  match f with S754_nan | S754_infinity true => False | _ => True end.

Definition Rcmp (c : comparison) (a b : R) : Prop :=
  match c with Lt => a < b | Eq => a = b | Gt => b < a end.

(** The largest and the least positive binary64 numbers. *)
Definition SFmax : spec_float := S754_finite false (2 ^ 53 - 1) 971.

Definition SFmin : spec_float := S754_finite false 1 (-1074).

End SF64Real.

(** ** A second concrete [Math.exp] *)

Module Binary64Exp.

Import Binary64.
Open Scope float_scope.

(** [expReference] with its result forced to be a non-negative number
    whenever the argument is a number. *)
Definition expGuarded (x : float) : float :=
  if is_nan x then nan
  else if 0 <=? expReference x then expReference x else 0.

End Binary64Exp.

(** ** Order and the engine *)

Module Binary64Order.

Import Binary64.
Open Scope float_scope.

(** [proper x]: [x] is a number or [+infinity]. *)
Definition proper (x : float) : Prop := SF64Real.SFproper (Prim2SF x).

(** The value of [logOdds] when the sigmoid is applied, as the six
    [logOdds += ...] leave it. *)
Definition logOdds (v : Vitals) (s : Symptoms) : float :=
  let l4 := 0 + hrWeight v + bpWeight v + o2Weight v + infWeight v in
  let l5 := if pain s then l4 + 0.14 else l4 in
  if breathless s then l5 + 0.25 else l5.

(** A third concrete [exp], to show that what the properties below ask of
    [Math.exp] can be met together: [max(0, 1 + x/2)], which is
    non-negative, monotone, at most [1] on the arguments up to [0], as the
    exponential is.  It is no approximation of it. *)
Definition expLinear (x : float) : float :=
  if x <? -2 then 0 else 1 + x * 0.5.

(** Vitals with a heart rate of 130. *)
Definition fastVitals : Vitals :=
  {| heartRate := 130; bloodPressure := 120; oxygen := 98;
     temperature := 37; infectionMarker := 1 |}.

(** Vitals with every scored reading in its scaled branch. *)
Definition criticalVitals : Vitals :=
  {| heartRate := 130; bloodPressure := 80; oxygen := 90;
     temperature := 37; infectionMarker := 5 |}.

End Binary64Order.

(** ** The dashboard around the engine (function [App] of src/App.jsx) *)

(** *** The risk banner *)

Module Banner.

Import Binary64.
Open Scope float_scope.

(** The test [xai.probability > 0.6] that switches the banner to
    "Clinical Emergency". *)
Definition isEmergency (p : float) : bool := p >? 0.6.

End Banner.

(** *** The audit history: the [onSnapshot] listener *)

Module History.

Import Binary64.
Open Scope string_scope.
Open Scope float_scope.

(** A document of the history collection with its id, as
    [{ id: d.id, ...d.data() }] builds it.  [timestamp] holds
    [timestamp.seconds]; it is [None] while the timestamp is missing, as
    it is for a write the server has not acknowledged yet. *)
Record Assessment := {
  id : string;
  userId : string;
  timestamp : option float;
  risk : float;
  vitals : Vitals;
  symptoms : Symptoms;
  mode : string
}.

(** [x?.seconds || 0]: a missing value and the falsy numbers [0], [-0] and
    NaN give [0]. *)
Definition secondsOrZero (x : option float) : float :=
  match x with
  | Some s => if (s =? 0) || is_nan s then 0 else s
  | None => 0
  end.

(** The comparator of the listener:
    [(a, b) => (b.timestamp?.seconds || 0) - (a.timestamp?.seconds || 0)]. *)
Definition newestFirst (a b : Assessment) : float :=
  secondsOrZero (timestamp b) - secondsOrZero (timestamp a).

(** The value handed to [setHistory] for the documents [docs] of a
    snapshot and the signed-in user [uid]. *)
Definition userHistory (uid : string) (docs : list Assessment) : list Assessment :=
  JsArray.sort (fun a b => newestFirst a b >? 0)
    (filter (fun d => String.eqb (userId d) uid) docs).

End History.

(** *** The clinical console: [handleChat] *)

Module Chat.

Import Binary64.
Open Scope string_scope.
Open Scope list_scope.

(** A JSON value, as [response.json()] resolves to.  The fields of an
    object are its own properties, each key once. *)
Inductive Json :=
| JNull
| JBool (b : bool)
| JNumber (x : float)
| JString (s : string)
| JArray (items : list Json)
| JObject (fields : list (string * Json)).

(** A chat message.  [text] is a string for every message but the reply,
    which holds whatever the response carries. *)
Record Message := {
  role : string;
  text : Json
}.

(** The state [handleChat] writes: [symptoms], [chat] and [isTyping];
    [crashed] tells whether an updater handed to [setChat] has thrown. *)
Record State := {
  symptoms : Symptoms;
  chat : list Message;
  isTyping : bool;
  crashed : bool
}.

(** The state the dashboard starts in. *)
Definition initial : State :=
  {| symptoms := {| pain := false; breathless := false |};
     chat := [ {| role := "ai";
                  text := JString
                    "Sentinel active. Connecting to XGBoost Inference Server..." |} ];
     isTyping := false;
     crashed := false |}.

(** How the request to the text-generation service ended: [fetch] or
    [response.json()] threw, or the body parsed to [result]. *)
Inductive Outcome :=
| Failed
| Responded (result : Json).

(** [String.prototype.includes]. *)
Fixpoint includes (s sub : string) : bool :=
  if String.prefix sub s then true
  else match s with
       | EmptyString => false
       | String _ s' => includes s' sub
       end.

Fixpoint lookup (key : string) (fields : list (string * Json)) : option Json :=
  match fields with
  | [] => None
  | (k, v) :: fields' => if String.eqb k key then Some v else lookup key fields'
  end.

(** [v.key] for [v] neither [null] nor [undefined] and [key] one of
    [candidates], [content], [parts], [text]: an own property of an object,
    and [undefined], here [None], on arrays, strings, numbers and
    booleans. *)
Definition getProp (v : Json) (key : string) : option Json :=
  match v with
  | JObject fields => lookup key fields
  | _ => None
  end.

(** [v[0]] for [v] neither [null] nor [undefined]. *)
Definition getFirst (v : Json) : option Json :=
  match v with
  | JArray items => head items
  | JObject fields => lookup "0" fields
  | JString (String c _) => Some (JString (String c EmptyString))
  | _ => None
  end.

(** [v?.key] and [v?.[0]], [v] being [undefined] when [None]. *)
Definition optProp (v : option Json) (key : string) : option Json :=
  match v with
  | None | Some JNull => None
  | Some x => getProp x key
  end.

Definition optFirst (v : option Json) : option Json :=
  match v with
  | None | Some JNull => None
  | Some x => getFirst x
  end.

(** The truthy values. *)
Definition truthy (v : Json) : bool :=
  match v with
  | JNull => false
  | JBool b => b
  | JNumber x => negb ((x =? 0)%float || is_nan x)
  | JString s => negb (String.eqb s "")
  | JArray _ | JObject _ => true
  end.

(** [result.candidates?.[0]?.content?.parts?.[0]?.text || "Risk profile
    recalculated."], evaluated when React runs the updater handed to
    [setChat]: [None] when [result] is [null] and [result.candidates]
    throws. *)
Definition responseText (result : Json) : option Json :=
  match result with
  | JNull => None
  | _ =>
      let t :=
        optProp (optFirst (optProp (optProp (optFirst (getProp result "candidates"))
                                      "content") "parts")) "text" in
      Some match t with
           | Some v => if truthy v then v else JString "Risk profile recalculated."
           | None => JString "Risk profile recalculated."
           end
  end.

(** The text of the reply pushed to the chat, [None] when the updater
    throws: the exception is raised while React renders, outside the
    [try] of [handleChat]. *)
Definition replyText (o : Outcome) : option Json :=
  match o with
  | Failed => Some (JString "Observation logged. XGBoost risk updated.")
  | Responded result => responseText result
  end.

Section HandleChat.

(** [String.prototype.trim] and [String.prototype.toLowerCase]. *)
Variable trim : string -> string.
Variable toLowerCase : string -> string.

(** One call of [handleChat], run to its end, with the successive state
    updates applied in order.  The request body is not part of the state.
    The updater of the reply runs when React applies the updates queued
    after the request; when it throws, the exception reaches no handler,
    none of these updates is applied ([setIsTyping(false)] is one of them)
    and the state is the one rendered while the request was pending. *)
Definition handleChat (input : string) (o : Outcome) (st : State) : State :=
  if String.eqb (trim input) "" then st
  else
    let chat1 := chat st ++ [{| role := "user"; text := JString input |}] in
    let lower := toLowerCase input in
    let symptoms1 :=
      if includes lower "pain"
      then {| pain := true; breathless := breathless (symptoms st) |}
      else symptoms st in
    let symptoms2 :=
      if includes lower "breath"
      then {| pain := pain symptoms1; breathless := true |}
      else symptoms1 in
    match replyText o with
    | Some t =>
        {| symptoms := symptoms2;
           chat := chat1 ++ [{| role := "ai"; text := t |}];
           isTyping := false;
           crashed := crashed st |}
    | None =>
        {| symptoms := symptoms2; chat := chat1; isTyping := true;
           crashed := true |}
    end.

End HandleChat.

(** Concrete [trim] and [toLowerCase] for texts made of ASCII characters,
    to run [handleChat]. *)
Definition isSpace (c : Ascii.ascii) : bool :=
  let n := Ascii.nat_of_ascii c in
  ((9 <=? n) && (n <=? 13))%nat || (n =? 32)%nat.

Fixpoint trimStart (s : string) : string :=
  match s with
  | EmptyString => EmptyString
  | String c s' => if isSpace c then trimStart s' else s
  end.

Fixpoint trimEnd (s : string) : string :=
  match s with
  | EmptyString => EmptyString
  | String c s' =>
      let t := trimEnd s' in
      if isSpace c && String.eqb t "" then EmptyString else String c t
  end.

Definition asciiTrim (s : string) : string := trimEnd (trimStart s).

Definition asciiLower (c : Ascii.ascii) : Ascii.ascii :=
  let n := Ascii.nat_of_ascii c in
  if ((65 <=? n) && (n <=? 90))%nat then Ascii.ascii_of_nat (n + 32) else c.

Fixpoint asciiToLowerCase (s : string) : string :=
  match s with
  | EmptyString => EmptyString
  | String c s' => String (asciiLower c) (asciiToLowerCase s')
  end.

End Chat.

(** *** The onboarding wizard: [OnboardingFlow] *)

Module Onboarding.

Open Scope string_scope.
Open Scope float_scope.

(** The keys [k] of the step table. *)
Inductive Field := Age | Height | Weight.

Record StepInfo := {
  k : Field;
  l : string;
  d : string;
  min : float;
  max : float
}.

Definition steps : list StepInfo :=
  [ {| k := Age; l := "Patient Age";
       d := "XGBoost uses age as a primary metabolic weight.";
       min := 18; max := 110 |};
    {| k := Height; l := "Height (cm)";
       d := "Determines physiological resistance baselines.";
       min := 100; max := 250 |};
    {| k := Weight; l := "Weight (kg)";
       d := "Critical for sepsis volume calculations.";
       min := 30; max := 250 |} ].

Record Data := {
  age : float;
  height : float;
  weight : float
}.

(** The document [finish] writes: [{ ...data, setupComplete: true }]. *)
Record ProfileDoc := {
  profile : Data;
  setupComplete : bool
}.

(** The component's state [step] and [data], with what [finish] has done so
    far: the document written by [setDoc] and the value passed to
    [onComplete]. *)
Record State := {
  step : Z;
  data : Data;
  written : option ProfileDoc;
  completed : option Data
}.

Definition initial : State :=
  {| step := 1; data := {| age := 45; height := 170; weight := 70 |};
     written := None; completed := None |}.

(** [array[i]]: [undefined], here [None], outside the array. *)
Definition at_index {A : Type} (arr : list A) (i : Z) : option A :=
  if (i <? 0)%Z then None else nth_error arr (Z.to_nat i).

(** [currentStep], the entry [step - 1] of the table. *)
Definition currentStep (st : State) : option StepInfo :=
  at_index steps (step st - 1).

(** What the user does: type [value] in the input, or press the button
    ([writeOk] tells whether the [setDoc] of [finish] succeeds). *)
Inductive Event :=
| Change (value : string)
| Click (writeOk : bool).

Section Handlers.

(** The global [parseInt]. *)
Variable parseInt : string -> float.

(** [{ ...data, [key]: x }]. *)
Definition setField (key : Field) (x : float) (dt : Data) : Data :=
  match key with
  | Age => {| age := x; height := height dt; weight := weight dt |}
  | Height => {| age := age dt; height := x; weight := weight dt |}
  | Weight => {| age := age dt; height := height dt; weight := x |}
  end.

(** [finish]: when the write is rejected the exception leaves the function
    before [onComplete]. *)
Definition finish (writeOk : bool) (st : State) : State :=
  if writeOk
  then {| step := step st; data := data st;
          written := Some {| profile := data st; setupComplete := true |};
          completed := Some (data st) |}
  else st.

(** The button: [step < 3 ? setStep(step + 1) : finish()]. *)
Definition onClick (writeOk : bool) (st : State) : State :=
  if (step st <? 3)%Z
  then {| step := (step st + 1)%Z; data := data st;
          written := written st; completed := completed st |}
  else finish writeOk st.

(** One event on the rendered component.  Rendering reads [currentStep.l],
    and the input's handler [currentStep.k]: both throw when [currentStep]
    is [undefined], which is [None] here. *)
Definition handle (ev : Event) (st : State) : option State :=
  match currentStep st with
  | None => None
  | Some cs =>
      match ev with
      | Change value =>
          Some {| step := step st;
                  data := setField (k cs) (parseInt value) (data st);
                  written := written st; completed := completed st |}
      | Click writeOk => Some (onClick writeOk st)
      end
  end.

(** A sequence of events.  The dashboard unmounts the component once
    [onComplete] has run, so the sequences the browser can produce end at
    the first successful [finish]; [run] accepts longer ones as well. *)
Fixpoint run (evs : list Event) (st : State) : option State :=
  match evs with
  | [] => Some st
  | ev :: evs' =>
      match handle ev st with
      | Some st' => run evs' st'
      | None => None
      end
  end.

End Handlers.

(** The number of presses of the button among [evs]. *)
Definition clicks (evs : list Event) : nat :=
  List.length (filter (fun ev => match ev with Click _ => true | Change _ => false end) evs).

(** The document written, when there is one, is the value handed to
    [onComplete] with [setupComplete] set. *)
Definition consistent (st : State) : Prop :=
  written st
  = option_map (fun dt => {| profile := dt; setupComplete := true |}) (completed st).

(** No event of [evs] is a press of the button whose write succeeds. *)
Definition no_write_succeeds (evs : list Event) : bool :=
  forallb (fun ev => match ev with Click true => false | _ => true end) evs.

End Onboarding.

(** * Part II: properties *)

(** ** Facts about the stable sort *)

Module JsArrayFacts.

Import JsArray.

Section Sort.

Context {A : Type}.
Variable swaps : A -> A -> bool.

(** *** The result is a rearrangement of the array *)

Lemma insert_perm (x : A) (l : list A) : Permutation (x :: l) (insert swaps x l).
Proof.
  induction l as [|y l IH]; simpl; [reflexivity|].
  destruct (swaps x y); [|reflexivity].
  rewrite perm_swap. now apply perm_skip.
Qed.

Lemma sort_perm (l : list A) : Permutation l (sort swaps l).
Proof.
  induction l as [|x l IH]; simpl; [constructor|].
  rewrite <- insert_perm. now apply perm_skip.
Qed.

Lemma sort_length (l : list A) : List.length (sort swaps l) = List.length l.
Proof. symmetry. apply Permutation_length, sort_perm. Qed.

Lemma sort_In (x : A) (l : list A) : In x (sort swaps l) <-> In x l.
Proof.
  split; apply Permutation_in; [symmetry|]; apply sort_perm.
Qed.

(** *** Relative order *)

Lemma precedes_here (a b : A) (l : list A) : In b l -> precedes a b (a :: l).
Proof.
  intros Hb. destruct (in_split _ _ Hb) as (l2 & l3 & ->).
  now exists [], l2, l3.
Qed.

Lemma precedes_later (a b y : A) (l : list A) :
  precedes a b l -> precedes a b (y :: l).
Proof.
  intros (l1 & l2 & l3 & ->). now exists (y :: l1), l2, l3.
Qed.

Lemma precedes_cons_inv (a b y : A) (l : list A) :
  precedes a b (y :: l) -> (y = a /\ In b l) \/ precedes a b l.
Proof.
  intros (l1 & l2 & l3 & E). destruct l1 as [|z l1]; simpl in E.
  - injection E as -> ->. left. split; [reflexivity|].
    apply in_or_app. right. now left.
  - injection E as -> ->. right. now exists l1, l2, l3.
Qed.

Lemma insert_keeps_order (x a b : A) (l : list A) :
  precedes a b l -> precedes a b (insert swaps x l).
Proof.
  induction l as [|y l IH]; intros H; simpl.
  - now apply precedes_later.
  - destruct (swaps x y); [|now apply precedes_later].
    destruct (precedes_cons_inv _ _ _ _ H) as [[-> Hb]|H'].
    + apply precedes_here.
      apply (Permutation_in _ (insert_perm x l)). now right.
    + apply precedes_later. now apply IH.
Qed.

Lemma insert_stops_before (x b : A) (l : list A) :
  In b l -> swaps x b = false -> precedes x b (insert swaps x l).
Proof.
  induction l as [|y l IH]; intros Hb Hxb; [contradiction|]. simpl.
  destruct (swaps x y) eqn:Hxy.
  - destruct Hb as [->|Hb]; [congruence|].
    apply precedes_later. now apply IH.
  - now apply precedes_here.
Qed.

(** Stability: a pair that the comparator does not ask to exchange keeps
    its relative order.  No property of the comparator is needed. *)
Lemma sort_stable (a b : A) (l : list A) :
  precedes a b l -> swaps a b = false -> precedes a b (sort swaps l).
Proof.
  induction l as [|y l IH]; intros H Hab.
  - destruct H as (l1 & l2 & l3 & E). now destruct l1.
  - simpl. destruct (precedes_cons_inv _ _ _ _ H) as [[-> Hb]|H'].
    + apply insert_stops_before; [|assumption]. now apply sort_In.
    + apply insert_keeps_order. now apply IH.
Qed.

(** *** Sortedness *)

(** Neighbours of the result are never asked to be exchanged, as soon as
    the comparator does not ask for both [a] before [b] and [b] before
    [a]. *)
Hypothesis swaps_asym : forall a b, swaps a b = true -> swaps b a = false.

Lemma insert_HdRel (x y : A) (l : list A) :
  swaps x y = true -> HdRel (fun a b => swaps a b = false) y l ->
  HdRel (fun a b => swaps a b = false) y (insert swaps x l).
Proof.
  intros Hxy H. destruct l as [|z l]; simpl.
  - constructor. now apply swaps_asym.
  - destruct (swaps x z); constructor.
    + now inversion H.
    + now apply swaps_asym.
Qed.

Lemma insert_sorted (x : A) (l : list A) :
  Sorted (fun a b => swaps a b = false) l ->
  Sorted (fun a b => swaps a b = false) (insert swaps x l).
Proof.
  induction l as [|y l IH]; intros H; simpl.
  - repeat constructor.
  - inversion H as [|? ? Hs Hh]; subst.
    destruct (swaps x y) eqn:Hxy.
    + constructor; [now apply IH|now apply insert_HdRel].
    + constructor; [assumption|now constructor].
Qed.

Lemma sort_sorted (l : list A) :
  Sorted (fun a b => swaps a b = false) (sort swaps l).
Proof.
  induction l as [|x l IH]; simpl; [constructor|now apply insert_sorted].
Qed.

End Sort.

(** Rearranging a list rearranges each of its selections. *)
Lemma Permutation_filter {A : Type} (f : A -> bool) (l l' : list A) :
  Permutation l l' -> Permutation (filter f l) (filter f l').
Proof.
  induction 1 as [|x l l' _ IH|x y l|l l' l'' _ IH1 _ IH2]; simpl.
  - constructor.
  - destruct (f x); [now apply perm_skip|assumption].
  - destruct (f x), (f y); try reflexivity. apply perm_swap.
  - now transitivity (filter f l').
Qed.

(** Changing the relation along an implication keeps a list sorted. *)
Lemma Sorted_impl {A : Type} (R R' : A -> A -> Prop) (l : list A) :
  (forall a b, In a l -> In b l -> R a b -> R' a b) ->
  Sorted R l -> Sorted R' l.
Proof.
  induction l as [|x l IH]; intros Himp H; [constructor|].
  inversion H as [|? ? Hs Hh]; subst. constructor.
  - apply IH; [|assumption]. intros a b Ha Hb. apply Himp; now right.
  - destruct Hh as [|y l Hxy]; constructor.
    apply Himp; [now left|right; now left|assumption].
Qed.

End JsArrayFacts.

(** ** Facts about binary64 arithmetic, on the specification *)

Module SF64Facts.

Import SF64.
Open Scope Z_scope.


Abbreviation fexp64 := (fexp prec emax).

Lemma fexp64_eq e : fexp64 e = Z.max (e - 53) (-1074).
Proof. reflexivity. Qed.

Lemma digits2_pos_bounds m :
  2 ^ (Zpos (digits2_pos m) - 1) <= Zpos m < 2 ^ Zpos (digits2_pos m).
Proof.
  induction m as [m IH|m IH|]; simpl digits2_pos.
  - rewrite Pos2Z.inj_succ.
    replace (Z.succ (Zpos (digits2_pos m)) - 1) with (Z.succ (Zpos (digits2_pos m) - 1)) by lia.
    rewrite !Z.pow_succ_r by lia. lia.
  - rewrite Pos2Z.inj_succ.
    replace (Z.succ (Zpos (digits2_pos m)) - 1) with (Z.succ (Zpos (digits2_pos m) - 1)) by lia.
    rewrite !Z.pow_succ_r by lia. lia.
  - simpl. lia.
Qed.

Lemma shr_1_m r : 0 <= shr_m r -> shr_m (shr_1 r) = shr_m r / 2.
Proof.
  destruct r as [m b s]. simpl shr_m. intros Hm.
  rewrite <- Z.div2_div.
  destruct m as [|[p|p|]|p]; try reflexivity. lia.
Qed.

Lemma iter_shr_m p : forall r,
  0 <= shr_m r -> shr_m (SpecFloat.iter_pos shr_1 p r) = shr_m r / 2 ^ Zpos p.
Proof.
  induction p as [p IH|p IH|]; intros r Hr; simpl SpecFloat.iter_pos.
  - assert (H2 : 0 <= shr_m (shr_1 r)) by (rewrite shr_1_m by assumption; apply Z.div_pos; lia).
    assert (H3 : 0 <= shr_m (SpecFloat.iter_pos shr_1 p (shr_1 r))).
    { rewrite IH by assumption. apply Z.div_pos; [assumption|]. apply Z.pow_pos_nonneg; lia. }
    rewrite IH, IH, shr_1_m by assumption.
    rewrite !Zdiv_Zdiv by (try apply Z.pow_nonneg; try apply Z.mul_nonneg_nonneg; try apply Z.pow_nonneg; lia).
    f_equal. rewrite Pos2Z.inj_xI.
    replace (2 * Zpos p + 1) with (1 + Zpos p + Zpos p) by lia.
    rewrite !Z.pow_add_r by lia. change (2 ^ 1) with 2. ring.
  - assert (H3 : 0 <= shr_m (SpecFloat.iter_pos shr_1 p r)).
    { rewrite IH by assumption. apply Z.div_pos; [assumption|]. apply Z.pow_pos_nonneg; lia. }
    rewrite IH, IH by assumption.
    rewrite !Zdiv_Zdiv by (try apply Z.pow_nonneg; lia).
    f_equal. rewrite Pos2Z.inj_xO. rewrite <- Z.pow_add_r by lia. f_equal. lia.
  - rewrite shr_1_m by assumption. reflexivity.
Qed.


Lemma shr_spec r e n :
  0 <= shr_m r ->
  shr_m (fst (shr r e n)) = shr_m r / 2 ^ Z.max n 0 /\
  snd (shr r e n) = e + Z.max n 0.
Proof.
  intros Hr. destruct n as [|p|p]; simpl shr; simpl fst; simpl snd.
  - change (Z.max 0 0) with 0. rewrite Z.div_1_r. lia.
  - rewrite iter_shr_m by assumption.
    replace (Z.max (Zpos p) 0) with (Zpos p) by lia. lia.
  - replace (Z.max (Zneg p) 0) with 0 by lia. rewrite Z.div_1_r. lia.
Qed.

Lemma shr_m_record_of_loc m l : shr_m (shr_record_of_loc m l) = m.
Proof. destruct l as [|[ | | ]]; reflexivity. Qed.

(** The first result of [shr_fexp]: the mantissa divided by the power of
    two that brings it to at most [prec] digits (or to exponent [emin]). *)
Lemma shr_fexp_spec m e l :
  0 <= m ->
  let n := Z.max (fexp64 (Zdigits2 m + e) - e) 0 in
  shr_m (fst (shr_fexp prec emax m e l)) = m / 2 ^ n /\
  snd (shr_fexp prec emax m e l) = e + n.
Proof.
  intros Hm n. unfold shr_fexp.
  pose proof (shr_spec (shr_record_of_loc m l) e (fexp64 (Zdigits2 m + e) - e)) as H.
  rewrite shr_m_record_of_loc in H. now apply H.
Qed.

Lemma shr_fexp_pos m e l :
  0 < m -> emin <= e ->
  0 < shr_m (fst (shr_fexp prec emax m e l)) /\
  emin <= snd (shr_fexp prec emax m e l).
Proof.
  intros Hm He.
  destruct (shr_fexp_spec m e l) as [-> ->]; [lia|].
  destruct m as [|p|p]; try lia. simpl Zdigits2.
  pose proof (digits2_pos_bounds p) as [Hlo _].
  rewrite fexp64_eq. change emin with (-1074) in *.
  split; [|lia].
  apply Z.div_str_pos. split; [apply Z.pow_pos_nonneg; lia|].
  eapply Z.le_trans; [|exact Hlo].
  apply Z.pow_le_mono_r; lia.
Qed.

Lemma round_nearest_even_ge m l : m <= round_nearest_even m l.
Proof.
  destruct l as [|[ | | ]]; simpl; try lia. destruct (Z.even m); lia.
Qed.

(** Rounding a non-negative mantissa never yields NaN, and keeps the sign. *)
Lemma binary_round_aux_cases sx m e l :
  0 <= m ->
  binary_round_aux prec emax sx m e l = S754_zero sx \/
  (exists m' e', binary_round_aux prec emax sx m e l = S754_finite sx m' e') \/
  binary_round_aux prec emax sx m e l = S754_infinity sx.
Proof.
  intros Hm. unfold binary_round_aux.
  pose proof (shr_fexp_spec m e l Hm) as [H1 _].
  destruct (shr_fexp prec emax m e l) as [r1 e1]. simpl fst in H1.
  assert (H1' : 0 <= shr_m r1) by (rewrite H1; apply Z.div_pos; [lia|apply Z.pow_pos_nonneg; lia]).
  pose proof (round_nearest_even_ge (shr_m r1) (loc_of_shr_record r1)) as Hr.
  pose proof (shr_fexp_spec (round_nearest_even (shr_m r1) (loc_of_shr_record r1)) e1 loc_Exact) as [H2 _]; [lia|].
  destruct (shr_fexp prec emax _ e1 loc_Exact) as [r2 e2]. simpl fst in H2.
  assert (H2' : 0 <= shr_m r2) by (rewrite H2; apply Z.div_pos; [lia|apply Z.pow_pos_nonneg; lia]).
  destruct (shr_m r2) as [|p|p]; [now left| |lia].
  right. destruct (e2 <=? emax - prec); [left; eauto|now right].
Qed.

(** With an exponent no smaller than [emin], a positive mantissa is never
    flushed to zero. *)
Lemma binary_round_aux_pos sx m e l :
  0 < m -> emin <= e ->
  (exists m' e', binary_round_aux prec emax sx m e l = S754_finite sx m' e') \/
  binary_round_aux prec emax sx m e l = S754_infinity sx.
Proof.
  intros Hm He. unfold binary_round_aux.
  pose proof (shr_fexp_pos m e l Hm He) as [H1 H1e].
  destruct (shr_fexp prec emax m e l) as [r1 e1]. simpl fst in H1. simpl snd in H1e.
  pose proof (round_nearest_even_ge (shr_m r1) (loc_of_shr_record r1)) as Hr.
  pose proof (shr_fexp_pos (round_nearest_even (shr_m r1) (loc_of_shr_record r1)) e1 loc_Exact) as [H2 _]; [lia|lia|].
  destruct (shr_fexp prec emax _ e1 loc_Exact) as [r2 e2]. simpl fst in H2.
  destruct (shr_m r2) as [|p|p]; [lia| |lia].
  destruct (e2 <=? emax - prec); [left; eauto|now right].
Qed.

Lemma Pos_iter_xO m d : Zpos (Pos.iter xO m d) = Zpos m * 2 ^ Zpos d.
Proof.
  revert m. induction d as [|d IH] using Pos.peano_ind; intros m.
  - simpl. lia.
  - rewrite Pos.iter_succ, Pos2Z.inj_succ, Z.pow_succ_r by lia.
    rewrite Pos2Z.inj_xO, IH. ring.
Qed.

Lemma shl_align_spec m e e' :
  e' <= e ->
  Zpos (fst (shl_align m e e')) = Zpos m * 2 ^ (e - e') /\
  snd (shl_align m e e') = e'.
Proof.
  intros H. unfold shl_align.
  destruct (e' - e) as [|p|p] eqn:E; try lia.
  - replace (e - e') with 0 by lia. cbn [fst snd]. rewrite Z.pow_0_r. lia.
  - cbn [fst snd]. rewrite Pos_iter_xO. split; [|reflexivity].
    f_equal. f_equal. lia.
Qed.

Lemma shl_align_ge m e e' :
  e <= e' -> shl_align m e e' = (m, e).
Proof.
  intros H. unfold shl_align. destruct (e' - e) as [|p|p] eqn:E; try reflexivity. lia.
Qed.

Lemma binary_round_cases sx m e :
  binary_round prec emax sx m e = S754_zero sx \/
  (exists m' e', binary_round prec emax sx m e = S754_finite sx m' e') \/
  binary_round prec emax sx m e = S754_infinity sx.
Proof.
  unfold binary_round. destruct (shl_align m e _) as [mz ez].
  apply binary_round_aux_cases. lia.
Qed.

Lemma binary_round_pos sx m e :
  emin <= e ->
  (exists m' e', binary_round prec emax sx m e = S754_finite sx m' e') \/
  binary_round prec emax sx m e = S754_infinity sx.
Proof.
  intros He. unfold binary_round.
  destruct (Z_le_gt_dec e (fexp64 (Zpos (digits2_pos m) + e))) as [Hle|Hgt].
  - rewrite shl_align_ge by assumption. apply binary_round_aux_pos; lia.
  - pose proof (shl_align_spec m e (fexp64 (Zpos (digits2_pos m) + e))) as [_ Hs]; [lia|].
    destruct (shl_align m e _) as [mz ez]. simpl snd in Hs. subst ez.
    apply binary_round_aux_pos; [lia|]. rewrite fexp64_eq. change emin with (-1074). lia.
Qed.

Lemma is_pos_binary_normalize m e b :
  is_pos (binary_normalize prec emax m e b) = true -> 0 < m.
Proof.
  destruct m as [|p|p]; simpl; intros H; try lia; try discriminate.
  destruct (binary_round_cases true p e) as [E|[(m' & e' & E)|E]];
    rewrite E in H; discriminate.
Qed.

Lemma binary_normalize_is_pos m e b :
  0 < m -> emin <= e -> is_pos (binary_normalize prec emax m e b) = true.
Proof.
  intros Hm He. destruct m as [|p|p]; try lia. simpl.
  destruct (binary_round_pos false p e He) as [(m' & e' & E)|E]; now rewrite E.
Qed.

Lemma binary_normalize_not_nan m e b :
  binary_normalize prec emax m e b <> S754_nan.
Proof.
  destruct m as [|p|p]; simpl; try discriminate.
  - destruct (binary_round_cases false p e) as [E|[(m' & e' & E)|E]]; rewrite E; discriminate.
  - destruct (binary_round_cases true p e) as [E|[(m' & e' & E)|E]]; rewrite E; discriminate.
Qed.


(** *** Valid binary64 numbers *)

Lemma valid_finite s m e :
  valid_binary (S754_finite s m e) = true ->
  emin <= e /\ Zpos (digits2_pos m) <= 53 /\ (e = emin \/ Zpos (digits2_pos m) = 53).
Proof.
  unfold SpecFloat.valid_binary, SpecFloat.bounded, SpecFloat.canonical_mantissa. rewrite andb_true_iff, Z.eqb_eq.
  rewrite fexp64_eq. change emin with (-1074). lia.
Qed.

(** Of two valid numbers the one with the larger exponent is the larger. *)
Lemma mantissa_lt_shifted m1 e1 m2 e2 :
  valid_binary (S754_finite false m1 e1) = true ->
  valid_binary (S754_finite false m2 e2) = true ->
  e1 < e2 -> Zpos m1 < Zpos m2 * 2 ^ (e2 - e1).
Proof.
  intros V1 V2 He.
  apply valid_finite in V1, V2. change emin with (-1074) in *.
  pose proof (digits2_pos_bounds m1) as [_ H1].
  pose proof (digits2_pos_bounds m2) as [H2 _].
  assert (D2 : Zpos (digits2_pos m2) = 53) by lia. rewrite D2 in H2.
  assert (Zpos m1 < 2 ^ 53).
  { eapply Z.lt_le_trans; [exact H1|]. apply Z.pow_le_mono_r; lia. }
  assert (2 ^ 1 <= 2 ^ (e2 - e1)) by (apply Z.pow_le_mono_r; lia).
  change (2 ^ (53 - 1)) with 4503599627370496 in H2.
  change (2 ^ 53) with 9007199254740992 in *. change (2 ^ 1) with 2 in *.
  nia.
Qed.

Lemma aligned_lt m1 e1 m2 e2 :
  valid_binary (S754_finite false m1 e1) = true ->
  valid_binary (S754_finite false m2 e2) = true ->
  e1 < e2 \/ (e1 = e2 /\ (m1 < m2)%positive) ->
  Zpos m1 * 2 ^ (e1 - Z.min e1 e2) < Zpos m2 * 2 ^ (e2 - Z.min e1 e2).
Proof.
  intros V1 V2 [He|[-> Hm]].
  - rewrite Z.min_l by lia. rewrite Z.sub_diag, Z.pow_0_r, Z.mul_1_r.
    now apply mantissa_lt_shifted.
  - rewrite Z.min_id, Z.sub_diag, Z.pow_0_r. lia.
Qed.

Lemma valid_sign s s' m e :
  valid_binary (S754_finite s m e) = valid_binary (S754_finite s' m e).
Proof. reflexivity. Qed.

(** *** Subtraction and order *)

Lemma SFsub_finite sx mx ex sy my ey :
  SF64sub (S754_finite sx mx ex) (S754_finite sy my ey)
  = binary_normalize prec emax
      (cond_Zopp sx (Zpos mx * 2 ^ (ex - Z.min ex ey))
       - cond_Zopp sy (Zpos my * 2 ^ (ey - Z.min ex ey)))
      (Z.min ex ey) false.
Proof.
  unfold SF64sub, SFsub.
  destruct (shl_align_spec mx ex (Z.min ex ey)) as [-> _]; [lia|].
  destruct (shl_align_spec my ey (Z.min ex ey)) as [-> _]; [lia|].
  reflexivity.
Qed.

(** [x < y] makes [y - x] positive: the difference of two distinct numbers
    is never rounded to zero. *)
Lemma SFsub_pos_of_lt x y :
  valid_binary x = true -> valid_binary y = true ->
  SFltb x y = true -> is_pos (SF64sub y x) = true.
Proof.
  intros Vx Vy. unfold SFltb.
  destruct x as [sx|sx| |sx mx ex], y as [sy|sy| |sy my ey]; simpl SFcompare;
    try discriminate;
    try (destruct sx; discriminate); try (destruct sy; discriminate);
    try (destruct sx, sy; simpl; intros; (reflexivity || discriminate)).
  rewrite SFsub_finite. intros H.
  apply binary_normalize_is_pos.
  2:{ apply valid_finite in Vx, Vy. lia. }
  pose proof (Z.pow_pos_nonneg 2 (ex - Z.min ey ex)) as Px.
  pose proof (Z.pow_pos_nonneg 2 (ey - Z.min ey ex)) as Py.
  change (valid_binary (S754_finite false mx ex) = true) in Vx.
  change (valid_binary (S754_finite false my ey) = true) in Vy.
  destruct sx, sy; unfold cond_Zopp; try discriminate.
  - (* both negative: |y| < |x| *)
    assert (L : ey < ex \/ (ey = ex /\ (my < mx)%positive)).
    { destruct (Z.compare_spec ex ey); try discriminate; [right|left; lia].
      split; [lia|].
      destruct (Pos.compare_cont Eq mx my) eqn:E; try discriminate.
      apply Pos.compare_gt_iff. exact E. }
    pose proof (aligned_lt _ _ _ _ Vy Vx L). lia.
  - (* x negative, y positive *)
    lia.
  - (* both positive: |x| < |y| *)
    assert (L : ex < ey \/ (ex = ey /\ (mx < my)%positive)).
    { destruct (Z.compare_spec ex ey); try discriminate; [right|left; lia].
      split; [lia|].
      destruct (Pos.compare_cont Eq mx my) eqn:E; try discriminate.
      apply Pos.compare_lt_iff. exact E. }
    pose proof (aligned_lt _ _ _ _ Vx Vy L) as A.
    rewrite (Z.min_comm ex ey) in A. lia.
Qed.

(** [x - y] and [y - x] are never both positive. *)
Lemma SFsub_pos_asym x y :
  is_pos (SF64sub x y) = true -> is_pos (SF64sub y x) = false.
Proof.
  destruct x as [sx|sx| |sx mx ex], y as [sy|sy| |sy my ey];
    try (simpl; discriminate);
    try (destruct sx; simpl; (discriminate || reflexivity));
    try (destruct sy; simpl; (discriminate || reflexivity));
    try (destruct sx, sy; simpl; (discriminate || reflexivity)).
  rewrite !SFsub_finite. intros H. apply is_pos_binary_normalize in H.
  rewrite (Z.min_comm ey ex).
  destruct (is_pos (binary_normalize _ _ _ _ _)) eqn:E; [|reflexivity].
  apply is_pos_binary_normalize in E. lia.
Qed.

Lemma SFsub_diag_not_pos x : is_pos (SF64sub x x) = false.
Proof.
  destruct (is_pos (SF64sub x x)) eqn:E; [|reflexivity].
  now rewrite (SFsub_pos_asym x x E) in E.
Qed.

(** *** The order *)

Lemma SFcompare_antisym x y :
  SFcompare y x = option_map CompOpp (SFcompare x y).
Proof.
  destruct x as [sx|sx| |sx mx ex], y as [sy|sy| |sy my ey]; simpl;
    try reflexivity; try (destruct sx; reflexivity); try (destruct sy; reflexivity);
    try (destruct sx, sy; reflexivity).
  change (Pos.compare_cont Eq my mx) with (my ?= mx)%positive.
  change (Pos.compare_cont Eq mx my) with (mx ?= my)%positive.
  rewrite (Z.compare_antisym ex ey), (Pos.compare_antisym mx my).
  destruct sx, sy, (ex ?= ey), (mx ?= my)%positive; reflexivity.
Qed.

Lemma SFleb_of_not_ltb x y :
  x <> S754_nan -> y <> S754_nan -> SFltb x y = false -> SFleb y x = true.
Proof.
  unfold SFltb, SFleb. rewrite (SFcompare_antisym x y).
  destruct (SFcompare x y) as [[ | | ]|] eqn:E; simpl; try reflexivity; try discriminate.
  intros Hx Hy _. destruct x, y; simpl in E; congruence.
Qed.


Lemma SFleb_trans x y z :
  SFleb x y = true -> SFleb y z = true -> SFleb x z = true.
Proof.
  unfold SFleb.
  destruct x as [sx|sx| |sx mx ex], y as [sy|sy| |sy my ey], z as [sz|sz| |sz mz ez];
    simpl SFcompare; try discriminate; try reflexivity;
    try (destruct sx; try discriminate; try reflexivity);
    try (destruct sy; try discriminate; try reflexivity);
    try (destruct sz; try discriminate; try reflexivity).
  all: change (Pos.compare_cont Eq) with Pos.compare.
  all: destruct (Z.compare_spec ex ey), (Z.compare_spec ey ez), (Z.compare_spec ex ez);
       try discriminate; try reflexivity; try lia; subst.
  all: destruct (Pos.compare_spec mx my), (Pos.compare_spec my mz), (Pos.compare_spec mx mz);
       simpl; try discriminate; try reflexivity; try lia.
Qed.

(** *** Products *)

Lemma SFmul_pos_not_nan x y :
  is_pos x = true ->
  match y with S754_finite _ _ _ => True | _ => False end ->
  SF64mul x y <> S754_nan.
Proof.
  destruct x as [sx|[|]| |[|] mx ex]; try discriminate; intros _;
    destruct y as [sy|sy| |sy my ey]; try contradiction; intros _; simpl; try discriminate.
  destruct (binary_round_aux_cases sy (Zpos (mx * my)) (ex + ey) loc_Exact) as [E|[(m' & e' & E)|E]];
    [lia|rewrite E; discriminate..].
Qed.


End SF64Facts.

(** ** Facts about binary64 arithmetic, on the primitive numbers *)

Module Float64Facts.

Open Scope float_scope.

Lemma gtb_zero_spec f : (0 <? f) = SF64.is_pos (Prim2SF f).
Proof.
  rewrite ltb_spec. change (Prim2SF 0) with (S754_zero false).
  destruct (Prim2SF f) as [s|[|]| |[|] m e]; reflexivity.
Qed.

Lemma is_nan_spec f : is_nan f = true <-> Prim2SF f = S754_nan.
Proof.
  unfold is_nan. rewrite FloatAxioms.eqb_spec. unfold SFeqb.
  destruct (Prim2SF f) as [s|[|]| |[|] m e]; simpl;
    rewrite ?Z.compare_refl; try change (Pos.compare_cont Eq m m) with (m ?= m)%positive;
    rewrite ?Pos.compare_refl; simpl; split; congruence.
Qed.

Lemma is_nan_false f : is_nan f = false <-> Prim2SF f <> S754_nan.
Proof.
  rewrite <- is_nan_spec. destruct (is_nan f); split; congruence.
Qed.

Lemma sub_pos_of_lt x y : (x <? y) = true -> (0 <? y - x) = true.
Proof.
  rewrite ltb_spec, gtb_zero_spec, sub_spec.
  apply SF64Facts.SFsub_pos_of_lt; apply Prim2SF_valid.
Qed.

Lemma sub_pos_asym x y : (0 <? x - y) = true -> (0 <? y - x) = false.
Proof.
  rewrite !gtb_zero_spec, !sub_spec. apply SF64Facts.SFsub_pos_asym.
Qed.

Lemma sub_diag_not_pos x : (0 <? x - x) = false.
Proof.
  rewrite gtb_zero_spec, sub_spec. apply SF64Facts.SFsub_diag_not_pos.
Qed.

Lemma leb_of_not_ltb x y :
  is_nan x = false -> is_nan y = false -> (x <? y) = false -> (y <=? x) = true.
Proof.
  rewrite !is_nan_false, ltb_spec, leb_spec. apply SF64Facts.SFleb_of_not_ltb.
Qed.

Lemma leb_trans x y z : (x <=? y) = true -> (y <=? z) = true -> (x <=? z) = true.
Proof. rewrite !leb_spec. apply SF64Facts.SFleb_trans. Qed.

Lemma abs_is_nan x : is_nan (abs x) = is_nan x.
Proof.
  apply eq_true_iff_eq. rewrite !is_nan_spec, abs_spec.
  destruct (Prim2SF x); simpl; split; congruence.
Qed.

Lemma mul_pos_not_nan x y :
  (0 <? x) = true ->
  match Prim2SF y with S754_finite _ _ _ => True | _ => False end ->
  is_nan (x * y) = false.
Proof.
  rewrite gtb_zero_spec, is_nan_false, mul_spec. apply SF64Facts.SFmul_pos_not_nan.
Qed.



End Float64Facts.

(** ** The engine over binary64: properties *)

Module Binary64Facts.

Import JsArray JsArrayFacts Binary64.
Open Scope string_scope.
Open Scope float_scope.

(** *** The result in terms of the pushes *)

Lemma shapValues_run exp v s :
  shapValues (runXaiInference exp v s) = sortByMagnitude (pushed v s).
Proof.
  unfold runXaiInference, pushed. destruct (pain s), (breathless s); reflexivity.
Qed.

Lemma probability_run exp v s :
  probability (runXaiInference exp v s) = sigmoid exp (sumPhi (pushed v s) + 0.18).
Proof.
  unfold runXaiInference, pushed. destruct (pain s), (breathless s); reflexivity.
Qed.


Lemma limeSensitivity_run exp v s :
  limeSensitivity (runXaiInference exp v s)
  = if heartRate v >? 100 then 0.009 else 0.002.
Proof.
  unfold runXaiInference. destruct (pain s), (breathless s); reflexivity.
Qed.

Lemma sortByMagnitude_perm l : Permutation l (sortByMagnitude l).
Proof. apply sort_perm. Qed.

(** Selecting by feature commutes with the sort when the feature occurs at
    most once. *)
Lemma filter_sort_unique name l :
  (List.length (filter (fun t => String.eqb (feature t) name) l) <= 1)%nat ->
  filter (fun t => String.eqb (feature t) name) (sortByMagnitude l)
  = filter (fun t => String.eqb (feature t) name) l.
Proof.
  intros Hlen.
  pose proof (Permutation_filter (fun t => String.eqb (feature t) name)
                _ _ (sortByMagnitude_perm l)) as P.
  destruct (filter _ l) as [|x [|y k]] in Hlen, P |- *.
  - now apply Permutation_nil.
  - now apply Permutation_length_1_inv.
  - simpl in Hlen. lia.
Qed.

Lemma pushed_features_unique name v s :
  (List.length (filter (fun t => String.eqb (feature t) name) (pushed v s)) <= 1)%nat.
Proof.
  unfold pushed.
  destruct (pain s), (breathless s); cbn [app filter feature vitalTerm];
    repeat (match goal with |- context [String.eqb ?a name] =>
              destruct (String.eqb_spec a name) as [<-|]; [cbn; lia|] end);
    cbn; lia.
Qed.

Lemma phiOf_run exp name v s :
  phiOf name (shapValues (runXaiInference exp v s)) = phiOf name (pushed v s).
Proof.
  unfold phiOf. rewrite shapValues_run, filter_sort_unique; [reflexivity|].
  apply pushed_features_unique.
Qed.

Lemma tableOrder_run exp v s :
  tableOrder (shapValues (runXaiInference exp v s)) = pushed v s.
Proof.
  rewrite shapValues_run. unfold tableOrder, featureTable. cbn [flat_map].
  rewrite !filter_sort_unique by apply pushed_features_unique.
  unfold pushed. destruct (pain s), (breathless s); reflexivity.
Qed.

Lemma phiOf_nonempty name l :
  (exists t, In t l /\ feature t = name) <-> phiOf name l <> [].
Proof.
  unfold phiOf. split.
  - intros (t & Ht & Hn) E.
    assert (Hin : In t (filter (fun t => String.eqb (feature t) name) l)).
    { apply filter_In. split; [assumption|]. now apply String.eqb_eq. }
    destruct (filter _ l); [contradiction|discriminate].
  - intros H. destruct (filter _ l) as [|t k] eqn:E; [now elim H|].
    assert (Hin : In t (filter (fun t => String.eqb (feature t) name) l))
      by (rewrite E; now left).
    apply filter_In in Hin as [Ht Hn]. exists t. split; [assumption|].
    now apply String.eqb_eq.
Qed.

(** *** The claims on terms, lengths and the sensitivity figure *)


(** C2. The four vital-derived terms of the result carry the piecewise phi
    of the feature-term table: each of the four features occurs once, with
    the phi its rule gives. *)
Theorem vital_terms_phi exp v s :
  let r := shapValues (runXaiInference exp v s) in
  phiOf "Heart Rate" r
  = [if heartRate v >? 100 then (heartRate v - 100) * 0.009 else -0.04] /\
  phiOf "Blood Pressure" r
  = [if bloodPressure v <? 90 then (90 - bloodPressure v) * 0.015 else -0.02] /\
  phiOf "SpO2 Saturation" r
  = [if oxygen v <? 94 then (94 - oxygen v) * 0.05 else -0.09] /\
  phiOf "Infection Marker" r
  = [if infectionMarker v >? 3 then (infectionMarker v - 3) * 0.08 else -0.03].
Proof.
  intros r. unfold r. rewrite !phiOf_run. unfold pushed.
  destruct (pain s), (breathless s); repeat split; reflexivity.
Qed.

(** C3. The Pain Index term is in the result, with phi 0.14, exactly when
    [symptoms.pain] is true, and the Resp. Distress term, with phi 0.25,
    exactly when [symptoms.breathless] is true; a false flag leaves no term
    of that feature. *)
Theorem symptom_terms_iff_flags exp v s :
  let r := shapValues (runXaiInference exp v s) in
  phiOf "Pain Index" r = (if pain s then [0.14] else []) /\
  phiOf "Resp. Distress" r = (if breathless s then [0.25] else []) /\
  (pain s = true <-> exists t, In t r /\ feature t = "Pain Index") /\
  (breathless s = true <-> exists t, In t r /\ feature t = "Resp. Distress").
Proof.
  intros r.
  assert (Hp : phiOf "Pain Index" r = (if pain s then [0.14] else [])).
  { unfold r. rewrite phiOf_run. unfold pushed.
    destruct (pain s), (breathless s); reflexivity. }
  assert (Hb : phiOf "Resp. Distress" r = (if breathless s then [0.25] else [])).
  { unfold r. rewrite phiOf_run. unfold pushed.
    destruct (pain s), (breathless s); reflexivity. }
  repeat split; try assumption.
  - intros E. apply phiOf_nonempty. rewrite Hp, E. discriminate.
  - intros H. apply phiOf_nonempty in H. rewrite Hp in H.
    destruct (pain s); [reflexivity|now elim H].
  - intros E. apply phiOf_nonempty. rewrite Hb, E. discriminate.
  - intros H. apply phiOf_nonempty in H. rewrite Hb in H.
    destruct (breathless s); [reflexivity|now elim H].
Qed.

(** C4. The result holds the four vital-derived terms and one term per
    true symptom flag, and nothing else: its length is 4, 5 or 6. *)
Theorem contributions_length exp v s :
  let r := shapValues (runXaiInference exp v s) in
  Permutation (map feature r)
    (["Heart Rate"; "Blood Pressure"; "SpO2 Saturation"; "Infection Marker"]
     ++ (if pain s then ["Pain Index"] else [])
     ++ (if breathless s then ["Resp. Distress"] else [])) /\
  List.length r
  = (4 + (if pain s then 1 else 0) + (if breathless s then 1 else 0))%nat.
Proof.
  intros r. unfold r. rewrite shapValues_run. split.
  - rewrite <- (Permutation_map feature (sortByMagnitude_perm (pushed v s))).
    unfold pushed. destruct (pain s), (breathless s); reflexivity.
  - unfold sortByMagnitude. rewrite sort_length.
    unfold pushed. destruct (pain s), (breathless s); reflexivity.
Qed.

(** C6. The sensitivity figure is 0.009 when the heart rate exceeds 100 and
    0.002 otherwise, whatever the other vitals and the symptom flags. *)
Theorem limeSensitivity_by_heart_rate exp hr bp o2 temp inf s :
  limeSensitivity
    (runXaiInference exp
       {| heartRate := hr; bloodPressure := bp; oxygen := o2;
          temperature := temp; infectionMarker := inf |} s)
  = if hr >? 100 then 0.009 else 0.002.
Proof. apply limeSensitivity_run. Qed.

(** C9. Two snapshots that differ in the temperature only give the same
    result. *)
Theorem temperature_is_ignored exp hr bp o2 temp temp' inf s :
  runXaiInference exp
    {| heartRate := hr; bloodPressure := bp; oxygen := o2;
       temperature := temp; infectionMarker := inf |} s
  = runXaiInference exp
      {| heartRate := hr; bloodPressure := bp; oxygen := o2;
         temperature := temp'; infectionMarker := inf |} s.
Proof.
  unfold runXaiInference. cbn [heartRate bloodPressure oxygen infectionMarker].
  reflexivity.
Qed.

(** *** Order of the result *)

Lemma sortByMagnitude_swaps_asym (a b : ShapValue) :
  (compareFn a b >? 0) = true -> (compareFn b a >? 0) = false.
Proof. unfold compareFn. apply Float64Facts.sub_pos_asym. Qed.

Lemma hrWeight_not_nan v : is_nan (hrWeight v) = false.
Proof.
  unfold hrWeight. destruct (heartRate v >? 100) eqn:E; [|reflexivity].
  apply Float64Facts.mul_pos_not_nan; [|vm_compute; exact I].
  now apply Float64Facts.sub_pos_of_lt.
Qed.

Lemma bpWeight_not_nan v : is_nan (bpWeight v) = false.
Proof.
  unfold bpWeight. destruct (bloodPressure v <? 90) eqn:E; [|reflexivity].
  apply Float64Facts.mul_pos_not_nan; [|vm_compute; exact I].
  now apply Float64Facts.sub_pos_of_lt.
Qed.

Lemma o2Weight_not_nan v : is_nan (o2Weight v) = false.
Proof.
  unfold o2Weight. destruct (oxygen v <? 94) eqn:E; [|reflexivity].
  apply Float64Facts.mul_pos_not_nan; [|vm_compute; exact I].
  now apply Float64Facts.sub_pos_of_lt.
Qed.

Lemma infWeight_not_nan v : is_nan (infWeight v) = false.
Proof.
  unfold infWeight. destruct (infectionMarker v >? 3) eqn:E; [|reflexivity].
  apply Float64Facts.mul_pos_not_nan; [|vm_compute; exact I].
  now apply Float64Facts.sub_pos_of_lt.
Qed.

(** No phi is NaN, whatever the vitals: a comparison with NaN is false and
    selects the constant branch. *)
Lemma pushed_not_nan v s t : In t (pushed v s) -> is_nan (phi t) = false.
Proof.
  unfold pushed. intros H.
  destruct (pain s), (breathless s); simpl in H;
    repeat (destruct H as [<-|H]; [first
      [apply hrWeight_not_nan | apply bpWeight_not_nan | apply o2Weight_not_nan
      | apply infWeight_not_nan | reflexivity]|]);
    contradiction.
Qed.

Lemma sortByMagnitude_sorted l :
  (forall t, In t l -> is_nan (phi t) = false) ->
  StronglySorted (fun a b => (abs (phi b) <=? abs (phi a)) = true) (sortByMagnitude l).
Proof.
  intros Hnan. apply Sorted_StronglySorted.
  { intros a b c Hab Hbc. exact (Float64Facts.leb_trans _ _ _ Hbc Hab). }
  apply Sorted_impl with (R := fun a b => (compareFn a b >? 0) = false).
  2:{ apply sort_sorted. exact sortByMagnitude_swaps_asym. }
  intros a b Ha Hb Hab. unfold compareFn in Hab.
  apply sort_In in Ha, Hb.
  apply Float64Facts.leb_of_not_ltb.
  - rewrite Float64Facts.abs_is_nan. now apply Hnan.
  - rewrite Float64Facts.abs_is_nan. now apply Hnan.
  - destruct (abs (phi a) <? abs (phi b)) eqn:E; [|reflexivity].
    apply Float64Facts.sub_pos_of_lt in E. congruence.
Qed.

Lemma sortByMagnitude_stable a b l :
  precedes a b l -> abs (phi a) = abs (phi b) -> precedes a b (sortByMagnitude l).
Proof.
  intros H E. apply sort_stable; [assumption|].
  unfold compareFn. rewrite E. apply Float64Facts.sub_diag_not_pos.
Qed.

(** The pushes follow the feature table. *)
Lemma pushed_in_table_order v s a b :
  In a (pushed v s) -> In b (pushed v s) ->
  (featureRank (feature a) < featureRank (feature b))%nat ->
  precedes a b (pushed v s).
Proof.
  unfold pushed. intros Ha Hb Hlt.
  destruct (pain s), (breathless s); simpl in Ha, Hb |- *;
    repeat (destruct Ha as [<-|Ha]; [|]); try contradiction;
    repeat (destruct Hb as [<-|Hb]; [|]); try contradiction;
    vm_compute in Hlt; try lia;
    repeat first [apply precedes_here; simpl; tauto | apply precedes_later].
Qed.

(** C5. The result is in descending order of |phi|, and two terms of equal
    |phi| stand in the order of the feature table, which is the order in
    which they were pushed. *)
Theorem contributions_sorted_stable exp v s :
  let r := shapValues (runXaiInference exp v s) in
  StronglySorted (fun a b => (abs (phi b) <=? abs (phi a)) = true) r /\
  (forall a b, In a r -> In b r ->
     (featureRank (feature a) < featureRank (feature b))%nat ->
     abs (phi a) = abs (phi b) -> precedes a b r).
Proof.
  intros r. unfold r. rewrite shapValues_run. split.
  - apply sortByMagnitude_sorted. apply pushed_not_nan.
  - intros a b Ha Hb Hlt E. apply sortByMagnitude_stable; [|assumption].
    apply sort_In in Ha, Hb. now apply pushed_in_table_order.
Qed.

(** *** Concrete inputs *)

(** C8. On the dashboard's initial vitals with no symptom, the four terms
    are -0.04, -0.02, -0.09 and -0.03, all negative, their sum is -0.18, and
    the probability is exactly 0.5.  ECMAScript fixes [Math.exp(-0)] to 1. *)
Theorem resting_scenario exp :
  exp (-0) = 1 ->
  let r := runXaiInference exp
             {| heartRate := 80; bloodPressure := 120; oxygen := 98;
                temperature := 37; infectionMarker := 1 |}
             {| pain := false; breathless := false |} in
  map phi (tableOrder (shapValues r)) = [-0.04; -0.02; -0.09; -0.03] /\
  forallb (fun w => w <? 0) (map phi (shapValues r)) = true /\
  sumPhi (tableOrder (shapValues r)) = -0.18 /\
  probability r = 0.5.
Proof.
  intros H r. unfold r. rewrite tableOrder_run, shapValues_run, probability_run.
  repeat split; try (vm_compute; reflexivity).
  unfold sigmoid.
  change (- (sumPhi _ + 0.18)) with (-0).
  rewrite H. vm_compute. reflexivity.
Qed.

Lemma resting_scenario_witness :
  expReference (-0) = 1 /\
  probability
    (runXaiInference expReference
       {| heartRate := 80; bloodPressure := 120; oxygen := 98;
          temperature := 37; infectionMarker := 1 |}
       {| pain := false; breathless := false |}) = 0.5.
Proof.
  split; [vm_compute; reflexivity|].
  destruct (resting_scenario expReference) as (_ & _ & _ & H);
    [vm_compute; reflexivity|exact H].
Defined.

Lemma expReference_underflows : underflows expReference.
Proof.
  intros x Hx. left. unfold expReference. now rewrite Hx.
Qed.

Lemma expReference_conforming : conforming expReference.
Proof. split; vm_compute; reflexivity. Qed.

(** C7, as stated, fails: with a heart rate of one million the argument of
    [Math.exp] is about -8999, the exponential underflows, and the
    probability is exactly 1, outside the open interval. *)
Lemma probability_reaches_one :
  (forall exp, underflows exp ->
     probability
       (runXaiInference exp
          {| heartRate := 1000000; bloodPressure := 120; oxygen := 98;
             temperature := 37; infectionMarker := 1 |}
          {| pain := false; breathless := false |}) = 1) /\
  underflows expReference.
Proof.
  split; [|exact expReference_underflows].
  intros exp H. rewrite probability_run. unfold sigmoid.
  set (a := - (sumPhi _ + 0.18)). vm_compute in a.
  destruct (H a) as [E|E]; [reflexivity| |]; rewrite E; vm_compute; reflexivity.
Qed.

End Binary64Facts.

(** ** Bounds on binary64 arithmetic, on the specification *)

Module SF64RangeFacts.

Import SF64 SF64Facts SF64Range.
Open Scope Z_scope.

Lemma digits_le_of_lt m j : 0 <= j -> Zpos m < 2 ^ j -> Zpos (digits2_pos m) <= j.
Proof.
  intros Hj H. pose proof (digits2_pos_bounds m) as [Hlo _].
  assert (2 ^ (Zpos (digits2_pos m) - 1) < 2 ^ j) by lia.
  apply Z.pow_lt_mono_r_iff in H0; lia.
Qed.

Lemma digits_gt_of_le m j : 0 <= j -> 2 ^ j <= Zpos m -> j < Zpos (digits2_pos m).
Proof.
  intros Hj H. pose proof (digits2_pos_bounds m) as [_ Hhi].
  assert (2 ^ j < 2 ^ Zpos (digits2_pos m)) by lia.
  apply Z.pow_lt_mono_r_iff in H0; lia.
Qed.

Lemma Zdigits2_le_of_lt m j : 0 <= m -> 0 <= j -> m < 2 ^ j -> Zdigits2 m <= j.
Proof.
  intros Hm Hj H. destruct m as [|p|p]; simpl; try lia. now apply digits_le_of_lt.
Qed.

Lemma Zdigits2_le_of_le m j : 0 <= m -> 0 <= j -> m <= 2 ^ j -> Zdigits2 m <= j + 1.
Proof.
  intros Hm Hj H. apply Zdigits2_le_of_lt; [lia..|].
  rewrite Z.pow_add_r by lia. change (2 ^ 1) with 2.
  pose proof (Z.pow_pos_nonneg 2 j). lia.
Qed.

Lemma div_pow2_lt m a n : 0 <= n <= a -> m < 2 ^ a -> m / 2 ^ n < 2 ^ (a - n).
Proof.
  intros Hn H. apply Z.div_lt_upper_bound; [apply Z.pow_pos_nonneg; lia|].
  rewrite <- Z.pow_add_r by lia. now replace (n + (a - n)) with a by lia.
Qed.

Lemma div_pow2_le m a n : 0 <= n <= a -> m <= 2 ^ a -> m / 2 ^ n <= 2 ^ (a - n).
Proof.
  intros Hn H.
  assert (E : 2 ^ a = 2 ^ (a - n) * 2 ^ n) by (rewrite <- Z.pow_add_r by lia; f_equal; lia).
  rewrite <- (Z.div_mul (2 ^ (a - n)) (2 ^ n)) by (apply Z.pow_nonzero; lia).
  apply Z.div_le_mono; [apply Z.pow_pos_nonneg; lia|lia].
Qed.

Lemma div_pow2_ge m a n : 0 <= n <= a -> 2 ^ a <= m -> 2 ^ (a - n) <= m / 2 ^ n.
Proof.
  intros Hn H. apply Z.div_le_lower_bound; [apply Z.pow_pos_nonneg; lia|].
  rewrite <- Z.pow_add_r by lia. now replace (n + (a - n)) with a by lia.
Qed.

(** Upper bounds survive the shift to the working precision. *)
Lemma shr_fexp_lt m e l k :
  0 <= m -> e <= k -> emin <= k -> m < 2 ^ (k - e) ->
  shr_m (fst (shr_fexp prec emax m e l)) < 2 ^ (k - snd (shr_fexp prec emax m e l)) /\
  snd (shr_fexp prec emax m e l) <= k /\
  snd (shr_fexp prec emax m e l) <= Z.max e (Z.max (k - 53) emin).
Proof.
  intros Hm He Hk H.
  destruct (shr_fexp_spec m e l Hm) as [-> ->].
  pose proof (Zdigits2_le_of_lt m (k - e)) as D.
  rewrite fexp64_eq. change emin with (-1074) in *.
  set (n := Z.max _ 0).
  assert (Hn : 0 <= n <= k - e) by lia.
  split; [|lia].
  replace (k - (e + n)) with (k - e - n) by lia. now apply div_pow2_lt.
Qed.

Lemma shr_fexp_le m e l k :
  0 <= m -> e <= k -> emin <= k -> m <= 2 ^ (k - e) ->
  shr_m (fst (shr_fexp prec emax m e l)) <= 2 ^ (k - snd (shr_fexp prec emax m e l)) /\
  snd (shr_fexp prec emax m e l) <= k /\
  snd (shr_fexp prec emax m e l) <= Z.max e (Z.max (k - 52) emin).
Proof.
  intros Hm He Hk H.
  destruct (shr_fexp_spec m e l Hm) as [-> ->].
  pose proof (Zdigits2_le_of_le m (k - e)) as D.
  rewrite fexp64_eq. change emin with (-1074) in *.
  set (n := Z.max _ 0).
  assert (Hn : 0 <= n <= k - e) by lia.
  split; [|lia].
  replace (k - (e + n)) with (k - e - n) by lia. now apply div_pow2_le.
Qed.

Lemma round_nearest_even_le m l : round_nearest_even m l <= m + 1.
Proof.
  destruct l as [|[ | | ]]; simpl; try lia. destruct (Z.even m); lia.
Qed.

(** A number below [2^k] is rounded to a number that is at most [2^k]. *)
Lemma binary_round_aux_le_pow2 sx m e l k :
  0 <= m -> e <= k -> emin <= k <= 1023 -> e <= 971 -> m < 2 ^ (k - e) ->
  binary_round_aux prec emax sx m e l = S754_zero sx \/
  exists m' e', binary_round_aux prec emax sx m e l = S754_finite sx m' e' /\
                e' <= k /\ Zpos m' <= 2 ^ (k - e').
Proof.
  intros Hm He Hk He' H. unfold binary_round_aux.
  pose proof (shr_fexp_spec m e l Hm) as [S1 _].
  pose proof (shr_fexp_lt m e l k Hm He (proj1 Hk) H) as (B1 & B1e & B1e').
  destruct (shr_fexp prec emax m e l) as [r1 e1]. simpl fst in *. simpl snd in *.
  assert (H1 : 0 <= shr_m r1) by (rewrite S1; apply Z.div_pos; [lia|apply Z.pow_pos_nonneg; lia]).
  pose proof (round_nearest_even_ge (shr_m r1) (loc_of_shr_record r1)) as Rg.
  pose proof (round_nearest_even_le (shr_m r1) (loc_of_shr_record r1)) as Rl.
  set (m1 := round_nearest_even _ _) in *.
  pose proof (shr_fexp_spec m1 e1 loc_Exact) as [S2 _]; [lia|].
  pose proof (shr_fexp_le m1 e1 loc_Exact k) as (B2 & B2e & B2e'); [lia..|].
  destruct (shr_fexp prec emax m1 e1 loc_Exact) as [r2 e2]. simpl fst in *. simpl snd in *.
  assert (H2 : 0 <= shr_m r2) by (rewrite S2; apply Z.div_pos; [lia|apply Z.pow_pos_nonneg; lia]).
  destruct (shr_m r2) as [|p|p] eqn:E; [now left| |lia].
  right. exists p, e2. change emin with (-1074) in *.
  replace (e2 <=? emax - prec) with true
    by (symmetry; apply Z.leb_le; change (emax - prec) with 971; lia).
  auto.
Qed.

Lemma binary_round_le_pow2 sx m e k :
  e <= k -> emin <= k <= 1023 -> Zpos m < 2 ^ (k - e) ->
  binary_round prec emax sx m e = S754_zero sx \/
  exists m' e', binary_round prec emax sx m e = S754_finite sx m' e' /\
                e' <= k /\ Zpos m' <= 2 ^ (k - e').
Proof.
  intros He Hk H. unfold binary_round.
  pose proof (digits_le_of_lt m (k - e)) as D.
  destruct (Z_le_gt_dec e (fexp prec emax (Zpos (digits2_pos m) + e))) as [Hle|Hgt].
  - rewrite shl_align_ge by assumption.
    rewrite fexp64_eq in Hle. change emin with (-1074) in *.
    apply binary_round_aux_le_pow2; try (change emin with (-1074); lia).
  - pose proof (shl_align_spec m e (fexp prec emax (Zpos (digits2_pos m) + e))) as [Hm Hs]; [lia|].
    destruct (shl_align m e _) as [mz ez]. simpl fst in Hm. simpl snd in Hs. subst ez.
    rewrite fexp64_eq in *. change emin with (-1074) in *.
    set (t := Z.max _ _) in *.
    apply binary_round_aux_le_pow2; try (change emin with (-1074); lia).
    rewrite Hm. replace (k - t) with ((k - e) + (e - t)) by lia.
    rewrite Z.pow_add_r by lia.
    apply Z.mul_lt_mono_pos_r; [apply Z.pow_pos_nonneg; lia|assumption].
Qed.

(** Lower bounds by a power of two survive rounding as well. *)
Lemma shr_fexp_ge m e l k :
  0 < m -> emin <= e -> (e <= k -> 2 ^ (k - e) <= m) ->
  (snd (shr_fexp prec emax m e l) <= k ->
   2 ^ (k - snd (shr_fexp prec emax m e l)) <= shr_m (fst (shr_fexp prec emax m e l))).
Proof.
  intros Hm He H.
  destruct (shr_fexp_spec m e l) as [-> ->]; [lia|].
  set (n := Z.max _ 0). intros Hk.
  assert (Hn : 0 <= n <= k - e) by lia.
  replace (k - (e + n)) with (k - e - n) by lia. apply div_pow2_ge; [assumption|].
  apply H. lia.
Qed.

Lemma binary_round_aux_ge_pow2 sx m e l k :
  0 < m -> emin <= e -> (e <= k -> 2 ^ (k - e) <= m) ->
  binary_round_aux prec emax sx m e l = S754_infinity sx \/
  exists m' e', binary_round_aux prec emax sx m e l = S754_finite sx m' e' /\
                (e' <= k -> 2 ^ (k - e') <= Zpos m').
Proof.
  intros Hm He H. unfold binary_round_aux.
  pose proof (shr_fexp_pos m e l Hm He) as [P1 P1e].
  pose proof (shr_fexp_ge m e l k Hm He H) as G1.
  destruct (shr_fexp prec emax m e l) as [r1 e1]. simpl fst in *. simpl snd in *.
  pose proof (round_nearest_even_ge (shr_m r1) (loc_of_shr_record r1)) as Rg.
  set (m1 := round_nearest_even _ _) in *.
  pose proof (shr_fexp_pos m1 e1 loc_Exact) as [P2 _]; [lia..|].
  pose proof (shr_fexp_ge m1 e1 loc_Exact k) as G2.
  destruct (shr_fexp prec emax m1 e1 loc_Exact) as [r2 e2]. simpl fst in *. simpl snd in *.
  destruct (shr_m r2) as [|p|p] eqn:E; [lia| |lia].
  destruct (e2 <=? emax - prec); [right|now left].
  exists p, e2. split; [reflexivity|]. apply G2; lia.
Qed.

Lemma binary_round_ge_pow2 sx m e k :
  emin <= e -> (e <= k -> 2 ^ (k - e) <= Zpos m) ->
  binary_round prec emax sx m e = S754_infinity sx \/
  exists m' e', binary_round prec emax sx m e = S754_finite sx m' e' /\
                (e' <= k -> 2 ^ (k - e') <= Zpos m').
Proof.
  intros He H. unfold binary_round.
  destruct (Z_le_gt_dec e (fexp prec emax (Zpos (digits2_pos m) + e))) as [Hle|Hgt].
  - rewrite shl_align_ge by assumption.
    apply binary_round_aux_ge_pow2; [lia|assumption|assumption].
  - pose proof (shl_align_spec m e (fexp prec emax (Zpos (digits2_pos m) + e))) as [Hm Hs]; [lia|].
    destruct (shl_align m e _) as [mz ez]. simpl fst in Hm. simpl snd in Hs. subst ez.
    rewrite fexp64_eq in *. change emin with (-1074) in *.
    set (t := Z.max _ _) in *.
    apply binary_round_aux_ge_pow2; try (change emin with (-1074); lia).
    intros Ht. rewrite Hm.
    pose proof (Z.pow_pos_nonneg 2 (e - t)).
    destruct (Z_le_gt_dec e k) as [Hek|Hek].
    + replace (k - t) with ((k - e) + (e - t)) by lia.
      rewrite Z.pow_add_r by lia.
      apply Z.mul_le_mono_nonneg_r; [lia|now apply H].
    + assert (2 ^ (k - t) <= 2 ^ (e - t)) by (apply Z.pow_le_mono_r; lia).
      nia.
Qed.

Lemma SFadd_finite sx mx ex sy my ey :
  SF64add (S754_finite sx mx ex) (S754_finite sy my ey)
  = binary_normalize prec emax
      (cond_Zopp sx (Zpos mx * 2 ^ (ex - Z.min ex ey))
       + cond_Zopp sy (Zpos my * 2 ^ (ey - Z.min ex ey)))
      (Z.min ex ey) false.
Proof.
  unfold SF64add, SFadd.
  destruct (shl_align_spec mx ex (Z.min ex ey)) as [-> _]; [lia|].
  destruct (shl_align_spec my ey (Z.min ex ey)) as [-> _]; [lia|].
  reflexivity.
Qed.

Lemma pow2_52 : 2 ^ 52 = 4503599627370496.
Proof. vm_compute. reflexivity. Qed.

Lemma SFcompare_finite_pos m1 e1 m2 e2 :
  SFcompare (S754_finite false m1 e1) (S754_finite false m2 e2)
  = Some match e1 ?= e2 with
         | Lt => Lt
         | Gt => Gt
         | Eq => Zpos m1 ?= Zpos m2
         end.
Proof. reflexivity. Qed.

Lemma SFleb_one_of_at_least_one f :
  valid_binary f = true -> at_least_one f -> SFleb SFone f = true.
Proof.
  intros V [->|(m & e & -> & H)]; [reflexivity|].
  apply valid_finite in V. destruct V as (Ve & Vd & Vn).
  pose proof (digits2_pos_bounds m) as [_ Hhi].
  unfold SFleb, SFone. rewrite SFcompare_finite_pos.
  destruct (Z.compare_spec (-52) e) as [E|Hlt|Hgt]; try reflexivity.
  - subst e. specialize (H ltac:(clear; lia)).
    replace (0 - -52) with 52 in H by (clear; lia). rewrite pow2_52 in H.
    destruct (Z.compare_spec 4503599627370496 (Zpos m)) as [E|E|E]; try reflexivity.
    lia.
  - exfalso. specialize (H ltac:(lia)).
    assert (2 ^ 53 <= 2 ^ (0 - e)) by (apply Z.pow_le_mono_r; lia).
    assert (2 ^ Zpos (digits2_pos m) <= 2 ^ 53) by (apply Z.pow_le_mono_r; lia).
    lia.
Qed.

Lemma SFleb_one_of_at_most_one f :
  valid_binary f = true -> at_most_one f -> SFleb f SFone = true.
Proof.
  intros V [[s ->]|(m & e & -> & He & H)]; [reflexivity|].
  apply valid_finite in V. destruct V as (Ve & Vd & Vn).
  pose proof (digits2_pos_bounds m) as [Hlo _].
  unfold SFleb, SFone. rewrite SFcompare_finite_pos.
  destruct (Z.compare_spec e (-52)) as [E|Hlt|Hgt]; try reflexivity.
  - subst e. replace (0 - -52) with 52 in H by (clear; lia). rewrite pow2_52 in H.
    destruct (Z.compare_spec (Zpos m) 4503599627370496) as [E|E|E]; try reflexivity.
    lia.
  - exfalso.
    assert (D : Zpos (digits2_pos m) = 53) by (unfold SpecFloat.emin, emax, prec in Vn; lia).
    rewrite D in Hlo.
    assert (2 ^ (0 - e) < 2 ^ (53 - 1)) by (apply Z.pow_lt_mono_r; lia).
    lia.
Qed.

Lemma nonneg_spec f : SFleb (S754_zero false) f = true <-> nonneg f.
Proof.
  destruct f as [s|[|]| |[|] m e]; simpl; unfold SFleb; simpl; split; try easy.
Qed.

(** [1 + e >= 1] for a non-negative [e]. *)
Lemma SFadd_one_at_least_one f :
  valid_binary f = true -> nonneg f -> at_least_one (SF64add SFone f).
Proof.
  intros V N. destruct f as [s|[|]| |[|] m e]; try contradiction.
  - right. exists 4503599627370496%positive, (-52). split; [reflexivity|].
    intros _. reflexivity.
  - now left.
  - unfold SFone. rewrite SFadd_finite. unfold cond_Zopp.
    apply valid_finite in V. destruct V as (Ve & _).
    pose proof (Z.pow_pos_nonneg 2 (-52 - Z.min (-52) e)) as P1.
    pose proof (Z.pow_pos_nonneg 2 (e - Z.min (-52) e)) as P2.
    set (M := _ + _).
    assert (HM : 2 ^ (0 - Z.min (-52) e) <= M).
    { unfold M. replace (0 - Z.min (-52) e) with (52 + (-52 - Z.min (-52) e)) by lia.
      rewrite Z.pow_add_r by lia. change (2 ^ 52) with 4503599627370496. nia. }
    assert (0 < M) by (pose proof (Z.pow_pos_nonneg 2 (0 - Z.min (-52) e)); lia).
    destruct M as [|p|p]; try lia. simpl binary_normalize.
    change emin with (-1074) in *.
    destruct (binary_round_ge_pow2 false p (Z.min (-52) e) 0) as [E|(m' & e' & E & B)];
      [change emin with (-1074); lia|intros _; exact HM| |].
    + left. exact E.
    + right. exists m', e'. now split.
Qed.

(** *** Division of 1 by a number above 1 *)

Lemma SFdiv_core_binary_spec m1 e1 m2 e2 :
  let e' := Z.min (fexp prec emax (Zdigits2 m1 + e1 - (Zdigits2 m2 + e2))) (e1 - e2) in
  let m' := m1 * 2 ^ (e1 - e2 - e') in
  SFdiv_core_binary prec emax m1 e1 m2 e2
  = (m' / m2, e', new_location m2 (m' mod m2)).
Proof.
  intros e' m'. unfold SFdiv_core_binary. fold e'.
  assert (Hs : 0 <= e1 - e2 - e') by (unfold e'; lia).
  assert (E : match e1 - e2 - e' with
              | Z0 => m1
              | Zpos _ => Z.shiftl m1 (e1 - e2 - e')
              | Zneg _ => 0
              end = m').
  { unfold m'. destruct (e1 - e2 - e') as [|p|p] eqn:Es.
    - rewrite Z.pow_0_r. lia.
    - rewrite Z.shiftl_mul_pow2 by lia. reflexivity.
    - lia. }
  rewrite E. unfold Z.div, Z.modulo.
  destruct (Z.div_eucl m' m2) as [q r]. reflexivity.
Qed.

Lemma Zdigits2_one_mantissa : Zdigits2 4503599627370496 = 53.
Proof. vm_compute. reflexivity. Qed.

Lemma valid_finite_exponent s m e :
  valid_binary (S754_finite s m e) = true -> e <= 971.
Proof.
  unfold SpecFloat.valid_binary, SpecFloat.bounded. rewrite andb_true_iff, Z.leb_le.
  unfold emax, prec. lia.
Qed.

Lemma SFdiv_one_at_most_one m e :
  valid_binary (S754_finite false m e) = true ->
  -52 < e \/ (e = -52 /\ 2 ^ 52 < Zpos m) ->
  at_most_one (SF64div SFone (S754_finite false m e)).
Proof.
  intros V Hgt. unfold SF64div, SFdiv, SFone. cbn [xorb].
  rewrite SFdiv_core_binary_spec. rewrite Zdigits2_one_mantissa.
  pose proof (valid_finite_exponent _ _ _ V) as Vx.
  apply valid_finite in V. destruct V as (Ve & Vd & Vn).
  pose proof (digits2_pos_bounds m) as [Hlo Hhi].
  assert (He : -52 <= e) by lia.
  assert (D : Zpos (digits2_pos m) = 53) by (unfold SpecFloat.emin, emax, prec in Vn; lia).
  rewrite D in Hlo. simpl Zdigits2. rewrite D. rewrite fexp64_eq.
  set (e' := Z.min _ _).
  assert (He' : e' <= -52 - e) by (unfold e'; clear; lia).
  assert (He'' : -1074 <= e') by (unfold e'; clear - He Vx; lia).
  set (m' := _ * 2 ^ _).
  assert (Hm' : m' = 2 ^ (- e - e')).
  { unfold m'. rewrite <- pow2_52, <- Z.pow_add_r by lia. f_equal. lia. }
  assert (Hq : 0 <= m' / Zpos m).
  { apply Z.div_pos; [|lia]. rewrite Hm'. apply Z.pow_nonneg. lia. }
  assert (Hlt : m' / Zpos m < 2 ^ (0 - e')).
  { apply Z.div_lt_upper_bound; [lia|]. rewrite Hm'.
    pose proof (Z.pow_pos_nonneg 2 (0 - e')) as P.
    destruct (Z_le_gt_dec e 0) as [H0|H0].
    - replace (- e - e') with (- e + (0 - e')) by lia.
      rewrite Z.pow_add_r by lia.
      apply Z.mul_lt_mono_pos_r; [lia|].
      destruct Hgt as [Hgt|[-> Hgt]]; [|exact Hgt].
      assert (2 ^ (- e) < 2 ^ (53 - 1)) by (apply Z.pow_lt_mono_r; lia). lia.
    - assert (2 ^ (- e - e') < 2 ^ (0 - e')) by (apply Z.pow_lt_mono_r; lia).
      nia. }
  destruct (binary_round_aux_le_pow2 false (m' / Zpos m) e'
              (new_location (Zpos m) (m' mod Zpos m)) 0)
    as [E|(m2 & e2 & E & B1 & B2)]; try (unfold SpecFloat.emin, emax, prec; lia); try lia.
  - left. exists false. exact E.
  - right. exists m2, e2. auto.
Qed.

(** *** Sums that stay away from [-infinity] *)

Lemma aboveb_mono k k' f : k <= k' -> aboveb k f = true -> aboveb k' f = true.
Proof.
  intros Hk. destruct f as [s|s| |[|] m e]; cbn [aboveb]; auto.
  rewrite !Z.leb_le. lia.
Qed.

Lemma aboveb_not_nan k f : aboveb k f = true -> f <> S754_nan.
Proof. destruct f; simpl; congruence. Qed.

Lemma aligned_lt_pow2 m e ez k :
  ez <= e -> Zpos (digits2_pos m) + e <= k ->
  Zpos m * 2 ^ (e - ez) < 2 ^ (k - ez).
Proof.
  intros He Hk. pose proof (digits2_pos_bounds m) as [_ Hhi].
  assert (2 ^ Zpos (digits2_pos m) <= 2 ^ (k - e)) by (apply Z.pow_le_mono_r; lia).
  replace (k - ez) with ((k - e) + (e - ez)) by lia. rewrite Z.pow_add_r by lia.
  apply Z.mul_lt_mono_pos_r; [apply Z.pow_pos_nonneg; lia|lia].
Qed.

Lemma binary_round_above s m e k :
  e <= k -> emin <= k <= 1022 -> Zpos m < 2 ^ (k + 1 - e) ->
  aboveb (k + 2) (binary_round prec emax s m e) = true.
Proof.
  intros He Hk H.
  destruct (binary_round_le_pow2 s m e (k + 1)) as [E|(m' & e' & E & B1 & B2)];
    try (unfold SpecFloat.emin, emax, prec in *; lia); rewrite E; [reflexivity|].
  cbn [aboveb]. destruct s; [|reflexivity]. apply Z.leb_le.
  pose proof (Zdigits2_le_of_le (Zpos m') (k + 1 - e')) as D.
  change (Zdigits2 (Zpos m')) with (Zpos (digits2_pos m')) in D. lia.
Qed.

Lemma SFadd_above k x y :
  valid_binary x = true -> valid_binary y = true -> emin <= k <= 1022 ->
  aboveb k x = true -> aboveb k y = true -> aboveb (k + 2) (SF64add x y) = true.
Proof.
  intros Vx Vy Hk Ax Ay.
  destruct x as [sx|sx| |sx mx ex], y as [sy|sy| |sy my ey];
    try discriminate;
    try (destruct sx; try discriminate);
    try (destruct sy; try discriminate);
    try reflexivity;
    try (revert Ax; apply aboveb_mono; lia);
    try (revert Ay; apply aboveb_mono; lia).
  all: rewrite SFadd_finite; unfold cond_Zopp.
  all: pose proof (valid_finite _ _ _ Vx) as (Vex & _ & _).
  all: pose proof (valid_finite _ _ _ Vy) as (Vey & _ & _).
  all: pose proof (Z.pow_pos_nonneg 2 (ex - Z.min ex ey)) as Px.
  all: pose proof (Z.pow_pos_nonneg 2 (ey - Z.min ex ey)) as Py.
  all: cbn [aboveb] in Ax, Ay; try rewrite Z.leb_le in Ax; try rewrite Z.leb_le in Ay.
  all: remember (k + 2) as k2 eqn:Ek2.
  - (* both negative *)
    pose proof (aligned_lt_pow2 mx ex (Z.min ex ey) k) as Bx.
    pose proof (aligned_lt_pow2 my ey (Z.min ex ey) k) as By.
    set (M := _ + _).
    assert (HM : 0 < - M < 2 ^ (k + 1 - Z.min ex ey)).
    { unfold M. replace (k + 1 - Z.min ex ey) with (1 + (k - Z.min ex ey)) by lia.
      rewrite Z.pow_add_r by lia. change (2 ^ 1) with 2. lia. }
    destruct M as [|p|p]; try lia. simpl binary_normalize.
    subst k2. apply binary_round_above; lia.
  - (* x negative, y positive *)
    pose proof (aligned_lt_pow2 mx ex (Z.min ex ey) k) as Bx.
    set (M := _ + _).
    assert (HM : - M < 2 ^ (k + 1 - Z.min ex ey)).
    { unfold M. replace (k + 1 - Z.min ex ey) with (1 + (k - Z.min ex ey)) by lia.
      rewrite Z.pow_add_r by lia. change (2 ^ 1) with 2. lia. }
    destruct M as [|p|p]; simpl binary_normalize.
    + reflexivity.
    + destruct (binary_round_cases false p (Z.min ex ey)) as [E|[(m' & e' & E)|E]];
        rewrite E; reflexivity.
    + subst k2. apply binary_round_above; lia.
  - (* x positive, y negative *)
    pose proof (aligned_lt_pow2 my ey (Z.min ex ey) k) as By.
    set (M := _ + _).
    assert (HM : - M < 2 ^ (k + 1 - Z.min ex ey)).
    { unfold M. replace (k + 1 - Z.min ex ey) with (1 + (k - Z.min ex ey)) by lia.
      rewrite Z.pow_add_r by lia. change (2 ^ 1) with 2. lia. }
    destruct M as [|p|p]; simpl binary_normalize.
    + reflexivity.
    + destruct (binary_round_cases false p (Z.min ex ey)) as [E|[(m' & e' & E)|E]];
        rewrite E; reflexivity.
    + subst k2. apply binary_round_above; lia.
  - (* both positive *)
    set (M := _ + _).
    assert (HM : 0 < M) by (unfold M; lia).
    destruct M as [|p|p]; try lia. simpl binary_normalize.
    destruct (binary_round_cases false p (Z.min ex ey)) as [E|[(m' & e' & E)|E]];
      rewrite E; reflexivity.
Qed.

End SF64RangeFacts.

(** ** Bounds on binary64 arithmetic, on the primitive numbers *)

Module Float64RangeFacts.

Import SF64 SF64Facts SF64Range SF64RangeFacts.
Import JsArray JsArrayFacts.
Open Scope float_scope.

Lemma Prim2SF_one : Prim2SF 1 = SFone.
Proof. vm_compute. reflexivity. Qed.

Lemma leb_zero_spec f : (0 <=? f) = true <-> nonneg (Prim2SF f).
Proof.
  rewrite leb_spec. change (Prim2SF 0) with (S754_zero false). apply nonneg_spec.
Qed.

Lemma one_add_ge e : (0 <=? e) = true -> (1 <=? 1 + e) = true.
Proof.
  rewrite leb_zero_spec. intros N.
  rewrite leb_spec, add_spec, Prim2SF_one.
  apply SFleb_one_of_at_least_one.
  - rewrite <- Prim2SF_one, <- add_spec. apply Prim2SF_valid.
  - apply SFadd_one_at_least_one; [apply Prim2SF_valid|assumption].
Qed.

Lemma one_div_unit z :
  (1 <=? z) = true -> (0 <=? 1 / z) = true /\ (1 / z <=? 1) = true.
Proof.
  intros H.
  assert (B : at_most_one (Prim2SF (1 / z))).
  { rewrite leb_spec, Prim2SF_one in H.
    pose proof (Prim2SF_valid z) as V.
    rewrite div_spec, Prim2SF_one.
    destruct (Prim2SF z) as [sz|[|]| |[|] m e] eqn:E; try discriminate H.
    - left. exists false. reflexivity.
    - unfold SFleb, SFone in H. rewrite SFcompare_finite_pos in H.
      destruct (Z.compare_spec (-52) e) as [He|He|He]; try discriminate H.
      + subst e.
        destruct (Z.compare_spec 4503599627370496 (Zpos m)) as [Hm|Hm|Hm];
          try discriminate H.
        * (* z = 1 *)
          injection Hm as <-.
          right. exists 4503599627370496%positive, (-52)%Z.
          split; [vm_compute; reflexivity|]. split; [lia|].
          rewrite <- pow2_52. apply Z.pow_le_mono_r; lia.
        * apply SFdiv_one_at_most_one; [exact V|]. right. split; [reflexivity|].
          rewrite pow2_52. exact Hm.
      + apply SFdiv_one_at_most_one; [exact V|]. now left. }
  split.
  - apply leb_zero_spec. destruct B as [[s ->]|(m & e & -> & _)]; exact I.
  - rewrite leb_spec, Prim2SF_one. apply SFleb_one_of_at_most_one; [apply Prim2SF_valid|exact B].
Qed.

Lemma add_above k x y :
  (-1074 <= k <= 1022)%Z ->
  aboveb k (Prim2SF x) = true -> aboveb k (Prim2SF y) = true ->
  aboveb (k + 2) (Prim2SF (x + y)) = true.
Proof.
  intros Hk Ax Ay. rewrite add_spec.
  apply SFadd_above; try apply Prim2SF_valid; assumption.
Qed.

Lemma mul_pos_above k x y :
  (0 <? x) = true ->
  match Prim2SF y with S754_finite false _ _ => True | _ => False end ->
  aboveb k (Prim2SF (x * y)) = true.
Proof.
  rewrite Float64Facts.gtb_zero_spec, mul_spec. unfold SF64mul.
  destruct (Prim2SF x) as [sx|[|]| |[|] mx ex]; try discriminate; intros _;
    destruct (Prim2SF y) as [sy|sy| |[|] my ey]; try contradiction; intros _.
  - reflexivity.
  - cbn [SFmul xorb].
    destruct (binary_round_aux_cases false (Zpos (mx * my)) (ex + ey) loc_Exact)
      as [E|[(m' & e' & E)|E]]; [lia|rewrite E; reflexivity..].
Qed.


(** Adding a term that is above [-2^-3] to a sum that is above [-2^k]. *)
Lemma add_term_above k x y :
  (-3 <= k <= 1022)%Z ->
  aboveb k (Prim2SF x) = true -> aboveb (-3) (Prim2SF y) = true ->
  aboveb (k + 2) (Prim2SF (x + y)) = true.
Proof.
  intros Hk Ax Ay. apply add_above; [lia|assumption|].
  revert Ay. apply aboveb_mono. lia.
Qed.

Lemma opp_is_nan x : is_nan (- x) = is_nan x.
Proof.
  apply eq_true_iff_eq. rewrite !Float64Facts.is_nan_spec, opp_spec.
  destruct (Prim2SF x); simpl; split; congruence.
Qed.

Lemma mul_pos_not_neg x y :
  (0 <? x) = true ->
  match Prim2SF y with S754_finite false _ _ => True | _ => False end ->
  (x * y <? 0) = false.
Proof.
  rewrite Float64Facts.gtb_zero_spec, ltb_spec, mul_spec. unfold SF64mul.
  change (Prim2SF 0) with (S754_zero false).
  destruct (Prim2SF x) as [sx|[|]| |[|] mx ex]; try discriminate; intros _;
    destruct (Prim2SF y) as [sy|sy| |[|] my ey]; try contradiction; intros _.
  - reflexivity.
  - cbn [SFmul xorb].
    destruct (binary_round_aux_cases false (Zpos (mx * my)) (ex + ey) loc_Exact)
      as [E|[(m' & e' & E)|E]]; [lia|rewrite E; reflexivity..].
Qed.

(** Sorting by a key that is never NaN, with the comparator
    [(a, b) => key(b) - key(a)], puts the keys in descending order. *)
Lemma sort_by_key_descending {A : Type} (key : A -> float) (l : list A) :
  (forall a, is_nan (key a) = false) ->
  StronglySorted (fun a b => (key b <=? key a) = true)
    (sort (fun a b => 0 <? key b - key a) l).
Proof.
  intros Hnan. apply Sorted_StronglySorted.
  { intros a b c Hab Hbc. exact (Float64Facts.leb_trans _ _ _ Hbc Hab). }
  apply Sorted_impl with (R := fun a b => (0 <? key b - key a) = false).
  2:{ apply sort_sorted. intros a b. apply Float64Facts.sub_pos_asym. }
  intros a b _ _ Hab.
  apply Float64Facts.leb_of_not_ltb; try apply Hnan.
  destruct (key a <? key b) eqn:E; [|reflexivity].
  apply Float64Facts.sub_pos_of_lt in E. congruence.
Qed.

End Float64RangeFacts.

(** ** The engine over binary64: further properties *)

Module EngineFacts.

Import JsArray JsArrayFacts SF64Range SF64RangeFacts Float64RangeFacts.
Import Binary64 Binary64Facts Binary64Exp.
Open Scope string_scope.
Open Scope float_scope.

(** *** The probability is a number between 0 and 1 *)

Lemma hrWeight_above v : aboveb (-3) (Prim2SF (hrWeight v)) = true.
Proof.
  unfold hrWeight. destruct (heartRate v >? 100) eqn:E; [|vm_compute; reflexivity].
  apply mul_pos_above; [|vm_compute; exact I].
  now apply Float64Facts.sub_pos_of_lt.
Qed.

Lemma bpWeight_above v : aboveb (-3) (Prim2SF (bpWeight v)) = true.
Proof.
  unfold bpWeight. destruct (bloodPressure v <? 90) eqn:E; [|vm_compute; reflexivity].
  apply mul_pos_above; [|vm_compute; exact I].
  now apply Float64Facts.sub_pos_of_lt.
Qed.

Lemma o2Weight_above v : aboveb (-3) (Prim2SF (o2Weight v)) = true.
Proof.
  unfold o2Weight. destruct (oxygen v <? 94) eqn:E; [|vm_compute; reflexivity].
  apply mul_pos_above; [|vm_compute; exact I].
  now apply Float64Facts.sub_pos_of_lt.
Qed.

Lemma infWeight_above v : aboveb (-3) (Prim2SF (infWeight v)) = true.
Proof.
  unfold infWeight. destruct (infectionMarker v >? 3) eqn:E; [|vm_compute; reflexivity].
  apply mul_pos_above; [|vm_compute; exact I].
  now apply Float64Facts.sub_pos_of_lt.
Qed.

(** The argument of the sigmoid is never NaN. *)
Lemma logOdds_above v s :
  aboveb 11 (Prim2SF (sumPhi (pushed v s) + 0.18)) = true.
Proof.
  pose proof (hrWeight_above v) as Hh. pose proof (bpWeight_above v) as Hb.
  pose proof (o2Weight_above v) as Ho. pose proof (infWeight_above v) as Hi.
  assert (H4 : aboveb 5 (Prim2SF (0 + hrWeight v + bpWeight v + o2Weight v + infWeight v)) = true).
  { apply (add_term_above 3); [lia| |assumption].
    apply (add_term_above 1); [lia| |assumption].
    apply (add_term_above (-1)); [lia| |assumption].
    apply (add_term_above (-3)); [lia|vm_compute; reflexivity|assumption]. }
  unfold pushed, sumPhi.
  destruct (pain s), (breathless s); cbn [app fold_left phi vitalTerm].
  - apply (add_term_above 9); [lia| |vm_compute; reflexivity].
    apply (add_term_above 7); [lia| |vm_compute; reflexivity].
    apply (add_term_above 5); [lia|assumption|vm_compute; reflexivity].
  - apply (aboveb_mono 9); [lia|].
    apply (add_term_above 7); [lia| |vm_compute; reflexivity].
    apply (add_term_above 5); [lia|assumption|vm_compute; reflexivity].
  - apply (aboveb_mono 9); [lia|].
    apply (add_term_above 7); [lia| |vm_compute; reflexivity].
    apply (add_term_above 5); [lia|assumption|vm_compute; reflexivity].
  - apply (aboveb_mono 7); [lia|].
    apply (add_term_above 5); [lia|assumption|vm_compute; reflexivity].
Qed.

(** The probability returned is a number of the closed interval [0,1],
    for all vitals, NaN and infinities included, as soon as [Math.exp]
    returns a non-negative number on every argument that is a number. *)
Theorem probability_in_unit_interval exp v s :
  (forall x, is_nan x = false -> (0 <=? exp x) = true) ->
  let p := probability (runXaiInference exp v s) in
  (0 <=? p) = true /\ (p <=? 1) = true.
Proof.
  intros H p. unfold p. rewrite probability_run. unfold sigmoid.
  apply one_div_unit, one_add_ge, H.
  rewrite opp_is_nan. apply Float64Facts.is_nan_false.
  apply (aboveb_not_nan 11), logOdds_above.
Qed.

Lemma expGuarded_nonneg x : is_nan x = false -> (0 <=? expGuarded x) = true.
Proof.
  intros H. unfold expGuarded. rewrite H.
  destruct (0 <=? expReference x) eqn:E; [exact E|reflexivity].
Qed.

Lemma probability_in_unit_interval_witness :
  (forall x, is_nan x = false -> (0 <=? expGuarded x) = true) /\
  (0 <=? probability
           (runXaiInference expGuarded
              {| heartRate := 130; bloodPressure := 80; oxygen := 90;
                 temperature := 37; infectionMarker := 5 |}
              {| pain := true; breathless := true |})) = true /\
  (probability
     (runXaiInference expGuarded
        {| heartRate := 130; bloodPressure := 80; oxygen := 90;
           temperature := 37; infectionMarker := 5 |}
        {| pain := true; breathless := true |}) <=? 1) = true.
Proof.
  split; [exact expGuarded_nonneg|].
  apply (probability_in_unit_interval expGuarded). exact expGuarded_nonneg.
Defined.

(** *** The terms *)

(** The colour of every term of the result follows the sign of its phi:
    red for a positive phi, green otherwise. *)
Theorem color_follows_sign exp v s :
  Forall (fun t => color t
                   = if phi t >? 0 then "text-red-500" else "text-emerald-500")
    (shapValues (runXaiInference exp v s)).
Proof.
  rewrite shapValues_run.
  eapply Permutation_Forall; [apply sortByMagnitude_perm|].
  unfold pushed. destruct (pain s), (breathless s); repeat constructor.
Qed.

Lemma hrWeight_sign v : (hrWeight v <? 0) = true -> hrWeight v = -0.04.
Proof.
  unfold hrWeight. destruct (heartRate v >? 100) eqn:E; [|reflexivity].
  rewrite mul_pos_not_neg; [discriminate| |vm_compute; exact I].
  now apply Float64Facts.sub_pos_of_lt.
Qed.

Lemma bpWeight_sign v : (bpWeight v <? 0) = true -> bpWeight v = -0.02.
Proof.
  unfold bpWeight. destruct (bloodPressure v <? 90) eqn:E; [|reflexivity].
  rewrite mul_pos_not_neg; [discriminate| |vm_compute; exact I].
  now apply Float64Facts.sub_pos_of_lt.
Qed.

Lemma o2Weight_sign v : (o2Weight v <? 0) = true -> o2Weight v = -0.09.
Proof.
  unfold o2Weight. destruct (oxygen v <? 94) eqn:E; [|reflexivity].
  rewrite mul_pos_not_neg; [discriminate| |vm_compute; exact I].
  now apply Float64Facts.sub_pos_of_lt.
Qed.

Lemma infWeight_sign v : (infWeight v <? 0) = true -> infWeight v = -0.03.
Proof.
  unfold infWeight. destruct (infectionMarker v >? 3) eqn:E; [|reflexivity].
  rewrite mul_pos_not_neg; [discriminate| |vm_compute; exact I].
  now apply Float64Facts.sub_pos_of_lt.
Qed.

(** No phi of the result is NaN, whatever the vitals (NaN and infinities
    included), and a negative phi is one of the four constants of the
    normal branches: the scaled branches never give a negative phi. *)
Theorem contributions_are_numbers exp v s :
  Forall (fun t => is_nan (phi t) = false /\
                   ((phi t <? 0) = true ->
                    In (phi t) [-0.04; -0.02; -0.09; -0.03]))
    (shapValues (runXaiInference exp v s)).
Proof.
  rewrite shapValues_run.
  eapply Permutation_Forall; [apply sortByMagnitude_perm|].
  apply Forall_forall. intros t Ht. split; [now apply (pushed_not_nan v s)|].
  unfold pushed in Ht. intros Hneg.
  destruct (pain s), (breathless s); simpl in Ht;
    repeat (destruct Ht as [<-|Ht];
      [cbn [phi vitalTerm] in Hneg |- *;
       first
         [ rewrite (hrWeight_sign v Hneg); simpl; tauto
         | rewrite (bpWeight_sign v Hneg); simpl; tauto
         | rewrite (o2Weight_sign v Hneg); simpl; tauto
         | rewrite (infWeight_sign v Hneg); simpl; tauto
         | discriminate Hneg ]|]);
    contradiction.
Qed.

(** A reading in the normal branch of its rule, which is where a NaN
    reading falls, is not told apart from any other: two snapshots whose
    four scored vitals all fail their threshold test give the same
    result. *)
Theorem normal_readings_are_indistinguishable exp v v' s :
  (heartRate v >? 100) = false -> (heartRate v' >? 100) = false ->
  (bloodPressure v <? 90) = false -> (bloodPressure v' <? 90) = false ->
  (oxygen v <? 94) = false -> (oxygen v' <? 94) = false ->
  (infectionMarker v >? 3) = false -> (infectionMarker v' >? 3) = false ->
  runXaiInference exp v s = runXaiInference exp v' s.
Proof.
  intros H1 H1' H2 H2' H3 H3' H4 H4'. unfold runXaiInference.
  rewrite H1, H1', H2, H2', H3, H3', H4, H4'. reflexivity.
Qed.

Lemma normal_readings_are_indistinguishable_witness :
  runXaiInference expReference
    {| heartRate := nan; bloodPressure := nan; oxygen := nan;
       temperature := nan; infectionMarker := nan |}
    {| pain := true; breathless := false |}
  = runXaiInference expReference
      {| heartRate := 80; bloodPressure := 120; oxygen := 98;
         temperature := 37; infectionMarker := 1 |}
      {| pain := true; breathless := false |}.
Proof.
  apply normal_readings_are_indistinguishable; reflexivity.
Defined.

(** The result is never empty, and its first term, the "primary driver"
    that [handleChat] reads as [shapValues[0]], has the largest |phi|. *)
Theorem primary_driver_dominates exp v s :
  exists t rest,
    shapValues (runXaiInference exp v s) = t :: rest /\
    Forall (fun u => (abs (phi u) <=? abs (phi t)) = true) rest.
Proof.
  pose proof (sortByMagnitude_sorted (pushed v s) (pushed_not_nan v s)) as S.
  assert (L : (4 <= List.length (sortByMagnitude (pushed v s)))%nat).
  { unfold sortByMagnitude. rewrite sort_length. unfold pushed.
    destruct (pain s), (breathless s); simpl; lia. }
  rewrite shapValues_run.
  destruct (sortByMagnitude (pushed v s)) as [|t rest]; [simpl in L; lia|].
  exists t, rest. split; [reflexivity|].
  now inversion S.
Qed.

End EngineFacts.

(** ** Binary64 arithmetic rounds the exact result *)

Module SF64RealFacts.

Import SF64 SF64Facts SF64Range SF64RangeFacts SF64Real.
Open Scope R_scope.

Lemma bpow_pos e : 0 < bpow e.
Proof. unfold bpow. apply powerRZ_lt. lra. Qed.

Lemma bpow_add a b : bpow (a + b) = bpow a * bpow b.
Proof. unfold bpow. apply powerRZ_add. lra. Qed.

Lemma bpow_1 : bpow 1 = 2.
Proof. unfold bpow. simpl. lra. Qed.

Lemma bpow_succ e : bpow (e + 1) = 2 * bpow e.
Proof. rewrite bpow_add, bpow_1. lra. Qed.

Lemma bpow_IZR e : (0 <= e)%Z -> bpow e = IZR (2 ^ e).
Proof.
  intros H. pattern e. apply natlike_ind; [reflexivity| |assumption].
  intros x Hx IH. unfold Z.succ. rewrite bpow_succ, IH, Z.pow_add_r, mult_IZR by lia.
  change (2 ^ 1)%Z with 2%Z. lra.
Qed.

Lemma bpow_le a b : (a <= b)%Z -> bpow a <= bpow b.
Proof.
  intros H. replace b with (a + (b - a))%Z by lia.
  rewrite bpow_add, (bpow_IZR (b - a)) by lia.
  assert (1 <= IZR (2 ^ (b - a))).
  { apply IZR_le. assert (0 < 2 ^ (b - a))%Z by (apply Z.pow_pos_nonneg; lia). lia. }
  pose proof (bpow_pos a). nra.
Qed.

Lemma bpow_lt a b : (a < b)%Z -> bpow a < bpow b.
Proof.
  intros H. apply Rlt_le_trans with (bpow (a + 1)); [|apply bpow_le; lia].
  rewrite bpow_succ. pose proof (bpow_pos a). lra.
Qed.

Lemma bpow_lt_inv a b : bpow a < bpow b -> (a < b)%Z.
Proof.
  intros H. destruct (Z_lt_le_dec a b) as [L|L]; [assumption|].
  apply bpow_le in L. lra.
Qed.

(** Magnitude *)
Lemma mag_unique x g g' : mag x g -> mag x g' -> g = g'.
Proof.
  unfold mag. intros [H1 H2] [H3 H4].
  assert (g - 1 < g')%Z by (apply bpow_lt_inv; lra).
  assert (g' - 1 < g)%Z by (apply bpow_lt_inv; lra).
  lia.
Qed.

Lemma mag_le x y g g' : mag x g -> mag y g' -> x <= y -> (g <= g')%Z.
Proof.
  unfold mag. intros [H1 H2] [H3 H4] H.
  assert (g - 1 < g')%Z by (apply bpow_lt_inv; lra). lia.
Qed.

Lemma IZR_digits m :
  (0 < m)%Z -> bpow (Zdigits2 m - 1) <= IZR m < bpow (Zdigits2 m).
Proof.
  intros H. destruct m as [|p|p]; try lia. simpl Zdigits2.
  pose proof (digits2_pos_bounds p) as [A B].
  assert (0 < Zpos (digits2_pos p))%Z by lia.
  rewrite !bpow_IZR by lia. split; [apply IZR_le|apply IZR_lt]; assumption.
Qed.

(** Location through the right shift *)
Lemma located_bounds y M l : located y M l -> M <= y < M + 1.
Proof. destruct l as [|[ | | ]]; simpl; lra. Qed.

Lemma inbetween_bounds x m e l :
  inbetween x m e l -> IZR m * bpow e <= x < (IZR m + 1) * bpow e.
Proof.
  unfold inbetween. intros H. apply located_bounds in H.
  pose proof (bpow_pos e) as B.
  assert (E : x = x / bpow e * bpow e) by (field; lra).
  remember (x / bpow e) as y. rewrite E. clear E Heqy.
  split; [apply Rmult_le_compat_r|apply Rmult_lt_compat_r]; lra.
Qed.

Lemma IZR_xI p : IZR (Z.pos p~1) = 2 * IZR (Z.pos p) + 1.
Proof. change (Z.pos p~1) with (2 * Z.pos p + 1)%Z. now rewrite plus_IZR, mult_IZR. Qed.

Lemma IZR_xO p : IZR (Z.pos p~0) = 2 * IZR (Z.pos p).
Proof. change (Z.pos p~0) with (2 * Z.pos p)%Z. now rewrite mult_IZR. Qed.

Lemma div_bpow_succ x e : x / bpow (e + 1) = x / bpow e / 2.
Proof. rewrite bpow_succ. pose proof (bpow_pos e). field. lra. Qed.

Lemma shr_1_inbetween x mrs e :
  (0 <= shr_m mrs)%Z ->
  inbetween x (shr_m mrs) e (loc_of_shr_record mrs) ->
  inbetween x (shr_m (shr_1 mrs)) (e + 1) (loc_of_shr_record (shr_1 mrs)).
Proof.
  destruct mrs as [m r s]. cbn [shr_m]. unfold inbetween. intros Hm H.
  rewrite div_bpow_succ. generalize dependent (x / bpow e). intros y H.
  destruct m as [|[p|p|]|p]; try lia; destruct r, s;
    cbn [shr_1 shr_m loc_of_shr_record located orb] in H |- *;
    try rewrite (IZR_xI p) in H; try rewrite (IZR_xO p) in H;
    try (generalize dependent (IZR (Z.pos p)); clear p; intros P H);
    lra.
Qed.

Lemma iter_shr_inbetween x p : forall mrs e,
  (0 <= shr_m mrs)%Z ->
  inbetween x (shr_m mrs) e (loc_of_shr_record mrs) ->
  inbetween x (shr_m (SpecFloat.iter_pos shr_1 p mrs)) (e + Zpos p)
    (loc_of_shr_record (SpecFloat.iter_pos shr_1 p mrs)).
Proof.
  assert (N : forall r, (0 <= shr_m r)%Z -> (0 <= shr_m (shr_1 r))%Z).
  { intros r Hr. rewrite shr_1_m by assumption. apply Z.div_pos; lia. }
  assert (NI : forall q r, (0 <= shr_m r)%Z ->
                           (0 <= shr_m (SpecFloat.iter_pos shr_1 q r))%Z).
  { intros q r Hr. rewrite iter_shr_m by assumption. apply Z.div_pos; lia. }
  induction p as [p IH|p IH|]; intros mrs e Hm H; cbn [SpecFloat.iter_pos].
  - replace (e + Z.pos p~1)%Z with (e + 1 + Z.pos p + Z.pos p)%Z by lia.
    apply IH; [now apply NI, N|]. apply IH; [now apply N|].
    now apply shr_1_inbetween.
  - replace (e + Z.pos p~0)%Z with (e + Z.pos p + Z.pos p)%Z by lia.
    apply IH; [now apply NI|]. now apply IH.
  - now apply shr_1_inbetween.
Qed.

Lemma loc_of_record_of_loc m l : loc_of_shr_record (shr_record_of_loc m l) = l.
Proof. now destruct l as [|[ | | ]]. Qed.

Lemma shr_inbetween x mrs e n :
  (0 <= shr_m mrs)%Z ->
  inbetween x (shr_m mrs) e (loc_of_shr_record mrs) ->
  inbetween x (shr_m (fst (shr mrs e n))) (snd (shr mrs e n))
    (loc_of_shr_record (fst (shr mrs e n))).
Proof.
  intros Hm H. destruct n as [|p|p]; cbn [shr fst snd]; try assumption.
  now apply iter_shr_inbetween.
Qed.

Lemma shr_fexp_inbetween x m e l :
  (0 <= m)%Z -> inbetween x m e l ->
  inbetween x (shr_m (fst (shr_fexp prec emax m e l)))
    (snd (shr_fexp prec emax m e l))
    (loc_of_shr_record (fst (shr_fexp prec emax m e l))).
Proof.
  intros Hm H. unfold shr_fexp. apply shr_inbetween.
  - now rewrite shr_m_record_of_loc.
  - now rewrite shr_m_record_of_loc, loc_of_record_of_loc.
Qed.


(** The exponent the first shift reaches *)
Lemma mag_of_inbetween x m e l :
  (0 < m)%Z -> inbetween x m e l -> mag x (Zdigits2 m + e).
Proof.
  intros Hm H. apply inbetween_bounds in H. destruct H as [L U].
  destruct (IZR_digits m Hm) as [A B]. pose proof (bpow_pos e) as P.
  assert (B' : IZR m + 1 <= bpow (Zdigits2 m)).
  { assert (0 < Zdigits2 m)%Z by (destruct m; simpl; lia).
    rewrite bpow_IZR in B |- * by lia. apply lt_IZR in B.
    rewrite <- plus_IZR. apply IZR_le. lia. }
  unfold mag. replace (Zdigits2 m + e - 1)%Z with ((Zdigits2 m - 1) + e)%Z by lia.
  rewrite !bpow_add. split.
  - apply Rle_trans with (IZR m * bpow e); [|assumption].
    apply Rmult_le_compat_r; lra.
  - apply Rlt_le_trans with ((IZR m + 1) * bpow e); [assumption|].
    apply Rmult_le_compat_r; lra.
Qed.

Lemma fexp_canonical x m e l g :
  (0 <= m)%Z -> inbetween x m e l -> mag x g -> (e <= fexp64 g)%Z ->
  fexp64 (Zdigits2 m + e) = fexp64 g.
Proof.
  intros Hm H G He.
  assert (C : (0 < m \/ m = 0)%Z) by lia. destruct C as [C | ->].
  - now rewrite (mag_unique _ _ _ (mag_of_inbetween _ _ _ _ C H) G).
  - apply inbetween_bounds in H. cbn [Zdigits2] in *. rewrite Z.add_0_l.
    destruct G as [G1 G2]. replace (IZR 0 + 1) with 1 in H by (simpl; lra).
    rewrite Rmult_1_l in H. destruct H as [_ H].
    assert (g - 1 < e)%Z by (apply bpow_lt_inv; lra).
    rewrite !fexp64_eq in *. lia.
Qed.

Lemma shr_fexp_canonical x m e l g :
  (0 <= m)%Z -> inbetween x m e l -> mag x g -> (e <= fexp64 g)%Z ->
  snd (shr_fexp prec emax m e l) = fexp64 g.
Proof.
  intros Hm H G He. destruct (shr_fexp_spec m e l Hm) as [_ ->].
  rewrite (fexp_canonical x m e l g) by assumption. lia.
Qed.

Lemma pow2_53_R e : bpow (53 + e) = IZR (2 ^ 53) * bpow e.
Proof. rewrite bpow_add, (bpow_IZR 53) by lia. reflexivity. Qed.

Lemma pow2_52_R e : bpow (52 + e) = IZR (2 ^ 52) * bpow e.
Proof. rewrite bpow_add, (bpow_IZR 52) by lia. reflexivity. Qed.

Lemma Rmult_lt_reg_bpow a b e : a * bpow e < b * bpow e -> a < b.
Proof. pose proof (bpow_pos e) as B. intros H. nra. Qed.

Lemma canonical_mantissa_bounds x m l g :
  mag x g -> inbetween x m (fexp64 g) l ->
  (m < 2 ^ 53)%Z /\ (fexp64 g = -1074 \/ 2 ^ 52 <= m)%Z.
Proof.
  intros [G1 G2] H0. apply inbetween_bounds in H0. destruct H0 as [L U]. split.
  - apply lt_IZR. apply (Rmult_lt_reg_bpow _ _ (fexp64 g)).
    rewrite <- pow2_53_R.
    apply Rle_lt_trans with x; [assumption|].
    apply Rlt_le_trans with (bpow g); [assumption|].
    apply bpow_le. rewrite fexp64_eq. lia.
  - destruct (Z.eq_dec (fexp64 g) (-1074)) as [E|E]; [now left|right].
    assert (E' : fexp64 g = (g - 53)%Z) by (rewrite fexp64_eq in *; lia).
    assert (H : IZR (2 ^ 52) < IZR m + 1).
    { apply (Rmult_lt_reg_bpow _ _ (fexp64 g)). rewrite <- pow2_52_R.
      apply Rle_lt_trans with x; [|assumption].
      apply Rle_trans with (bpow (g - 1)); [|assumption].
      apply bpow_le. lia. }
    rewrite <- plus_IZR in H. apply lt_IZR in H. lia.
Qed.

(** Rounding to nearest even is monotone *)
Lemma rne_located_mono y1 y2 m l1 l2 :
  located y1 (IZR m) l1 -> located y2 (IZR m) l2 -> y1 <= y2 ->
  (round_nearest_even m l1 <= round_nearest_even m l2)%Z.
Proof.
  destruct l1 as [|[ | | ]], l2 as [|[ | | ]]; simpl; intros H1 H2 H;
    try lra; destruct (IntDef.Z.even m); lia.
Qed.

Lemma located_mantissa_le y1 y2 m1 m2 l1 l2 :
  located y1 (IZR m1) l1 -> located y2 (IZR m2) l2 -> y1 <= y2 -> (m1 <= m2)%Z.
Proof.
  intros H1 H2 H. apply located_bounds in H1, H2.
  assert (IZR m1 < IZR m2 + 1) by lra.
  rewrite <- plus_IZR in H0. apply lt_IZR in H0. lia.
Qed.

Lemma rne_value_mono x y g1 g2 m1 m2 l1 l2 :
  mag x g1 -> mag y g2 ->
  inbetween x m1 (fexp64 g1) l1 -> inbetween y m2 (fexp64 g2) l2 ->
  (0 <= m1)%Z -> (0 <= m2)%Z -> x <= y ->
  IZR (round_nearest_even m1 l1) * bpow (fexp64 g1)
  <= IZR (round_nearest_even m2 l2) * bpow (fexp64 g2).
Proof.
  intros G1 G2 H1 H2 P1 P2 H.
  pose proof (mag_le _ _ _ _ G1 G2 H) as Hg.
  assert (He : (fexp64 g1 <= fexp64 g2)%Z) by (rewrite !fexp64_eq; lia).
  destruct (Z.eq_dec (fexp64 g1) (fexp64 g2)) as [E|E].
  - rewrite <- E in *. apply Rmult_le_compat_r; [pose proof (bpow_pos (fexp64 g1)); lra|].
    apply IZR_le. unfold inbetween in H1, H2.
    assert (Hy : x / bpow (fexp64 g1) <= y / bpow (fexp64 g1)).
    { pose proof (bpow_pos (fexp64 g1)). apply Rmult_le_compat_r; [|assumption].
      apply Rlt_le, Rinv_0_lt_compat. assumption. }
    pose proof (located_mantissa_le _ _ _ _ _ _ H1 H2 Hy) as Hm.
    destruct (Z.eq_dec m1 m2) as [<-|N].
    + exact (rne_located_mono _ _ _ _ _ H1 H2 Hy).
    + pose proof (round_nearest_even_le m1 l1). pose proof (round_nearest_even_ge m2 l2).
      lia.
  - destruct (canonical_mantissa_bounds _ _ _ _ G1 H1) as [B1 _].
    destruct (canonical_mantissa_bounds _ _ _ _ G2 H2) as [_ [B2|B2]];
      [rewrite !fexp64_eq in *; lia|].
    apply Rle_trans with (bpow (53 + fexp64 g1)).
    + rewrite pow2_53_R. apply Rmult_le_compat_r; [pose proof (bpow_pos (fexp64 g1)); lra|].
      apply IZR_le. pose proof (round_nearest_even_le m1 l1). lia.
    + apply Rle_trans with (bpow (52 + fexp64 g2)); [apply bpow_le; lia|].
      rewrite pow2_52_R. apply Rmult_le_compat_r; [pose proof (bpow_pos (fexp64 g2)); lra|].
      apply IZR_le. pose proof (round_nearest_even_ge m2 l2). lia.
Qed.


(** The last step of [binary_round_aux] *)
Lemma binary_round_aux_finish s m e l :
  binary_round_aux prec emax s m e l
  = finish s (round_nearest_even (shr_m (fst (shr_fexp prec emax m e l)))
                (loc_of_shr_record (fst (shr_fexp prec emax m e l))))
      (snd (shr_fexp prec emax m e l)).
Proof.
  unfold binary_round_aux, finish.
  destruct (shr_fexp prec emax m e l) as [mrs' e']. reflexivity.
Qed.

Lemma Zdigits2_pow2_53 : Zdigits2 (2 ^ 53) = 54%Z.
Proof. vm_compute. reflexivity. Qed.

Lemma valid_intro s m e :
  (-1074 <= e <= 971)%Z -> (Zpos m < 2 ^ 53)%Z -> (e = -1074 \/ 2 ^ 52 <= Zpos m)%Z ->
  valid_binary (S754_finite s m e) = true.
Proof.
  intros He Hm Hn. unfold SpecFloat.valid_binary, SpecFloat.bounded, canonical_mantissa.
  apply andb_true_intro. split; [|apply Z.leb_le; unfold emax, prec; lia].
  apply Z.eqb_eq.
  assert (D : (Zpos (digits2_pos m) <= 53)%Z)
    by (apply (Zdigits2_le_of_lt (Zpos m) 53); lia).
  rewrite fexp64_eq. destruct Hn as [Hn|Hn]; [lia|].
  assert (52 < Zpos (digits2_pos m))%Z by (apply digits_gt_of_le; lia). lia.
Qed.

Lemma finish_spec s m e :
  (0 <= m <= 2 ^ 53)%Z -> (-1074 <= e)%Z -> (e = -1074 \/ 2 ^ 52 <= m)%Z ->
  rounded_value s (IZR m * bpow e) (finish s m e).
Proof.
  intros Hm He Hn. unfold finish, rounded_value.
  destruct (shr_fexp_spec m e loc_Exact (proj1 Hm)) as [A B].
  destruct (shr_fexp prec emax m e loc_Exact) as [mrs e']. cbn [fst snd] in A, B.
  assert (C : (m = 0 \/ 0 < m < 2 ^ 53 \/ m = 2 ^ 53)%Z) by lia.
  destruct C as [-> | [C | ->]].
  - left. rewrite Z.div_0_l in A by (apply Z.pow_nonzero; lia). rewrite A.
    split; [simpl; lra|reflexivity].
  - assert (D : (Zdigits2 m <= 53)%Z) by (apply Zdigits2_le_of_lt; lia).
    assert (N : Z.max (fexp64 (Zdigits2 m + e) - e) 0 = 0%Z)
      by (rewrite fexp64_eq; lia).
    rewrite N in A, B. rewrite Z.pow_0_r, Z.div_1_r in A. rewrite Z.add_0_r in B.
    subst e'. rewrite A. destruct m as [|p|p]; try lia.
    destruct (Z.leb_spec e (emax - prec)) as [L|L]; unfold emax, prec in L.
    + right; left. exists p, e. split; [reflexivity|]. split; [|reflexivity].
      apply valid_intro; lia.
    + right; right. split; [reflexivity|].
      destruct Hn as [Hn|Hn]; [lia|].
      apply Rle_trans with (bpow (52 + e)); [apply bpow_le; lia|].
      rewrite pow2_52_R. apply Rmult_le_compat_r; [pose proof (bpow_pos e); lra|].
      now apply IZR_le.
  - assert (N : Z.max (fexp64 (Zdigits2 (2 ^ 53) + e) - e) 0 = 1%Z)
      by (rewrite Zdigits2_pow2_53, fexp64_eq; lia).
    rewrite N in A, B. subst e'.
    assert (A' : shr_m mrs = Z.pos (2 ^ 52)) by (rewrite A; vm_compute; reflexivity).
    rewrite A'.
    assert (V : IZR (Z.pos (2 ^ 52)) * bpow (e + 1) = IZR (2 ^ 53) * bpow e).
    { rewrite bpow_succ. replace (IZR (2 ^ 53)) with (2 * IZR (Z.pos (2 ^ 52))); [ring|].
      rewrite <- mult_IZR. f_equal. }
    destruct (Z.leb_spec (e + 1) (emax - prec)) as [L|L]; unfold emax, prec in L.
    + right; left. exists (2 ^ 52)%positive, (e + 1)%Z.
      split; [reflexivity|]. split; [|exact V].
      apply valid_intro; [lia|vm_compute; reflexivity|right; vm_compute; discriminate].
    + right; right. split; [reflexivity|].
      rewrite <- pow2_53_R. apply bpow_le. lia.
Qed.


(** Rounding a positive real *)
Lemma binary_round_aux_rounds s x m e l g :
  (0 <= m)%Z -> inbetween x m e l -> mag x g -> (e <= fexp64 g)%Z ->
  rounds_mag s x (binary_round_aux prec emax s m e l).
Proof.
  intros Hm H G He. rewrite binary_round_aux_finish.
  pose proof (shr_fexp_inbetween x m e l Hm H) as H'.
  rewrite (shr_fexp_canonical x m e l g Hm H G He) in *.
  exists (shr_m (fst (shr_fexp prec emax m e l))),
    (loc_of_shr_record (fst (shr_fexp prec emax m e l))), g.
  repeat split; try assumption; try apply G.
  destruct (shr_fexp_spec m e l Hm) as [-> _]. apply Z.div_pos; [assumption|].
  apply Z.pow_pos_nonneg; lia.
Qed.

Lemma rounds_mag_value s x F :
  rounds_mag s x F ->
  exists m l g, mag x g /\ (0 <= m)%Z /\ inbetween x m (fexp64 g) l /\
    rounded_value s (IZR (round_nearest_even m l) * bpow (fexp64 g)) F /\
    0 <= IZR (round_nearest_even m l) * bpow (fexp64 g).
Proof.
  intros (m & l & g & G & Hm & H & ->). exists m, l, g.
  repeat split; try assumption; try apply G.
  - destruct (canonical_mantissa_bounds _ _ _ _ G H) as [B1 B2].
    pose proof (round_nearest_even_le m l). pose proof (round_nearest_even_ge m l).
    apply finish_spec; [lia|rewrite fexp64_eq; lia|].
    destruct B2 as [B2|B2]; [now left|right; lia].
  - apply Rmult_le_pos; [|pose proof (bpow_pos (fexp64 g)); lra].
    apply IZR_le. pose proof (round_nearest_even_ge m l). lia.
Qed.

(** Comparison of valid numbers *)
Lemma valid_value_lt s m e :
  valid_binary (S754_finite s m e) = true ->
  0 < IZR (Zpos m) * bpow e < bpow 1024.
Proof.
  intros V. pose proof (valid_finite_exponent _ _ _ V) as He.
  destruct (valid_finite _ _ _ V) as (E1 & D & _).
  pose proof (digits2_pos_bounds m) as [_ B]. pose proof (bpow_pos e) as P.
  split.
  - apply Rmult_lt_0_compat; [|assumption]. now apply IZR_lt.
  - apply Rlt_le_trans with (bpow (53 + e)); [|apply bpow_le; lia].
    rewrite pow2_53_R. apply Rmult_lt_compat_r; [assumption|].
    apply IZR_lt. apply Z.lt_le_trans with (2 ^ Zpos (digits2_pos m))%Z; [assumption|].
    apply Z.pow_le_mono_r; lia.
Qed.

Lemma Rcmp_opp c a b : Rcmp c a b -> Rcmp (CompOpp c) (- a) (- b).
Proof. destruct c; simpl; lra. Qed.

Lemma compare_pos_R m1 e1 m2 e2 :
  valid_binary (S754_finite false m1 e1) = true ->
  valid_binary (S754_finite false m2 e2) = true ->
  Rcmp match (e1 ?= e2)%Z with
       | Lt => Lt
       | Gt => Gt
       | Eq => (Zpos m1 ?= Zpos m2)%Z
       end (IZR (Zpos m1) * bpow e1) (IZR (Zpos m2) * bpow e2).
Proof.
  intros V1 V2. destruct (Z.compare_spec e1 e2) as [E|E|E].
  - subst e2. pose proof (bpow_pos e1) as P.
    destruct (Z.compare_spec (Zpos m1) (Zpos m2)) as [M|M|M]; simpl.
    + now rewrite M.
    + apply Rmult_lt_compat_r; [assumption|]. now apply IZR_lt.
    + apply Rmult_lt_compat_r; [assumption|]. now apply IZR_lt.
  - simpl. pose proof (mantissa_lt_shifted _ _ _ _ V1 V2 E) as M.
    replace e2 with ((e2 - e1) + e1)%Z by lia.
    rewrite bpow_add, (bpow_IZR (e2 - e1)), <- Rmult_assoc, <- mult_IZR by lia.
    apply Rmult_lt_compat_r; [apply bpow_pos|]. now apply IZR_lt.
  - simpl. pose proof (mantissa_lt_shifted _ _ _ _ V2 V1 E) as M.
    replace e1 with ((e1 - e2) + e2)%Z by lia.
    rewrite bpow_add, (bpow_IZR (e1 - e2)), <- Rmult_assoc, <- mult_IZR by lia.
    apply Rmult_lt_compat_r; [apply bpow_pos|]. now apply IZR_lt.
Qed.

Lemma SFcompare_finite_neg m1 e1 m2 e2 :
  SFcompare (S754_finite true m1 e1) (S754_finite true m2 e2)
  = Some (CompOpp match (e1 ?= e2)%Z with
                  | Lt => Lt
                  | Gt => Gt
                  | Eq => (Zpos m1 ?= Zpos m2)%Z
                  end).
Proof. simpl. now destruct (e1 ?= e2)%Z. Qed.

Lemma SFR_finite s m e :
  SFR (S754_finite s m e) = signed s (IZR (Zpos m) * bpow e).
Proof.
  unfold SFR, signed. destruct s; cbn [cond_Zopp]; [|reflexivity].
  change (Z.opp (Z.pos m)) with (- Z.pos m)%Z. rewrite opp_IZR. ring.
Qed.

Lemma SFcompare_R x y :
  valid_binary x = true -> valid_binary y = true ->
  finite_or_zero x -> finite_or_zero y ->
  exists c, SFcompare x y = Some c /\ Rcmp c (SFR x) (SFR y).
Proof.
  intros Vx Vy Fx Fy.
  destruct x as [sx|sx| |sx mx ex], y as [sy|sy| |sy my ey]; try contradiction.
  - exists Eq. split; reflexivity.
  - pose proof (valid_value_lt _ _ _ Vy) as [P _]. rewrite SFR_finite.
    exists (if sy then Gt else Lt). split; [reflexivity|].
    destruct sy; simpl; lra.
  - pose proof (valid_value_lt _ _ _ Vx) as [P _]. rewrite SFR_finite.
    exists (if sx then Lt else Gt). split; [reflexivity|].
    destruct sx; simpl; lra.
  - pose proof (valid_value_lt _ _ _ Vx) as [Px _].
    pose proof (valid_value_lt _ _ _ Vy) as [Py _].
    rewrite !SFR_finite. destruct sx, sy.
    + rewrite SFcompare_finite_neg. eexists. split; [reflexivity|].
      apply Rcmp_opp, compare_pos_R;
        [now rewrite (valid_sign false true)|now rewrite (valid_sign false true)].
    + exists Lt. split; [reflexivity|]. simpl. lra.
    + exists Gt. split; [reflexivity|]. simpl. lra.
    + rewrite SFcompare_finite_pos. eexists. split; [reflexivity|].
      now apply compare_pos_R.
Qed.

Lemma SFleb_R x y :
  valid_binary x = true -> valid_binary y = true ->
  finite_or_zero x -> finite_or_zero y ->
  (SFleb x y = true <-> SFR x <= SFR y).
Proof.
  intros Vx Vy Fx Fy. destruct (SFcompare_R x y Vx Vy Fx Fy) as (c & E & H).
  unfold SFleb. rewrite E. destruct c; simpl in H; split; intros; try lra;
    try reflexivity; discriminate.
Qed.

Lemma SFltb_R x y :
  valid_binary x = true -> valid_binary y = true ->
  finite_or_zero x -> finite_or_zero y ->
  (SFltb x y = true <-> SFR x < SFR y).
Proof.
  intros Vx Vy Fx Fy. destruct (SFcompare_R x y Vx Vy Fx Fy) as (c & E & H).
  unfold SFltb. rewrite E. destruct c; simpl in H; split; intros; try lra;
    try reflexivity; discriminate.
Qed.

(** Rounded values compare as the reals they round *)
Lemma rounded_value_le s v F s' w G :
  rounded_value s v F -> rounded_value s' w G -> 0 <= v -> 0 <= w ->
  signed s v <= signed s' w -> SFleb F G = true.
Proof.
  intros HF HG Pv Pw H.
  destruct HF as [[-> ->]|[(mf & ef & -> & VF & EF)|[-> BF]]];
    destruct HG as [[-> ->]|[(mg & eg & -> & VG & EG)|[-> BG]]].
  - reflexivity.
  - apply SFleb_R; [reflexivity || assumption|reflexivity || assumption|exact I|exact I|].
    rewrite SFR_finite, EG. simpl SFR. destruct s; simpl in H; lra.
  - destruct s'; [|reflexivity].
    pose proof (bpow_pos 1024). destruct s; simpl in H; lra.
  - apply SFleb_R; [reflexivity || assumption|reflexivity || assumption|exact I|exact I|].
    rewrite SFR_finite, EF. simpl SFR. destruct s'; simpl in H; lra.
  - apply SFleb_R; [reflexivity || assumption|reflexivity || assumption|exact I|exact I|].
    now rewrite !SFR_finite, EF, EG.
  - destruct s'; [|reflexivity].
    pose proof (valid_value_lt _ _ _ VF) as [P1 P2]. rewrite EF in *.
    destruct s; simpl in H; lra.
  - destruct s; [reflexivity|].
    pose proof (bpow_pos 1024). destruct s'; simpl in H; lra.
  - destruct s; [reflexivity|].
    pose proof (valid_value_lt _ _ _ VG) as [P1 P2]. rewrite EG in *.
    pose proof (bpow_pos 1024). destruct s'; simpl in H; lra.
  - destruct s, s'; try reflexivity.
    pose proof (bpow_pos 1024). simpl in H. lra.
Qed.

Lemma rounded_value_zero s : rounded_value s 0 (S754_zero s).
Proof. left. now split. Qed.

Lemma rounds_mono r r' F G :
  rounds r F -> rounds r' G -> r <= r' -> SFleb F G = true.
Proof.
  intros HF HG H.
  destruct HF as [[-> [s ->]]|[[P HF]|[P HF]]];
    destruct HG as [[-> [s' ->]]|[[P' HG]|[P' HG]]]; try (exfalso; lra);
    try (destruct (rounds_mag_value _ _ _ HF) as (m & l & g & G1 & M1 & I1 & V & N));
    try (destruct (rounds_mag_value _ _ _ HG) as (m' & l' & g' & G2 & M2 & I2 & V' & N')).
  - reflexivity.
  - apply (rounded_value_le _ _ _ _ _ _ (rounded_value_zero s) V'); try lra.
    destruct s; simpl; lra.
  - apply (rounded_value_le _ _ _ _ _ _ V V'); try assumption. simpl.
    now apply (rne_value_mono r r').
  - apply (rounded_value_le _ _ _ _ _ _ V (rounded_value_zero s')); try lra.
    destruct s'; simpl; lra.
  - apply (rounded_value_le _ _ _ _ _ _ V V'); try assumption. simpl. lra.
  - apply (rounded_value_le _ _ _ _ _ _ V V'); try assumption. simpl.
    apply Ropp_le_contravar. apply (rne_value_mono (- r') (- r)); try assumption. lra.
Qed.


(** *** The operations round the exact result *)

Lemma inbetween_exact m e : inbetween (IZR m * bpow e) m e loc_Exact.
Proof.
  unfold inbetween. simpl. pose proof (bpow_pos e). field. lra.
Qed.

Lemma mag_of_mantissa m e :
  mag (IZR (Zpos m) * bpow e) (Zpos (digits2_pos m) + e).
Proof.
  apply (mag_of_inbetween _ (Zpos m) e loc_Exact); [lia|apply inbetween_exact].
Qed.

Lemma valid_canonical s m e :
  valid_binary (S754_finite s m e) = true ->
  fexp64 (Zpos (digits2_pos m) + e) = e.
Proof.
  intros V. unfold SpecFloat.valid_binary, SpecFloat.bounded, canonical_mantissa in V.
  apply andb_prop in V as [V _]. now apply Z.eqb_eq in V.
Qed.

Lemma finish_valid s m e :
  valid_binary (S754_finite s m e) = true ->
  finish s (Zpos m) e = S754_finite s m e.
Proof.
  intros V. pose proof (valid_canonical _ _ _ V) as C.
  pose proof (valid_finite_exponent _ _ _ V) as E.
  unfold finish.
  destruct (shr_fexp_spec (Zpos m) e loc_Exact ltac:(lia)) as [A B].
  destruct (shr_fexp prec emax (Zpos m) e loc_Exact) as [mrs e'].
  cbn [fst snd] in A, B. cbn [Zdigits2] in A, B. rewrite C in A, B.
  rewrite Z.sub_diag in A, B. cbn [Z.max Z.compare] in A, B.
  rewrite Z.pow_0_r, Z.div_1_r in A. rewrite Z.add_0_r in B. subst e'.
  rewrite A. destruct (Z.leb_spec e (emax - prec)) as [L|L]; [reflexivity|].
  unfold emax, prec in L. lia.
Qed.

Lemma valid_rounds_mag s m e :
  valid_binary (S754_finite s m e) = true ->
  rounds_mag s (IZR (Zpos m) * bpow e) (S754_finite s m e).
Proof.
  intros V. exists (Zpos m), loc_Exact, (Zpos (digits2_pos m) + e)%Z.
  rewrite (valid_canonical _ _ _ V). repeat split.
  - apply mag_of_mantissa.
  - apply mag_of_mantissa.
  - lia.
  - apply inbetween_exact.
  - cbn [round_nearest_even]. symmetry. now apply finish_valid.
Qed.

Lemma rounds_mag_signed s v F :
  0 < v -> rounds_mag s v F -> rounds (signed s v) F.
Proof.
  intros P H. destruct s; simpl.
  - right; right. split; [lra|]. now rewrite Ropp_involutive.
  - right; left. now split.
Qed.

Lemma valid_rounds f :
  valid_binary f = true -> finite_or_zero f -> rounds (SFR f) f.
Proof.
  intros V F. destruct f as [s|s| |s m e]; try contradiction.
  - left. split; [reflexivity|now exists s].
  - rewrite SFR_finite. apply rounds_mag_signed; [|now apply valid_rounds_mag].
    apply Rmult_lt_0_compat; [now apply IZR_lt|apply bpow_pos].
Qed.

Lemma binary_round_rounds s m e :
  rounds_mag s (IZR (Zpos m) * bpow e) (binary_round prec emax s m e).
Proof.
  unfold binary_round.
  set (g := (Zpos (digits2_pos m) + e)%Z).
  destruct (Z_le_gt_dec e (fexp64 g)) as [L|L].
  - rewrite shl_align_ge by assumption.
    apply (binary_round_aux_rounds s _ _ _ _ g); try assumption; try lia.
    + apply inbetween_exact.
    + apply mag_of_mantissa.
  - destruct (shl_align_spec m e (fexp64 g) ltac:(lia)) as [A B].
    destruct (shl_align m e (fexp64 g)) as [mz ez]. cbn [fst snd] in A, B. subst ez.
    assert (E : IZR (Zpos m) * bpow e = IZR (Zpos mz) * bpow (fexp64 g)).
    { rewrite A, mult_IZR, <- bpow_IZR, Rmult_assoc, <- bpow_add by lia.
      f_equal. f_equal. lia. }
    apply (binary_round_aux_rounds s _ _ _ _ g); try lia.
    + rewrite E. apply inbetween_exact.
    + apply mag_of_mantissa.
Qed.

Lemma binary_normalize_rounds m e :
  rounds (IZR m * bpow e) (binary_normalize prec emax m e false).
Proof.
  destruct m as [|p|p]; cbn [binary_normalize].
  - left. split; [simpl; lra|now exists false].
  - right; left. split; [|apply binary_round_rounds].
    apply Rmult_lt_0_compat; [now apply IZR_lt|apply bpow_pos].
  - right; right.
    assert (E : - (IZR (Z.neg p) * bpow e) = IZR (Zpos p) * bpow e).
    { change (Z.neg p) with (- Z.pos p)%Z. rewrite opp_IZR. ring. }
    rewrite E. split; [|apply binary_round_rounds].
    assert (0 < IZR (Zpos p) * bpow e)
      by (apply Rmult_lt_0_compat; [now apply IZR_lt|apply bpow_pos]).
    lra.
Qed.

Lemma IZR_aligned s m e ez :
  (ez <= e)%Z ->
  IZR (cond_Zopp s (Zpos m * 2 ^ (e - ez))) * bpow ez = SFR (S754_finite s m e).
Proof.
  intros H. unfold SFR.
  assert (E : IZR (Zpos m * 2 ^ (e - ez)) * bpow ez = IZR (Zpos m) * bpow e).
  { rewrite mult_IZR, <- bpow_IZR, Rmult_assoc, <- bpow_add by lia.
    f_equal. f_equal. lia. }
  destruct s; cbn [cond_Zopp]; [|exact E].
  rewrite !opp_IZR, <- !Ropp_mult_distr_l. now f_equal.
Qed.

Lemma SFadd_rounds x y :
  valid_binary x = true -> valid_binary y = true ->
  finite_or_zero x -> finite_or_zero y ->
  rounds (SFR x + SFR y) (SF64add x y).
Proof.
  intros Vx Vy Fx Fy.
  destruct x as [sx|sx| |sx mx ex], y as [sy|sy| |sy my ey]; try contradiction.
  - left. split; [simpl; lra|]. unfold SF64add, SFadd. destruct sx, sy; eauto.
  - replace (SFR (S754_zero sx) + SFR (S754_finite sy my ey))
      with (SFR (S754_finite sy my ey)) by (simpl; lra).
    now apply valid_rounds.
  - replace (SFR (S754_finite sx mx ex) + SFR (S754_zero sy))
      with (SFR (S754_finite sx mx ex)) by (simpl; lra).
    now apply valid_rounds.
  - rewrite SFadd_finite.
    rewrite <- (IZR_aligned sx mx ex (Z.min ex ey)), <- (IZR_aligned sy my ey (Z.min ex ey))
      by lia.
    rewrite <- Rmult_plus_distr_r, <- plus_IZR. apply binary_normalize_rounds.
Qed.


Lemma SFopp_valid f : valid_binary (SFopp f) = valid_binary f.
Proof. now destruct f. Qed.

Lemma SFR_opp f : SFR (SFopp f) = - SFR f.
Proof.
  destruct f as [s|s| |s m e]; cbn [SFopp]; try (simpl; lra).
  rewrite !SFR_finite. destruct s; simpl; ring.
Qed.

Lemma SFsub_add_opp x y : SF64sub x y = SF64add x (SFopp y).
Proof.
  destruct x as [sx|sx| |sx mx ex], y as [sy|sy| |sy my ey];
    try reflexivity; destruct sx, sy; reflexivity.
Qed.

Lemma digits_mul mx my :
  (Zpos (digits2_pos mx) + Zpos (digits2_pos my) - 1
   <= Zpos (digits2_pos (mx * my)))%Z.
Proof.
  pose proof (digits2_pos_bounds mx) as [A _].
  pose proof (digits2_pos_bounds my) as [B _].
  assert (C : (2 ^ (Zpos (digits2_pos mx) - 1 + (Zpos (digits2_pos my) - 1))
               <= Zpos (mx * my))%Z).
  { rewrite Z.pow_add_r by lia. rewrite Pos2Z.inj_mul.
    apply Z.mul_le_mono_nonneg; try assumption; apply Z.pow_nonneg; lia. }
  apply digits_gt_of_le in C; lia.
Qed.

Lemma SFmul_rounds x y :
  valid_binary x = true -> valid_binary y = true ->
  finite_or_zero x -> finite_or_zero y ->
  rounds (SFR x * SFR y) (SF64mul x y).
Proof.
  intros Vx Vy Fx Fy.
  destruct x as [sx|sx| |sx mx ex], y as [sy|sy| |sy my ey]; try contradiction;
    try (left; split; [simpl; lra|eexists; reflexivity]).
  unfold SF64mul, SFmul.
  assert (E : SFR (S754_finite sx mx ex) * SFR (S754_finite sy my ey)
              = signed (xorb sx sy) (IZR (Zpos (mx * my)) * bpow (ex + ey))).
  { rewrite !SFR_finite, Pos2Z.inj_mul, mult_IZR, bpow_add.
    destruct sx, sy; simpl; ring. }
  rewrite E.
  assert (P : 0 < IZR (Zpos (mx * my)) * bpow (ex + ey))
    by (apply Rmult_lt_0_compat; [now apply IZR_lt|apply bpow_pos]).
  apply rounds_mag_signed; [assumption|].
  apply (binary_round_aux_rounds _ _ _ _ _
           (Zpos (digits2_pos (mx * my)) + (ex + ey))); try lia.
  - apply inbetween_exact.
  - apply mag_of_mantissa.
  - pose proof (digits_mul mx my).
    destruct (valid_finite _ _ _ Vx) as (X1 & X2 & X3).
    destruct (valid_finite _ _ _ Vy) as (Y1 & Y2 & Y3).
    assert (0 < Zpos (digits2_pos mx))%Z by lia.
    assert (0 < Zpos (digits2_pos my))%Z by lia.
    rewrite fexp64_eq. unfold emin, emax, prec in *. lia.
Qed.

(** Division *)
Lemma mag_exists x a n :
  bpow a <= x < bpow (a + Z.of_nat n) ->
  exists g, mag x g /\ (a < g <= a + Z.of_nat n)%Z.
Proof.
  induction n as [|n IH]; intros [L U].
  - rewrite Z.add_0_r in U. lra.
  - destruct (Rlt_le_dec x (bpow (a + Z.of_nat n))) as [C|C].
    + destruct (IH (conj L C)) as (g & G & B). exists g. split; [assumption|lia].
    + exists (a + Z.of_nat (S n))%Z. split; [|lia]. split; [|assumption].
      replace (a + Z.of_nat (S n) - 1)%Z with (a + Z.of_nat n)%Z by lia. assumption.
Qed.

Lemma new_location_located n q r :
  (0 < n)%Z -> (0 <= r < n)%Z ->
  located (IZR q + IZR r / IZR n) (IZR q) (new_location n r).
Proof.
  intros Hn Hr.
  assert (N : 0 < IZR n) by now apply IZR_lt.
  set (y := IZR r / IZR n).
  assert (Y : y * IZR n = IZR r) by (unfold y; field; lra).
  unfold new_location, new_location_even, new_location_odd.
  assert (Z0 : (r = 0 \/ 0 < r)%Z) by lia. destruct Z0 as [-> | Z0].
  - assert (H0 : y = 0) by (unfold y; simpl; field; lra).
    rewrite H0. destruct (IntDef.Z.even n); cbn; lra.
  - assert (R1 : 1 <= IZR r) by (apply IZR_le; lia).
    assert (R2 : IZR r + 1 <= IZR n) by (rewrite <- plus_IZR; apply IZR_le; lia).
    assert (Y0 : 0 < y) by (apply Rmult_lt_reg_r with (IZR n); [assumption|]; lra).
    assert (Y1 : y < 1) by (apply Rmult_lt_reg_r with (IZR n); [assumption|]; lra).
    assert (Lt2 : (2 * r < n)%Z -> y < / 2).
    { intros C. apply IZR_lt in C. rewrite mult_IZR in C.
      apply Rmult_lt_reg_r with (IZR n); [assumption|]; lra. }
    assert (Gt2 : (n < 2 * r)%Z -> / 2 < y).
    { intros C. apply IZR_lt in C. rewrite mult_IZR in C.
      apply Rmult_lt_reg_r with (IZR n); [assumption|]; lra. }
    assert (Eq2 : (2 * r = n)%Z -> y = / 2).
    { intros C. apply (f_equal IZR) in C. rewrite mult_IZR in C.
      apply Rmult_eq_reg_r with (IZR n); [|lra]; lra. }
    clearbody y.
    assert (E0 : IntDef.Z.eqb r 0 = false) by (apply Z.eqb_neq; lia).
    destruct (IntDef.Z.even n) eqn:Ev; cbv beta; rewrite E0.
    + destruct (IntDef.Z.compare (IntDef.Z.mul 2 r) n) eqn:C; cbn [located].
      * apply -> (Z.compare_eq_iff (2 * r) n) in C. rewrite (Eq2 C). lra.
      * apply -> (Z.compare_lt_iff (2 * r) n) in C. specialize (Lt2 C). lra.
      * apply -> (Z.compare_gt_iff (2 * r) n) in C. specialize (Gt2 C). lra.
    + assert (Od : (n <> 2 * r)%Z).
      { intros ->. rewrite Z.even_mul in Ev. discriminate Ev. }
      destruct (IntDef.Z.compare (IntDef.Z.add (IntDef.Z.mul 2 r) 1) n) eqn:C;
        cbn [located].
      * apply -> (Z.compare_eq_iff (2 * r + 1) n) in C. assert (C' : (2 * r < n)%Z) by lia.
        specialize (Lt2 C'). lra.
      * apply -> (Z.compare_lt_iff (2 * r + 1) n) in C. assert (C' : (2 * r < n)%Z) by lia.
        specialize (Lt2 C'). lra.
      * apply -> (Z.compare_gt_iff (2 * r + 1) n) in C. assert (C' : (n < 2 * r)%Z) by lia.
        specialize (Gt2 C'). lra.
Qed.

Lemma SFdiv_rounds sx mx ex sy my ey :
  valid_binary (S754_finite sx mx ex) = true ->
  valid_binary (S754_finite sy my ey) = true ->
  rounds (SFR (S754_finite sx mx ex) / SFR (S754_finite sy my ey))
    (SF64div (S754_finite sx mx ex) (S754_finite sy my ey)).
Proof.
  intros Vx Vy. unfold SF64div, SFdiv.
  pose proof (SFdiv_core_binary_spec (Zpos mx) ex (Zpos my) ey) as S.
  cbn zeta in S. rewrite S. clear S.
  set (e' := Z.min (fexp64 (Zdigits2 (Zpos mx) + ex - (Zdigits2 (Zpos my) + ey))) (ex - ey)).
  set (m' := (Zpos mx * 2 ^ (ex - ey - e'))%Z).
  set (X := IZR (Zpos mx) * bpow ex). set (Y := IZR (Zpos my) * bpow ey).
  assert (PX : 0 < X) by (apply Rmult_lt_0_compat; [now apply IZR_lt|apply bpow_pos]).
  assert (PY : 0 < Y) by (apply Rmult_lt_0_compat; [now apply IZR_lt|apply bpow_pos]).
  assert (E : SFR (S754_finite sx mx ex) / SFR (S754_finite sy my ey)
              = signed (xorb sx sy) (X / Y)).
  { rewrite !SFR_finite. fold X Y. destruct sx, sy; simpl; field; lra. }
  rewrite E.
  assert (PQ : 0 < X / Y) by (apply Rdiv_lt_0_compat; assumption).
  apply rounds_mag_signed; [assumption|].
  assert (He : (e' <= ex - ey)%Z) by (unfold e'; lia).
  assert (M' : IZR m' = IZR (Zpos mx) * bpow (ex - ey - e'))
    by (unfold m'; rewrite mult_IZR, bpow_IZR by lia; reflexivity).
  assert (Pm : (0 <= m')%Z) by (unfold m'; apply Z.mul_nonneg_nonneg;
                                 [lia|apply Z.pow_nonneg; lia]).
  assert (Q : X / Y / bpow e' = IZR m' / IZR (Zpos my)).
  { unfold X, Y. rewrite M'.
    replace ex with ((ex - ey - e') + ey + e')%Z at 1 by lia.
    rewrite !bpow_add.
    pose proof (bpow_pos ey). pose proof (bpow_pos e').
    pose proof (bpow_pos (ex - ey - e')).
    assert (0 < IZR (Zpos my)) by now apply IZR_lt.
    field. lra. }
  pose proof (mag_of_mantissa mx ex) as [GX1 GX2].
  pose proof (mag_of_mantissa my ey) as [GY1 GY2]. fold X in GX1, GX2. fold Y in GY1, GY2.
  set (dx := Zpos (digits2_pos mx)) in *. set (dy := Zpos (digits2_pos my)) in *.
  assert (Lo : bpow (dx + ex - 1 - (dy + ey)) <= X / Y).
  { apply Rmult_le_reg_r with Y; [assumption|].
    replace (X / Y * Y) with X by (field; lra).
    apply Rle_trans with (bpow (dx + ex - 1 - (dy + ey)) * bpow (dy + ey)).
    - apply Rmult_le_compat_l; [pose proof (bpow_pos (dx + ex - 1 - (dy + ey))); lra|lra].
    - assert (K : bpow (dx + ex - 1 - (dy + ey)) * bpow (dy + ey) = bpow (dx + ex - 1))
        by (rewrite <- bpow_add; f_equal; lia).
      rewrite K. assumption. }
  assert (Hi : X / Y < bpow (dx + ex - 1 - (dy + ey) + Z.of_nat 2)).
  { apply Rmult_lt_reg_r with Y; [assumption|].
    replace (X / Y * Y) with X by (field; lra).
    apply Rlt_le_trans with (bpow (dx + ex)); [assumption|].
    set (k := (dx + ex - 1 - (dy + ey) + Z.of_nat 2)%Z).
    assert (K : bpow (dx + ex) = bpow k * bpow (dy + ey - 1))
      by (rewrite <- bpow_add; f_equal; unfold k; lia).
    rewrite K. apply Rmult_le_compat_l; [|assumption].
    pose proof (bpow_pos k). lra. }
  destruct (mag_exists _ _ _ (conj Lo Hi)) as (g & G & Bg).
  apply (binary_round_aux_rounds _ (X / Y) _ _ _ g).
  - apply Z.div_pos; lia.
  - unfold inbetween. rewrite Q.
    assert (D : IZR m' / IZR (Zpos my)
                = IZR (m' / Zpos my) + IZR (m' mod Zpos my) / IZR (Zpos my)).
    { rewrite (Z.div_mod m' (Zpos my)) at 1 by lia.
      rewrite plus_IZR, mult_IZR.
      assert (0 < IZR (Zpos my)) by now apply IZR_lt. field. lra. }
    rewrite D. apply new_location_located; [lia|].
    apply Z.mod_pos_bound. lia.
  - assumption.
  - apply Z.le_trans with (fexp64 (dx + ex - (dy + ey)));
      [unfold e', dx, dy; apply Z.le_min_l|].
    rewrite !fexp64_eq. lia.
Qed.


(** *** Monotonicity of the operations, infinities included *)

Lemma SFleb_refl f : valid_binary f = true -> f <> S754_nan -> SFleb f f = true.
Proof.
  intros V N. destruct f as [s|s| |s m e]; try reflexivity.
  - now destruct s.
  - now elim N.
  - apply SFleb_R; try assumption; try exact I. lra.
Qed.

Lemma SFleb_pinf f : f <> S754_nan -> SFleb f (S754_infinity false) = true.
Proof. destruct f as [s|s| |s m e]; try reflexivity; [now destruct s|now intros N]. Qed.

Lemma SFleb_ninf f : f <> S754_nan -> SFleb (S754_infinity true) f = true.
Proof. destruct f as [s|s| |s m e]; try reflexivity; [now destruct s|now intros N]. Qed.

Lemma SFleb_not_nan x y : SFleb x y = true -> x <> S754_nan /\ y <> S754_nan.
Proof.
  destruct x as [sx|sx| |sx mx ex], y as [sy|sy| |sy my ey]; intros H;
    try discriminate H; split; discriminate.
Qed.

Lemma SFproper_not_nan f : SFproper f -> f <> S754_nan.
Proof. destruct f; simpl; intros H; [discriminate|discriminate|contradiction|discriminate]. Qed.

Lemma SFproper_le x y : SFproper x -> SFleb x y = true -> SFproper y.
Proof.
  destruct x as [sx|[|]| |sx mx ex], y as [sy|[|]| |sy my ey]; simpl; intros P H;
    try exact I; try contradiction; try discriminate.
Qed.

Lemma classify_le x y :
  SFproper x -> SFleb x y = true ->
  y = S754_infinity false \/ (finite_or_zero x /\ finite_or_zero y).
Proof.
  destruct x as [sx|[|]| |sx mx ex], y as [sy|[|]| |sy my ey]; simpl; intros P H;
    try contradiction; try discriminate; try (now left); try (right; now split).
Qed.

Lemma SFadd_not_nan x y : SFproper x -> SFproper y -> SF64add x y <> S754_nan.
Proof.
  destruct x as [sx|[|]| |sx mx ex], y as [sy|[|]| |sy my ey]; simpl;
    intros Px Py; try contradiction; try discriminate.
  - now destruct sx, sy.
  - apply binary_normalize_not_nan.
Qed.

Lemma SFadd_pinf_l y : SFproper y -> SF64add (S754_infinity false) y = S754_infinity false.
Proof. destruct y as [sy|[|]| |sy my ey]; simpl; intros P; try contradiction; reflexivity. Qed.

Lemma SFadd_pinf_r x : SFproper x -> SF64add x (S754_infinity false) = S754_infinity false.
Proof. destruct x as [sx|[|]| |sx mx ex]; simpl; intros P; try contradiction; reflexivity. Qed.

Lemma SFadd_mono x x' y y' :
  valid_binary x = true -> valid_binary x' = true ->
  valid_binary y = true -> valid_binary y' = true ->
  SFproper x -> SFproper y -> SFleb x x' = true -> SFleb y y' = true ->
  SFleb (SF64add x y) (SF64add x' y') = true.
Proof.
  intros Vx Vx' Vy Vy' Px Py Hx Hy.
  pose proof (SFproper_le _ _ Px Hx) as Px'. pose proof (SFproper_le _ _ Py Hy) as Py'.
  pose proof (SFadd_not_nan _ _ Px Py) as N.
  destruct (classify_le _ _ Px Hx) as [-> | [Fx Fx']];
    [rewrite SFadd_pinf_l by assumption; now apply SFleb_pinf|].
  destruct (classify_le _ _ Py Hy) as [-> | [Fy Fy']];
    [rewrite SFadd_pinf_r by assumption; now apply SFleb_pinf|].
  apply (rounds_mono (SFR x + SFR y) (SFR x' + SFR y')).
  - now apply SFadd_rounds.
  - now apply SFadd_rounds.
  - apply SFleb_R in Hx, Hy; try assumption. lra.
Qed.

Lemma SFopp_le x y :
  valid_binary x = true -> valid_binary y = true ->
  SFleb x y = true -> SFleb (SFopp y) (SFopp x) = true.
Proof.
  intros Vx Vy H.
  destruct x as [sx|sx| |sx mx ex] eqn:Ex, y as [sy|sy| |sy my ey] eqn:Ey;
    try discriminate H; try reflexivity;
    try (destruct sx; try discriminate H; reflexivity);
    try (destruct sy; try discriminate H; reflexivity);
    try (destruct sx, sy; try discriminate H; reflexivity).
  rewrite <- Ex, <- Ey in *.
  assert (Fx : finite_or_zero x) by (rewrite Ex; exact I).
  assert (Fy : finite_or_zero y) by (rewrite Ey; exact I).
  apply SFleb_R; rewrite ?SFopp_valid; try assumption;
    try (rewrite Ex; exact I); try (rewrite Ey; exact I).
  rewrite !SFR_opp. apply SFleb_R in H; try assumption. lra.
Qed.


Lemma SFadd_nonneg_le x c :
  valid_binary x = true -> valid_binary c = true ->
  SFproper x -> finite_or_zero c -> 0 <= SFR c ->
  SFleb x (SF64add x c) = true.
Proof.
  intros Vx Vc Px Fc Pc.
  destruct x as [sx|[|]| |sx mx ex] eqn:Ex; try contradiction.
  - rewrite <- Ex in *. apply (rounds_mono (SFR x) (SFR x + SFR c)).
    + apply valid_rounds; [assumption|rewrite Ex; exact I].
    + apply SFadd_rounds; try assumption. rewrite Ex; exact I.
    + lra.
  - rewrite SFadd_pinf_l; [reflexivity|].
    destruct c as [sc|sc| |sc mc ec]; try contradiction; exact I.
  - rewrite <- Ex in *. apply (rounds_mono (SFR x) (SFR x + SFR c)).
    + apply valid_rounds; [assumption|rewrite Ex; exact I].
    + apply SFadd_rounds; try assumption. rewrite Ex; exact I.
    + lra.
Qed.

Lemma SFmul_finite_not_nan x mc ec :
  x <> S754_nan -> SF64mul x (S754_finite false mc ec) <> S754_nan.
Proof.
  destruct x as [sx|sx| |sx mx ex]; intros N; try discriminate; [now elim N|].
  unfold SF64mul, SFmul.
  destruct (binary_round_aux_cases (xorb sx false) (Zpos (mx * mc)) (ex + ec) loc_Exact)
    as [E|[(m' & e' & E)|E]]; [lia|rewrite E; discriminate..].
Qed.

Lemma SFmul_pos_mono x x' mc ec :
  valid_binary x = true -> valid_binary x' = true ->
  valid_binary (S754_finite false mc ec) = true ->
  SFleb x x' = true ->
  SFleb (SF64mul x (S754_finite false mc ec)) (SF64mul x' (S754_finite false mc ec)) = true.
Proof.
  intros Vx Vx' Vc H. destruct (SFleb_not_nan _ _ H) as [Nx Nx'].
  pose proof (SFmul_finite_not_nan x mc ec Nx) as N.
  pose proof (SFmul_finite_not_nan x' mc ec Nx') as N'.
  destruct x as [sx|[|]| |sx mx ex] eqn:Ex; try (now elim Nx).
  2: { change (SF64mul (S754_infinity true) (S754_finite false mc ec))
         with (S754_infinity true). now apply SFleb_ninf. }
  2: { destruct x' as [sx'|[|]| |sx' mx' ex']; try discriminate H. reflexivity. }
  all: destruct x' as [sx'|[|]| |sx' mx' ex'] eqn:Ex'; try (now elim Nx');
    try (destruct sx; discriminate H); try discriminate H;
    try (change (SF64mul (S754_infinity false) (S754_finite false mc ec))
           with (S754_infinity false); now apply SFleb_pinf).
  all: rewrite <- Ex, <- Ex' in *;
    assert (Fx : finite_or_zero x) by (rewrite Ex; exact I);
    assert (Fx' : finite_or_zero x') by (rewrite Ex'; exact I);
    apply (rounds_mono (SFR x * SFR (S754_finite false mc ec))
             (SFR x' * SFR (S754_finite false mc ec)));
    try (apply SFmul_rounds; try assumption; exact I);
    apply SFleb_R in H; try assumption;
    pose proof (valid_value_lt _ _ _ Vc) as [Pc _]; rewrite SFR_finite; simpl signed;
    apply Rmult_le_compat_r; lra.
Qed.

Lemma SFR_one : SFR SFone = 1.
Proof.
  unfold SFR, SFone. cbn [cond_Zopp].
  change 4503599627370496%Z with (2 ^ 52)%Z.
  rewrite <- (bpow_IZR 52), <- bpow_add by lia. reflexivity.
Qed.

Lemma SFone_valid : valid_binary SFone = true.
Proof. vm_compute. reflexivity. Qed.

Lemma SFdiv_one_antitone d d' :
  valid_binary d = true -> valid_binary d' = true ->
  SFleb SFone d = true -> SFleb d d' = true ->
  SFleb (SF64div SFone d') (SF64div SFone d) = true.
Proof.
  intros Vd Vd' H1 H.
  assert (H1' : SFleb SFone d' = true) by (eapply SFleb_trans; eassumption).
  assert (D : d = S754_infinity false \/
              exists m e, d = S754_finite false m e /\ 1 <= SFR d).
  { destruct d as [s|[|]| |[|] m e]; try discriminate H1; [now left|right].
    exists m, e. split; [reflexivity|]. rewrite <- SFR_one.
    apply SFleb_R; try assumption; try exact I. apply SFone_valid. }
  assert (D' : d' = S754_infinity false \/
               exists m e, d' = S754_finite false m e /\ 1 <= SFR d').
  { destruct d' as [s|[|]| |[|] m e]; try discriminate H1'; [now left|right].
    exists m, e. split; [reflexivity|]. rewrite <- SFR_one.
    apply SFleb_R; try assumption; try exact I. apply SFone_valid. }
  destruct D' as [-> | (m' & e' & -> & B')].
  - change (SF64div SFone (S754_infinity false)) with (S754_zero false).
    destruct D as [-> | (m & e & -> & B)]; [reflexivity|].
    apply (rounds_mono 0 (SFR SFone / SFR (S754_finite false m e))).
    + left. split; [reflexivity|now exists false].
    + apply SFdiv_rounds; [apply SFone_valid|assumption].
    + rewrite SFR_one. apply Rlt_le, Rdiv_lt_0_compat; lra.
  - destruct D as [-> | (m & e & -> & B)]; [discriminate H|].
    apply (rounds_mono (SFR SFone / SFR (S754_finite false m' e'))
             (SFR SFone / SFR (S754_finite false m e))).
    + apply SFdiv_rounds; [apply SFone_valid|assumption].
    + apply SFdiv_rounds; [apply SFone_valid|assumption].
    + apply SFleb_R in H; try assumption; try exact I.
      rewrite SFR_one. unfold Rdiv. rewrite !Rmult_1_l.
      apply Rinv_le_contravar; lra.
Qed.

Lemma SFmax_valid : valid_binary SFmax = true.
Proof. vm_compute. reflexivity. Qed.

Lemma SFleb_max f :
  valid_binary f = true -> f <> S754_nan -> f <> S754_infinity false ->
  SFleb f SFmax = true.
Proof.
  intros V N Hi. destruct f as [s|[|]| |s m e] eqn:E; try reflexivity;
    try (now elim N); try (now elim Hi).
  apply SFleb_R; try assumption; try apply SFmax_valid; try exact I.
  unfold SFmax. rewrite !SFR_finite.
  pose proof (valid_finite_exponent _ _ _ V) as He.
  destruct (valid_finite _ _ _ V) as (E1 & D & _).
  pose proof (digits2_pos_bounds m) as [_ B].
  assert (M : (Zpos m <= 2 ^ 53 - 1)%Z).
  { assert (2 ^ Zpos (digits2_pos m) <= 2 ^ 53)%Z by (apply Z.pow_le_mono_r; lia). lia. }
  assert (P : 0 < IZR (Zpos m) * bpow e)
    by (apply Rmult_lt_0_compat; [now apply IZR_lt|apply bpow_pos]).
  assert (Q : IZR (Zpos m) * bpow e <= IZR (Zpos (2 ^ 53 - 1)) * bpow 971).
  { apply Rmult_le_compat; [apply IZR_le; lia|pose proof (bpow_pos e); lra| |apply bpow_le; lia].
    apply IZR_le. exact M. }
  unfold signed. destruct s; lra.
Qed.


Lemma SFdiv_one_pos m e :
  valid_binary (S754_finite false m e) = true ->
  SFltb (S754_zero false) (SF64div SFone (S754_finite false m e)) = true.
Proof.
  intros V.
  assert (H : SFleb SFmin (SF64div SFone (S754_finite false m e)) = true).
  { apply (rounds_mono (SFR SFmin) (SFR SFone / SFR (S754_finite false m e))).
    - apply valid_rounds; [vm_compute; reflexivity|exact I].
    - apply SFdiv_rounds; [apply SFone_valid|assumption].
    - rewrite SFR_one, SFR_finite. simpl signed.
      pose proof (valid_value_lt _ _ _ V) as [P Q].
      unfold SFmin, SFR. cbn [cond_Zopp]. rewrite Rmult_1_l.
      apply Rle_trans with (bpow (-1024)); [apply bpow_le; lia|].
      assert (B : bpow (-1024) * bpow 1024 = 1) by (rewrite <- bpow_add; reflexivity).
      pose proof (bpow_pos (-1024)) as B1. pose proof (bpow_pos 1024) as B2.
      generalize dependent (IZR (Zpos m) * bpow e). intros v P Q.
      apply Rmult_le_reg_r with v; [assumption|].
      replace (1 / v * v) with 1 by (field; lra).
      rewrite <- B. apply Rmult_le_compat_l; lra. }
  destruct (SF64div SFone (S754_finite false m e)) as [s|[|]| |[|] m' e'];
    try discriminate H; reflexivity.
Qed.

End SF64RealFacts.

(** ** Order and monotonicity of the binary64 operations *)

Module Float64OrderFacts.

Import SF64 SF64Facts SF64Range SF64RangeFacts SF64Real SF64RealFacts.
Import Float64Facts Float64RangeFacts Binary64Order.
Open Scope float_scope.

Lemma proper_not_nan x : proper x -> is_nan x = false.
Proof. intros P. apply is_nan_false. now apply SFproper_not_nan. Qed.

Lemma proper_of_leb c x : proper c -> (c <=? x) = true -> proper x.
Proof. unfold proper. rewrite leb_spec. apply SFproper_le. Qed.

Lemma leb_not_nan x y : (x <=? y) = true -> is_nan x = false /\ is_nan y = false.
Proof. rewrite leb_spec, !is_nan_false. apply SFleb_not_nan. Qed.

Lemma leb_refl x : is_nan x = false -> (x <=? x) = true.
Proof.
  rewrite is_nan_false, leb_spec. apply SFleb_refl. apply Prim2SF_valid.
Qed.

Lemma ltb_leb x y : (x <? y) = true -> (x <=? y) = true.
Proof.
  rewrite ltb_spec, leb_spec. unfold SFltb, SFleb.
  now destruct (SFcompare (Prim2SF x) (Prim2SF y)) as [[ | | ]|].
Qed.

Lemma ltb_not_leb x y : (x <? y) = true -> (y <=? x) = false.
Proof.
  rewrite ltb_spec, leb_spec. unfold SFltb, SFleb.
  rewrite (SFcompare_antisym (Prim2SF x) (Prim2SF y)).
  now destruct (SFcompare (Prim2SF x) (Prim2SF y)) as [[ | | ]|].
Qed.

Lemma leb_not_ltb x y : (x <=? y) = true -> (y <? x) = false.
Proof.
  rewrite ltb_spec, leb_spec. unfold SFltb, SFleb.
  rewrite (SFcompare_antisym (Prim2SF x) (Prim2SF y)).
  now destruct (SFcompare (Prim2SF x) (Prim2SF y)) as [[ | | ]|].
Qed.

Lemma ltb_leb_trans x y z : (x <? y) = true -> (y <=? z) = true -> (x <? z) = true.
Proof.
  intros H1 H2. destruct (x <? z) eqn:E; [reflexivity|].
  pose proof (leb_trans _ _ _ (ltb_leb _ _ H1) H2) as H3.
  destruct (leb_not_nan _ _ H3) as [Nx Nz].
  pose proof (leb_of_not_ltb _ _ Nx Nz E) as H4.
  pose proof (leb_trans _ _ _ H2 H4) as H5.
  rewrite (ltb_not_leb _ _ H1) in H5. discriminate H5.
Qed.

Lemma leb_ltb_trans x y z : (x <=? y) = true -> (y <? z) = true -> (x <? z) = true.
Proof.
  intros H1 H2. destruct (x <? z) eqn:E; [reflexivity|].
  pose proof (leb_trans _ _ _ H1 (ltb_leb _ _ H2)) as H3.
  destruct (leb_not_nan _ _ H3) as [Nx Nz].
  pose proof (leb_of_not_ltb _ _ Nx Nz E) as H4.
  pose proof (leb_trans _ _ _ H4 H1) as H5.
  rewrite (ltb_not_leb _ _ H2) in H5. discriminate H5.
Qed.

Lemma add_le_mono x x' y y' :
  proper x -> proper y -> (x <=? x') = true -> (y <=? y') = true ->
  (x + y <=? x' + y') = true.
Proof.
  unfold proper. rewrite !leb_spec, !add_spec.
  apply SFadd_mono; apply Prim2SF_valid.
Qed.

Lemma add_nonneg_le x c :
  proper x -> finite_or_zero (Prim2SF c) -> (0 <=? c) = true -> (x <=? x + c) = true.
Proof.
  unfold proper. intros Px Fc Pc. rewrite leb_spec, add_spec.
  apply SFadd_nonneg_le; try apply Prim2SF_valid; try assumption.
  rewrite leb_spec in Pc.
  exact (proj1 (SFleb_R (Prim2SF 0) (Prim2SF c) (Prim2SF_valid 0) (Prim2SF_valid c)
                  I Fc) Pc).
Qed.

Lemma opp_le x y : (x <=? y) = true -> (- y <=? - x) = true.
Proof.
  rewrite !leb_spec, !opp_spec. apply SFopp_le; apply Prim2SF_valid.
Qed.

Lemma sub_add_opp x y : x - y = x + - y.
Proof.
  apply Prim2SF_inj. rewrite sub_spec, add_spec, opp_spec. apply SFsub_add_opp.
Qed.

Lemma sub_le_mono x x' y y' :
  proper x -> proper (- y) -> (x <=? x') = true -> (y' <=? y) = true ->
  (x - y <=? x' - y') = true.
Proof.
  intros Px Py Hx Hy. rewrite !sub_add_opp.
  apply add_le_mono; try assumption. now apply opp_le.
Qed.

Lemma mul_pos_le_mono c x x' :
  match Prim2SF c with S754_finite false _ _ => True | _ => False end ->
  (x <=? x') = true -> (x * c <=? x' * c) = true.
Proof.
  intros Hc. rewrite !leb_spec, !mul_spec. pose proof (Prim2SF_valid c) as Vc.
  destruct (Prim2SF c) as [s|s| |[|] mc ec]; try contradiction.
  apply SFmul_pos_mono; try apply Prim2SF_valid. exact Vc.
Qed.

Lemma div_one_antitone d d' :
  (1 <=? d) = true -> (d <=? d') = true -> (1 / d' <=? 1 / d) = true.
Proof.
  rewrite !leb_spec, !div_spec, Prim2SF_one.
  apply SFdiv_one_antitone; apply Prim2SF_valid.
Qed.

Lemma div_one_pos d :
  (1 <=? d) = true -> (d <? infinity) = true -> (0 <? 1 / d) = true.
Proof.
  rewrite leb_spec, !ltb_spec, div_spec, Prim2SF_one. intros H1 H2.
  pose proof (Prim2SF_valid d) as V.
  destruct (Prim2SF d) as [s|[|]| |[|] m e]; try discriminate H1; try discriminate H2.
  now apply SFdiv_one_pos.
Qed.

Lemma leb_max x :
  (x <? infinity) = true -> (x <=? 0x1.fffffffffffffp+1023) = true.
Proof.
  rewrite ltb_spec, leb_spec. intros H.
  change (Prim2SF 0x1.fffffffffffffp+1023) with SFmax.
  apply SFleb_max; [apply Prim2SF_valid| |];
    intros E; rewrite E in H; discriminate H.
Qed.

End Float64OrderFacts.

(** ** The engine and the order of its inputs *)

Module EngineOrderFacts.

Import SF64Real SF64RealFacts Float64OrderFacts.
Import Float64Facts Float64RangeFacts.
Import Binary64 Binary64Facts Binary64Order.
Open Scope float_scope.

Ltac by_computation := vm_compute; first [reflexivity | exact I].

Lemma finite_proper t : finite_or_zero (Prim2SF t) -> proper t /\ proper (- t).
Proof.
  unfold proper. rewrite opp_spec.
  destruct (Prim2SF t); simpl; intros H; try contradiction; split; exact I.
Qed.

Lemma finite_not_nan t : finite_or_zero (Prim2SF t) -> is_nan t = false.
Proof. intros H. apply proper_not_nan. now apply finite_proper. Qed.

Lemma scaled_nonneg a k :
  (0 <? a) = true ->
  match Prim2SF k with S754_finite false _ _ => True | _ => False end ->
  (0 <=? a * k) = true.
Proof.
  intros Ha Hk. apply leb_of_not_ltb.
  - apply mul_pos_not_nan; [assumption|].
    destruct (Prim2SF k) as [s|s| |[|] m e]; try contradiction; exact I.
  - reflexivity.
  - now apply mul_pos_not_neg.
Qed.

(** A term that rises with its reading *)
Lemma rising_lower t k c x :
  match Prim2SF k with S754_finite false _ _ => True | _ => False end ->
  (c <=? 0) = true ->
  (c <=? (if t <? x then (x - t) * k else c)) = true.
Proof.
  intros Hk Hc. destruct (t <? x) eqn:A.
  - apply (leb_trans _ 0); [assumption|].
    apply scaled_nonneg; [|assumption]. now apply sub_pos_of_lt.
  - apply leb_refl. now destruct (leb_not_nan _ _ Hc).
Qed.

Lemma rising_mono t k c x x' :
  finite_or_zero (Prim2SF t) ->
  match Prim2SF k with S754_finite false _ _ => True | _ => False end ->
  (c <=? 0) = true -> (x <=? x') = true ->
  ((if t <? x then (x - t) * k else c)
   <=? (if t <? x' then (x' - t) * k else c)) = true.
Proof.
  intros Ht Hk Hc H. destruct (finite_proper t Ht) as [Pt Pt'].
  destruct (t <? x) eqn:A.
  - rewrite (ltb_leb_trans _ _ _ A H).
    apply mul_pos_le_mono; [assumption|].
    apply sub_le_mono; try assumption.
    + apply (proper_of_leb t); [assumption|now apply ltb_leb].
    + apply leb_refl. now apply finite_not_nan.
  - destruct (t <? x') eqn:B.
    + rewrite <- B. rewrite B.
      pose proof (rising_lower t k c x' Hk Hc) as L. now rewrite B in L.
    + apply leb_refl. now destruct (leb_not_nan _ _ Hc).
Qed.

(** A term that rises when its reading falls *)
Lemma falling_lower t k c x :
  match Prim2SF k with S754_finite false _ _ => True | _ => False end ->
  (c <=? 0) = true ->
  (c <=? (if x <? t then (t - x) * k else c)) = true.
Proof.
  intros Hk Hc. destruct (x <? t) eqn:A.
  - apply (leb_trans _ 0); [assumption|].
    apply scaled_nonneg; [|assumption]. now apply sub_pos_of_lt.
  - apply leb_refl. now destruct (leb_not_nan _ _ Hc).
Qed.

Lemma falling_mono t k c x x' :
  finite_or_zero (Prim2SF t) ->
  match Prim2SF k with S754_finite false _ _ => True | _ => False end ->
  (c <=? 0) = true -> (x' <=? x) = true ->
  ((if x <? t then (t - x) * k else c)
   <=? (if x' <? t then (t - x') * k else c)) = true.
Proof.
  intros Ht Hk Hc H. destruct (finite_proper t Ht) as [Pt Pt'].
  destruct (x <? t) eqn:A.
  - rewrite (leb_ltb_trans _ _ _ H A).
    apply mul_pos_le_mono; [assumption|].
    apply sub_le_mono; try assumption.
    + apply (proper_of_leb (- t)); [assumption|]. apply opp_le. now apply ltb_leb.
    + apply leb_refl. now apply finite_not_nan.
  - destruct (x' <? t) eqn:B.
    + pose proof (falling_lower t k c x' Hk Hc) as L. now rewrite B in L.
    + apply leb_refl. now destruct (leb_not_nan _ _ Hc).
Qed.

Lemma hrWeight_lower v : (-0.04 <=? hrWeight v) = true.
Proof. apply (rising_lower 100 0.009 (-0.04)); by_computation. Qed.

Lemma bpWeight_lower v : (-0.02 <=? bpWeight v) = true.
Proof. apply (falling_lower 90 0.015 (-0.02)); by_computation. Qed.

Lemma o2Weight_lower v : (-0.09 <=? o2Weight v) = true.
Proof. apply (falling_lower 94 0.05 (-0.09)); by_computation. Qed.

Lemma infWeight_lower v : (-0.03 <=? infWeight v) = true.
Proof. apply (rising_lower 3 0.08 (-0.03)); by_computation. Qed.

Lemma hrWeight_mono v v' :
  (heartRate v <=? heartRate v') = true -> (hrWeight v <=? hrWeight v') = true.
Proof. apply (rising_mono 100 0.009 (-0.04)); by_computation. Qed.

Lemma bpWeight_mono v v' :
  (bloodPressure v' <=? bloodPressure v) = true -> (bpWeight v <=? bpWeight v') = true.
Proof. apply (falling_mono 90 0.015 (-0.02)); by_computation. Qed.

Lemma o2Weight_mono v v' :
  (oxygen v' <=? oxygen v) = true -> (o2Weight v <=? o2Weight v') = true.
Proof. apply (falling_mono 94 0.05 (-0.09)); by_computation. Qed.

Lemma infWeight_mono v v' :
  (infectionMarker v <=? infectionMarker v') = true ->
  (infWeight v <=? infWeight v') = true.
Proof. apply (rising_mono 3 0.08 (-0.03)); by_computation. Qed.


(** The sum of the four vital terms *)
Lemma sum4_lower a b c d :
  (-0.04 <=? a) = true -> (-0.02 <=? b) = true ->
  (-0.09 <=? c) = true -> (-0.03 <=? d) = true ->
  (0 + -0.04 <=? 0 + a) = true /\
  (0 + -0.04 + -0.02 <=? 0 + a + b) = true /\
  (0 + -0.04 + -0.02 + -0.09 <=? 0 + a + b + c) = true /\
  (0 + -0.04 + -0.02 + -0.09 + -0.03 <=? 0 + a + b + c + d) = true.
Proof.
  intros Ha Hb Hc Hd.
  assert (H1 : (0 + -0.04 <=? 0 + a) = true)
    by (apply add_le_mono; [by_computation..|assumption]).
  assert (H2 : (0 + -0.04 + -0.02 <=? 0 + a + b) = true)
    by (apply add_le_mono; [by_computation..|assumption|assumption]).
  assert (H3 : (0 + -0.04 + -0.02 + -0.09 <=? 0 + a + b + c) = true)
    by (apply add_le_mono; [by_computation..|assumption|assumption]).
  assert (H4 : (0 + -0.04 + -0.02 + -0.09 + -0.03 <=? 0 + a + b + c + d) = true)
    by (apply add_le_mono; [by_computation..|assumption|assumption]).
  auto.
Qed.

Lemma sum4_mono a b c d a' b' c' d' :
  (-0.04 <=? a) = true -> (-0.02 <=? b) = true ->
  (-0.09 <=? c) = true -> (-0.03 <=? d) = true ->
  (a <=? a') = true -> (b <=? b') = true -> (c <=? c') = true -> (d <=? d') = true ->
  (0 + a + b + c + d <=? 0 + a' + b' + c' + d') = true.
Proof.
  intros La Lb Lc Ld Ha Hb Hc Hd.
  destruct (sum4_lower a b c d La Lb Lc Ld) as (L1 & L2 & L3 & L4).
  assert (Pa : proper a) by (apply (proper_of_leb (-0.04)); [by_computation|assumption]).
  assert (Pb : proper b) by (apply (proper_of_leb (-0.02)); [by_computation|assumption]).
  assert (Pc : proper c) by (apply (proper_of_leb (-0.09)); [by_computation|assumption]).
  assert (Pd : proper d) by (apply (proper_of_leb (-0.03)); [by_computation|assumption]).
  apply add_le_mono; try assumption;
    [apply (proper_of_leb (0 + -0.04 + -0.02 + -0.09)); [by_computation|assumption]|].
  apply add_le_mono; try assumption;
    [apply (proper_of_leb (0 + -0.04 + -0.02)); [by_computation|assumption]|].
  apply add_le_mono; try assumption;
    [apply (proper_of_leb (0 + -0.04)); [by_computation|assumption]|].
  apply add_le_mono; try assumption; by_computation.
Qed.

(** A symptom term *)
Lemma symptom_step c (p p' : bool) x x' :
  finite_or_zero (Prim2SF c) -> (0 <=? c) = true ->
  proper x -> (x <=? x') = true -> (p = true -> p' = true) ->
  ((if p then x + c else x) <=? (if p' then x' + c else x')) = true.
Proof.
  intros Fc Pc Px H I. destruct (finite_proper c Fc) as [Qc _].
  destruct p.
  - rewrite (I eq_refl). apply add_le_mono; try assumption.
    apply leb_refl. now apply finite_not_nan.
  - destruct p'; [|assumption].
    apply (leb_trans _ x'); [assumption|].
    apply add_nonneg_le; try assumption. now apply (proper_of_leb x).
Qed.

Lemma symptom_step_lower c (p : bool) x :
  finite_or_zero (Prim2SF c) -> (0 <=? c) = true -> proper x ->
  (x <=? (if p then x + c else x)) = true.
Proof.
  intros Fc Pc Px. destruct p.
  - now apply add_nonneg_le.
  - apply leb_refl. now apply proper_not_nan.
Qed.

(** The argument of the sigmoid *)
Lemma sumPhi_pushed v s : sumPhi (pushed v s) = logOdds v s.
Proof. unfold sumPhi, pushed, logOdds. now destruct (pain s), (breathless s). Qed.

Lemma logOdds_proper v s :
  (0 + -0.04 + -0.02 + -0.09 + -0.03 <=? logOdds v s) = true.
Proof.
  unfold logOdds.
  destruct (sum4_lower _ _ _ _ (hrWeight_lower v) (bpWeight_lower v)
              (o2Weight_lower v) (infWeight_lower v)) as (_ & _ & _ & L4).
  set (l4 := 0 + hrWeight v + bpWeight v + o2Weight v + infWeight v) in *.
  assert (P4 : proper l4)
    by (apply (proper_of_leb (0 + -0.04 + -0.02 + -0.09 + -0.03));
        [by_computation|assumption]).
  assert (L5 : (l4 <=? (if pain s then l4 + 0.14 else l4)) = true)
    by (apply symptom_step_lower; [by_computation..|assumption]).
  set (l5 := if pain s then l4 + 0.14 else l4) in *.
  assert (P5 : proper l5) by now apply (proper_of_leb l4).
  assert (L6 : (l5 <=? (if breathless s then l5 + 0.25 else l5)) = true)
    by (apply symptom_step_lower; [by_computation..|assumption]).
  eapply leb_trans; [exact L4|]. eapply leb_trans; [exact L5|exact L6].
Qed.

Lemma logOdds_nonneg v s : (0 <=? logOdds v s + 0.18) = true.
Proof.
  apply (leb_trans _ (0 + -0.04 + -0.02 + -0.09 + -0.03 + 0.18)); [by_computation|].
  apply add_le_mono; [by_computation..|apply logOdds_proper|by_computation].
Qed.

Lemma logOdds_mono v v' s s' :
  (hrWeight v <=? hrWeight v') = true ->
  (bpWeight v <=? bpWeight v') = true ->
  (o2Weight v <=? o2Weight v') = true ->
  (infWeight v <=? infWeight v') = true ->
  (pain s = true -> pain s' = true) ->
  (breathless s = true -> breathless s' = true) ->
  (logOdds v s + 0.18 <=? logOdds v' s' + 0.18) = true.
Proof.
  intros Hh Hb Ho Hi Ip Ib.
  pose proof (logOdds_proper v s) as LP.
  apply add_le_mono;
    [apply (proper_of_leb (0 + -0.04 + -0.02 + -0.09 + -0.03));
     [by_computation|assumption]|by_computation| |by_computation].
  unfold logOdds.
  destruct (sum4_lower _ _ _ _ (hrWeight_lower v) (bpWeight_lower v)
              (o2Weight_lower v) (infWeight_lower v)) as (_ & _ & _ & L4).
  pose proof (sum4_mono _ _ _ _ _ _ _ _ (hrWeight_lower v) (bpWeight_lower v)
                (o2Weight_lower v) (infWeight_lower v)
                Hh Hb Ho Hi) as M4.
  set (l4 := 0 + hrWeight v + bpWeight v + o2Weight v + infWeight v) in *.
  set (l4' := 0 + hrWeight v' + bpWeight v' + o2Weight v' + infWeight v') in *.
  assert (P4 : proper l4)
    by (apply (proper_of_leb (0 + -0.04 + -0.02 + -0.09 + -0.03));
        [by_computation|assumption]).
  assert (M5 : ((if pain s then l4 + 0.14 else l4)
                <=? (if pain s' then l4' + 0.14 else l4')) = true)
    by (apply symptom_step; [by_computation..|assumption|assumption|assumption]).
  assert (L5 : (l4 <=? (if pain s then l4 + 0.14 else l4)) = true)
    by (apply symptom_step_lower; [by_computation..|assumption]).
  set (l5 := if pain s then l4 + 0.14 else l4) in *.
  set (l5' := if pain s' then l4' + 0.14 else l4') in *.
  assert (P5 : proper l5) by now apply (proper_of_leb l4).
  apply symptom_step; [by_computation..|assumption|assumption|assumption].
Qed.

(** The sigmoid *)
Section Sigmoid.

Variable exp : float -> float.

Lemma sigmoid_argument x : (0 <=? x) = true -> (- x <=? 0) = true.
Proof.
  intros H. apply (leb_trans _ (- 0)); [now apply opp_le|by_computation].
Qed.

Lemma sigmoid_mono x x' :
  (forall a b, (a <=? b) = true -> (b <=? 0) = true ->
               (0 <=? exp a) = true /\ (exp a <=? exp b) = true) ->
  (0 <=? x) = true -> (x <=? x') = true ->
  (sigmoid exp x <=? sigmoid exp x') = true.
Proof.
  intros Hexp P H. unfold sigmoid.
  destruct (Hexp (- x') (- x) (opp_le _ _ H) (sigmoid_argument x P)) as [E1 E2].
  apply div_one_antitone; [now apply one_add_ge|].
  apply add_le_mono; try assumption; try by_computation.
  apply (proper_of_leb 0); [by_computation|assumption].
Qed.

Lemma sigmoid_at_least_half x :
  (forall a, (a <=? 0) = true -> (0 <=? exp a) = true /\ (exp a <=? 1) = true) ->
  (0 <=? x) = true -> (0.5 <=? sigmoid exp x) = true.
Proof.
  intros Hexp P. unfold sigmoid.
  destruct (Hexp (- x) (sigmoid_argument x P)) as [E1 E2].
  apply (leb_trans _ (1 / (1 + 1))); [by_computation|].
  apply div_one_antitone; [now apply one_add_ge|].
  apply add_le_mono; try assumption; try by_computation.
  apply (proper_of_leb 0); [by_computation|assumption].
Qed.

Lemma sigmoid_positive x :
  (forall a, (a <=? 0) = true ->
             (0 <=? exp a) = true /\ (exp a <? infinity) = true) ->
  (0 <=? x) = true ->
  (0 <? sigmoid exp x) = true /\ (sigmoid exp x <=? 1) = true.
Proof.
  intros Hexp P. unfold sigmoid.
  destruct (Hexp (- x) (sigmoid_argument x P)) as [E1 E2].
  pose proof (one_add_ge _ E1) as D1. split.
  - apply div_one_pos; [assumption|].
    apply (leb_ltb_trans _ (1 + 0x1.fffffffffffffp+1023)); [|by_computation].
    apply add_le_mono; try by_computation.
    + apply (proper_of_leb 0); [by_computation|assumption].
    + now apply leb_max.
  - now apply one_div_unit.
Qed.

Lemma sigmoid_below x :
  (forall a, (-0.4 <=? a) = true -> (0.67 <=? exp a) = true) ->
  (x <=? 0.4) = true -> (sigmoid exp x <? 0.6) = true.
Proof.
  intros Hexp H. unfold sigmoid.
  assert (E : (0.67 <=? exp (- x)) = true) by (apply Hexp; now apply (opp_le x 0.4)).
  apply (leb_ltb_trans _ (1 / (1 + 0.67))); [|by_computation].
  apply div_one_antitone; [by_computation|].
  apply add_le_mono; try assumption; by_computation.
Qed.

End Sigmoid.

(** [expLinear] *)
Lemma expLinear_nonneg x : is_nan x = false -> (0 <=? expLinear x) = true.
Proof.
  intros N. unfold expLinear. destruct (x <? -2) eqn:A; [reflexivity|].
  pose proof (leb_of_not_ltb x (-2) N eq_refl A) as B.
  apply (leb_trans _ (1 + -2 * 0.5)); [by_computation|].
  apply add_le_mono; try by_computation.
  now apply mul_pos_le_mono.
Qed.

Lemma expLinear_mono x y : (x <=? y) = true -> (expLinear x <=? expLinear y) = true.
Proof.
  intros H. destruct (leb_not_nan _ _ H) as [Nx Ny].
  unfold expLinear. destruct (x <? -2) eqn:A.
  - destruct (y <? -2) eqn:B; [reflexivity|].
    pose proof (expLinear_nonneg y Ny) as P. unfold expLinear in P. now rewrite B in P.
  - pose proof (leb_of_not_ltb x (-2) Nx eq_refl A) as A'.
    assert (B : (y <? -2) = false).
    { destruct (y <? -2) eqn:B; [|reflexivity].
      rewrite (leb_ltb_trans _ _ _ H B) in A. discriminate A. }
    rewrite B. apply add_le_mono; try by_computation.
    + apply (proper_of_leb (-2 * 0.5)); [by_computation|].
      now apply mul_pos_le_mono.
    + now apply mul_pos_le_mono.
Qed.

Lemma expLinear_at_most_one x : (x <=? 0) = true -> (expLinear x <=? 1) = true.
Proof.
  intros H. apply (leb_trans _ (expLinear 0)); [|by_computation].
  now apply expLinear_mono.
Qed.

Lemma expLinear_lower x : (-0.4 <=? x) = true -> (0.67 <=? expLinear x) = true.
Proof.
  intros H. apply (leb_trans _ (expLinear (-0.4))); [by_computation|].
  now apply expLinear_mono.
Qed.

(** *** The probability *)

Lemma probability_logOdds exp v s :
  probability (runXaiInference exp v s) = sigmoid exp (logOdds v s + 0.18).
Proof. now rewrite probability_run, sumPhi_pushed. Qed.

Lemma expLinear_monotone a b :
  (a <=? b) = true -> (b <=? 0) = true ->
  (0 <=? expLinear a) = true /\ (expLinear a <=? expLinear b) = true.
Proof.
  intros H _. split; [|now apply expLinear_mono].
  apply expLinear_nonneg. now destruct (leb_not_nan _ _ H).
Qed.

Lemma expLinear_unit a :
  (a <=? 0) = true -> (0 <=? expLinear a) = true /\ (expLinear a <=? 1) = true.
Proof.
  intros H. split; [|now apply expLinear_at_most_one].
  apply expLinear_nonneg. now destruct (leb_not_nan _ _ H).
Qed.

Lemma expLinear_finite a :
  (a <=? 0) = true ->
  (0 <=? expLinear a) = true /\ (expLinear a <? infinity) = true.
Proof.
  intros H. destruct (expLinear_unit a H) as [P Q]. split; [assumption|].
  apply (leb_ltb_trans _ 1); [assumption|by_computation].
Qed.

Lemma probability_mono exp v v' s s' :
  (forall a b, (a <=? b) = true -> (b <=? 0) = true ->
               (0 <=? exp a) = true /\ (exp a <=? exp b) = true) ->
  (hrWeight v <=? hrWeight v') = true ->
  (bpWeight v <=? bpWeight v') = true ->
  (o2Weight v <=? o2Weight v') = true ->
  (infWeight v <=? infWeight v') = true ->
  (pain s = true -> pain s' = true) ->
  (breathless s = true -> breathless s' = true) ->
  (probability (runXaiInference exp v s)
   <=? probability (runXaiInference exp v' s')) = true.
Proof.
  intros Hexp Hh Hb Ho Hi Ip Ib. rewrite !probability_logOdds.
  apply sigmoid_mono; [assumption|apply logOdds_nonneg|].
  now apply logOdds_mono.
Qed.

(** C7, amended.  The probability returned is a number [p] with
    [0 < p <= 1], for all vitals (NaN and infinities included), as soon as
    [Math.exp] returns a non-negative finite number on the arguments up to
    [0], which are the only ones the engine passes. *)
Theorem probability_positive_at_most_one exp v s :
  (forall a, (a <=? 0) = true ->
             (0 <=? exp a) = true /\ (exp a <? infinity) = true) ->
  let p := probability (runXaiInference exp v s) in
  (0 <? p) = true /\ (p <=? 1) = true.
Proof.
  intros Hexp p. unfold p. rewrite probability_logOdds.
  apply sigmoid_positive; [assumption|apply logOdds_nonneg].
Qed.

Lemma probability_positive_at_most_one_witness :
  let p := probability (runXaiInference expLinear racingVitals noSymptoms) in
  (0 <? p) = true /\ (p <=? 1) = true.
Proof.
  exact (probability_positive_at_most_one expLinear racingVitals noSymptoms
           expLinear_finite).
Defined.



(** The engine never reports a risk below one half, as soon as [Math.exp]
    stays between [0] and [1] on the arguments up to [0]: the four normal
    constants add up to the opposite of the base value, and every other
    term is larger. *)
Theorem probability_at_least_half exp v s :
  (forall a, (a <=? 0) = true -> (0 <=? exp a) = true /\ (exp a <=? 1) = true) ->
  (0.5 <=? probability (runXaiInference exp v s)) = true.
Proof.
  intros Hexp. rewrite probability_logOdds.
  apply sigmoid_at_least_half; [assumption|apply logOdds_nonneg].
Qed.

Lemma probability_at_least_half_witness :
  (0.5 <=? probability (runXaiInference expLinear criticalVitals noSymptoms)) = true.
Proof.
  exact (probability_at_least_half expLinear criticalVitals noSymptoms expLinear_unit).
Defined.

(** The probability returned is monotone in every input the engine reads:
    it does not decrease when the heart rate or the infection marker
    rises, when the blood pressure or the oxygen saturation falls, or when
    a symptom flag is raised, as soon as [Math.exp] is non-negative and
    monotone on the arguments up to [0]. *)
Theorem probability_monotone exp v v' s s' :
  (forall a b, (a <=? b) = true -> (b <=? 0) = true ->
               (0 <=? exp a) = true /\ (exp a <=? exp b) = true) ->
  (heartRate v <=? heartRate v') = true ->
  (bloodPressure v' <=? bloodPressure v) = true ->
  (oxygen v' <=? oxygen v) = true ->
  (infectionMarker v <=? infectionMarker v') = true ->
  (pain s = true -> pain s' = true) ->
  (breathless s = true -> breathless s' = true) ->
  (probability (runXaiInference exp v s)
   <=? probability (runXaiInference exp v' s')) = true.
Proof.
  intros Hexp Hh Hb Ho Hi Ip Ib.
  apply probability_mono; try assumption.
  - now apply hrWeight_mono.
  - now apply bpWeight_mono.
  - now apply o2Weight_mono.
  - now apply infWeight_mono.
Qed.

Lemma probability_monotone_witness :
  (probability (runXaiInference expLinear restingVitals noSymptoms)
   <=? probability
         (runXaiInference expLinear criticalVitals
            {| pain := true; breathless := false |})) = true.
Proof.
  apply probability_monotone;
    try exact expLinear_monotone; try reflexivity; discriminate.
Defined.

(** With the four scored vitals in their normal branch the banner never
    shows "Clinical Emergency", whatever the symptoms: the two symptom
    terms alone leave the probability below the 0.6 threshold, as soon as
    [Math.exp] is at least [0.67] from [-0.4] on (the exponential is
    [0.6703...] at [-0.4]). *)
Theorem symptoms_alone_stay_stable exp v s :
  (forall a, (-0.4 <=? a) = true -> (0.67 <=? exp a) = true) ->
  (heartRate v >? 100) = false -> (bloodPressure v <? 90) = false ->
  (oxygen v <? 94) = false -> (infectionMarker v >? 3) = false ->
  Banner.isEmergency (probability (runXaiInference exp v s)) = false.
Proof.
  intros Hexp Hh Hb Ho Hi. unfold Banner.isEmergency.
  apply leb_not_ltb, ltb_leb. rewrite probability_logOdds.
  apply sigmoid_below; [assumption|].
  unfold logOdds, hrWeight, bpWeight, o2Weight, infWeight.
  rewrite Hh, Hb, Ho, Hi. destruct (pain s), (breathless s); by_computation.
Qed.

Lemma symptoms_alone_stay_stable_witness :
  Banner.isEmergency
    (probability
       (runXaiInference expLinear restingVitals {| pain := true; breathless := true |}))
  = false.
Proof.
  apply symptoms_alone_stay_stable; try reflexivity. exact expLinear_lower.
Defined.

End EngineOrderFacts.

(** ** The audit history: properties *)

Module HistoryFacts.

Import JsArray JsArrayFacts Float64RangeFacts Binary64 History.
Open Scope string_scope.
Open Scope float_scope.

Lemma secondsOrZero_not_nan x : is_nan (secondsOrZero x) = false.
Proof.
  destruct x as [s|]; simpl; [|reflexivity].
  destruct (s =? 0); simpl; [reflexivity|].
  destruct (is_nan s) eqn:N; [reflexivity|exact N].
Qed.

Lemma precedes_filter {A : Type} (f : A -> bool) (a b : A) (l : list A) :
  precedes a b l -> f a = true -> f b = true -> precedes a b (filter f l).
Proof.
  intros (l1 & l2 & l3 & ->) Ha Hb.
  exists (filter f l1), (filter f l2), (filter f l3).
  rewrite filter_app. simpl. rewrite Ha, filter_app. simpl. now rewrite Hb.
Qed.

Lemma precedes_total {A : Type} (a b : A) (l : list A) :
  In a l -> In b l -> a <> b -> precedes a b l \/ precedes b a l.
Proof.
  induction l as [|x l IH]; intros Ha Hb Hab; [contradiction|].
  destruct Ha as [->|Ha], Hb as [->|Hb].
  - now elim Hab.
  - left. now apply precedes_here.
  - right. now apply precedes_here.
  - destruct (IH Ha Hb Hab); [left|right]; now apply precedes_later.
Qed.

Lemma StronglySorted_precedes {A : Type} (R : A -> A -> Prop) (a b : A) (l : list A) :
  StronglySorted R l -> precedes a b l -> R a b.
Proof.
  induction 1 as [|x l Hs IH Hf]; intros H.
  - destruct H as (l1 & l2 & l3 & E). now destruct l1.
  - destruct (precedes_cons_inv _ _ _ _ H) as [[-> Hb]|H'].
    + rewrite Forall_forall in Hf. now apply Hf.
    + now apply IH.
Qed.

Lemma positive_not_leb_zero x : (0 <? x) = true -> (x <=? 0) = false.
Proof.
  rewrite ltb_spec, leb_spec. unfold SFltb, SFleb.
  rewrite (SF64Facts.SFcompare_antisym (Prim2SF 0) (Prim2SF x)).
  destruct (SFcompare (Prim2SF 0) (Prim2SF x)) as [[ | | ]|]; simpl; congruence.
Qed.

(** The history shown is made of the signed-in user's documents, all of
    them and no other. *)
Theorem history_is_the_users_documents uid docs :
  Permutation (filter (fun d => String.eqb (userId d) uid) docs)
    (userHistory uid docs) /\
  (forall d, In d (userHistory uid docs) <-> In d docs /\ userId d = uid).
Proof.
  split; [apply sort_perm|].
  intros d. unfold userHistory. rewrite sort_In, filter_In, String.eqb_eq.
  reflexivity.
Qed.

(** The history is ordered by descending [timestamp.seconds], a missing
    timestamp counting as 0. *)
Theorem history_newest_first uid docs :
  StronglySorted
    (fun a b => (secondsOrZero (timestamp b) <=? secondsOrZero (timestamp a)) = true)
    (userHistory uid docs).
Proof.
  apply (sort_by_key_descending (fun d => secondsOrZero (timestamp d))).
  intros d. apply secondsOrZero_not_nan.
Qed.

(** Two documents of the user with the same seconds keep the order they
    have in the snapshot. *)
Theorem history_is_stable uid docs a b :
  precedes a b docs -> userId a = uid -> userId b = uid ->
  secondsOrZero (timestamp a) = secondsOrZero (timestamp b) ->
  precedes a b (userHistory uid docs).
Proof.
  intros H Ha Hb E. apply sort_stable.
  - apply precedes_filter; [assumption|now apply String.eqb_eq..].
  - unfold newestFirst. rewrite E. apply Float64Facts.sub_diag_not_pos.
Qed.

Lemma history_is_stable_witness :
  let a := {| id := "a1"; userId := "u1"; timestamp := Some 1700000000;
              risk := 0.5; vitals := restingVitals; symptoms := noSymptoms;
              mode := "Prod" |} in
  let b := {| id := "b2"; userId := "u1"; timestamp := Some 1700000000;
              risk := 1; vitals := racingVitals; symptoms := noSymptoms;
              mode := "Sim" |} in
  let c := {| id := "c3"; userId := "u2"; timestamp := Some 1800000000;
              risk := 0.5; vitals := restingVitals; symptoms := noSymptoms;
              mode := "Prod" |} in
  precedes a b (userHistory "u1" [a; c; b]).
Proof.
  intros a b c. apply history_is_stable; try reflexivity.
  exists [], [c], []. reflexivity.
Defined.

(** A document whose timestamp is missing, as the one just saved is until
    the server has set it, is listed after every document of the user that
    has a positive timestamp. *)
Theorem pending_documents_come_last uid docs a b :
  In a docs -> In b docs -> userId a = uid -> userId b = uid ->
  timestamp a = None -> (0 <? secondsOrZero (timestamp b)) = true ->
  precedes b a (userHistory uid docs).
Proof.
  intros Ia Ib Ua Ub Ta Tb.
  assert (Hab : a <> b).
  { intros ->. rewrite Ta in Tb. discriminate Tb. }
  assert (Ha : In a (userHistory uid docs))
    by (apply history_is_the_users_documents; now split).
  assert (Hb : In b (userHistory uid docs))
    by (apply history_is_the_users_documents; now split).
  destruct (precedes_total a b _ Ha Hb Hab) as [H|H]; [|exact H].
  pose proof (StronglySorted_precedes _ _ _ _ (history_newest_first uid docs) H) as R.
  cbv beta in R. rewrite Ta in R. simpl secondsOrZero in R.
  rewrite (positive_not_leb_zero _ Tb) in R. discriminate R.
Qed.

Lemma pending_documents_come_last_witness :
  let a := {| id := "new"; userId := "u1"; timestamp := None;
              risk := 1; vitals := racingVitals; symptoms := noSymptoms;
              mode := "Prod" |} in
  let b := {| id := "old"; userId := "u1"; timestamp := Some 1700000000;
              risk := 0.5; vitals := restingVitals; symptoms := noSymptoms;
              mode := "Prod" |} in
  precedes b a (userHistory "u1" [a; b]).
Proof.
  intros a b.
  apply pending_documents_come_last; try reflexivity; simpl; tauto.
Defined.

End HistoryFacts.

(** ** The clinical console: properties *)

Module ChatFacts.

Import Binary64 Binary64Facts Chat.
Open Scope string_scope.
Open Scope list_scope.

Lemma prefix_app (sub post : string) : String.prefix sub (sub ++ post)%string = true.
Proof.
  induction sub as [|c sub IH]; simpl.
  - now destruct post.
  - destruct (Ascii.ascii_dec c c) as [_|N]; [exact IH|now elim N].
Qed.

Lemma prefix_inv (sub s : string) :
  String.prefix sub s = true -> exists post, s = (sub ++ post)%string.
Proof.
  revert s. induction sub as [|c sub IH]; intros s H.
  - now exists s.
  - destruct s as [|c' s]; simpl in H; [discriminate|].
    destruct (Ascii.ascii_dec c c') as [E|]; [subst c'|discriminate].
    destruct (IH _ H) as [post ->]. now exists post.
Qed.

Lemma includes_eq (s sub : string) :
  includes s sub
  = if String.prefix sub s then true
    else match s with
         | EmptyString => false
         | String _ s' => includes s' sub
         end.
Proof. destruct s; reflexivity. Qed.

(** [includes] finds the substrings. *)
Lemma includes_spec (s sub : string) :
  includes s sub = true <-> exists pre post, s = (pre ++ sub ++ post)%string.
Proof.
  split.
  - induction s as [|c s IH]; rewrite includes_eq.
    + destruct (String.prefix sub "") eqn:P; [|discriminate]. intros _.
      destruct (prefix_inv _ _ P) as [post E]. now exists "", post.
    + destruct (String.prefix sub (String c s)) eqn:P.
      * intros _. destruct (prefix_inv _ _ P) as [post E]. now exists "", post.
      * intros H. destruct (IH H) as (pre & post & ->).
        now exists (String c pre), post.
  - intros (pre & post & ->). induction pre as [|c pre IH].
    + change ("" ++ sub ++ post)%string with (sub ++ post)%string.
      now rewrite includes_eq, prefix_app.
    + change (String c pre ++ sub ++ post)%string
        with (String c (pre ++ sub ++ post))%string.
      rewrite includes_eq, IH. now destruct (String.prefix _ _).
Qed.

Lemma symptoms_handleChat trim toLowerCase input o st :
  symptoms (handleChat trim toLowerCase input o st)
  = if String.eqb (trim input) "" then symptoms st
    else
      let symptoms1 :=
        if includes (toLowerCase input) "pain"
        then {| pain := true; breathless := breathless (symptoms st) |}
        else symptoms st in
      if includes (toLowerCase input) "breath"
      then {| pain := pain symptoms1; breathless := true |}
      else symptoms1.
Proof.
  unfold handleChat. destruct (String.eqb (trim input) ""); [reflexivity|].
  now destruct (replyText o).
Qed.



(** [handleChat] leaves the state as it is exactly when the trimmed input
    is empty. *)
Theorem only_blank_input_is_ignored trim toLowerCase input o st :
  handleChat trim toLowerCase input o st = st <->
  String.eqb (trim input) "" = true.
Proof.
  unfold handleChat. destruct (String.eqb (trim input) ""); [tauto|].
  split; [|discriminate]. intros H.
  apply (f_equal chat), (f_equal (@List.length Message)) in H.
  destruct (replyText o); cbn [chat] in H; rewrite !length_app in H; simpl in H; lia.
Qed.



(** The console sets symptom flags and never clears one. *)
Theorem chat_never_clears_a_symptom trim toLowerCase input o st :
  let st' := handleChat trim toLowerCase input o st in
  pain (symptoms st') = pain (symptoms st) || pain (symptoms st') /\
  breathless (symptoms st') = breathless (symptoms st) || breathless (symptoms st').
Proof.
  cbv zeta. rewrite symptoms_handleChat.
  destruct (String.eqb (trim input) ""), (includes (toLowerCase input) "pain"),
    (includes (toLowerCase input) "breath"), (symptoms st) as [[|] [|]];
    split; reflexivity.
Qed.

(** A message flags a symptom as soon as its lower-cased text contains the
    key word anywhere, inside a longer word or after a negation as well. *)
Theorem any_mention_sets_the_flag trim toLowerCase input o st pre post :
  String.eqb (trim input) "" = false ->
  let st' := handleChat trim toLowerCase input o st in
  (toLowerCase input = (pre ++ "pain" ++ post)%string -> pain (symptoms st') = true) /\
  (toLowerCase input = (pre ++ "breath" ++ post)%string ->
   breathless (symptoms st') = true).
Proof.
  intros H. cbv zeta. rewrite symptoms_handleChat, H. split; intros E.
  - assert (I : includes (toLowerCase input) "pain" = true)
      by (apply includes_spec; eauto).
    rewrite I. now destruct (includes (toLowerCase input) "breath").
  - assert (I : includes (toLowerCase input) "breath" = true)
      by (apply includes_spec; eauto).
    rewrite I. reflexivity.
Qed.

Lemma any_mention_sets_the_flag_witness :
  pain (symptoms (handleChat asciiTrim asciiToLowerCase "No pain today." Failed initial))
  = true.
Proof.
  apply (any_mention_sets_the_flag asciiTrim asciiToLowerCase "No pain today." Failed
           initial "no " " today.");
    reflexivity.
Defined.

(** The engine run on the symptoms the console leaves has the term of every
    symptom the message mentions. *)
Theorem mentioned_symptoms_enter_the_score trim toLowerCase exp v input o st :
  String.eqb (trim input) "" = false ->
  let st' := handleChat trim toLowerCase input o st in
  let r := shapValues (runXaiInference exp v (symptoms st')) in
  (includes (toLowerCase input) "pain" = true -> phiOf "Pain Index" r = [0.14%float]) /\
  (includes (toLowerCase input) "breath" = true ->
   phiOf "Resp. Distress" r = [0.25%float]).
Proof.
  intros H. cbv zeta. rewrite symptoms_handleChat, H.
  split; intros I; rewrite phiOf_run, I; unfold pushed.
  - destruct (includes (toLowerCase input) "breath"); cbn [pain breathless];
      destruct (breathless (symptoms st)); reflexivity.
  - cbn [pain breathless].
    destruct (includes (toLowerCase input) "pain"); cbn [pain];
      [|destruct (pain (symptoms st))]; reflexivity.
Qed.

Lemma mentioned_symptoms_enter_the_score_witness :
  let st' := handleChat asciiTrim asciiToLowerCase "Short of BREATH, chest pain" Failed
               initial in
  let r := shapValues (runXaiInference expReference restingVitals (symptoms st')) in
  phiOf "Pain Index" r = [0.14%float] /\ phiOf "Resp. Distress" r = [0.25%float].
Proof.
  intros st' r.
  destruct (mentioned_symptoms_enter_the_score asciiTrim asciiToLowerCase expReference
              restingVitals "Short of BREATH, chest pain" Failed initial
              ltac:(reflexivity)) as [Hp Hb].
  split; [apply Hp|apply Hb]; reflexivity.
Defined.

End ChatFacts.

(** ** The onboarding wizard: properties *)

Module OnboardingFacts.

Import Onboarding.
Open Scope Z_scope.

Section Wizard.

Variable parseInt : string -> float.

Lemma clicks_change value evs : clicks (Change value :: evs) = clicks evs.
Proof. reflexivity. Qed.

Lemma clicks_click writeOk evs : clicks (Click writeOk :: evs) = S (clicks evs).
Proof. reflexivity. Qed.

Lemma currentStep_defined st :
  1 <= step st <= 3 -> exists cs, currentStep st = Some cs.
Proof.
  intros H. unfold currentStep.
  assert (E : step st = 1 \/ step st = 2 \/ step st = 3) by lia.
  destruct E as [-> | [-> | ->]]; eexists; reflexivity.
Qed.

Lemma run_invariant evs : forall st,
  1 <= step st <= 3 ->
  exists st',
    run parseInt evs st = Some st' /\
    step st' = Z.min (step st + Z.of_nat (clicks evs)) 3 /\
    (step st + Z.of_nat (clicks evs) <= 3 \/ no_write_succeeds evs = true ->
     written st' = written st /\ completed st' = completed st) /\
    (consistent st -> consistent st').
Proof.
  induction evs as [|ev evs IH]; intros st Hst.
  - exists st. simpl. repeat split; try tauto. lia.
  - destruct (currentStep_defined st Hst) as [cs Hcs].
    cbn [run]. unfold handle. rewrite Hcs. destruct ev as [value|writeOk].
    + destruct (IH {| step := step st;
                      data := setField (k cs) (parseInt value) (data st);
                      written := written st; completed := completed st |} Hst)
        as (st' & Hr & Hs & Hw & Hc).
      exists st'. rewrite clicks_change. cbn [step written completed] in *.
      repeat split; try tauto.
    + rewrite clicks_click, Nat2Z.inj_succ. unfold onClick.
      destruct (step st <? 3) eqn:E.
      * apply Z.ltb_lt in E.
        destruct (IH {| step := step st + 1; data := data st;
                        written := written st; completed := completed st |})
          as (st' & Hr & Hs & Hw & Hc); [cbn [step]; lia|].
        exists st'. cbn [step written completed] in *.
        repeat split; try tauto; [rewrite Hs; f_equal; lia|..];
          apply Hw; (destruct H as [H|H]; [left; lia|right]);
          unfold no_write_succeeds in *; cbn [forallb] in H;
          apply andb_prop in H; tauto.
      * apply Z.ltb_ge in E.
        destruct (IH (finish writeOk st)) as (st' & Hr & Hs & Hw & Hc);
          [unfold finish; destruct writeOk; cbn [step]; lia|].
        assert (S3 : step (finish writeOk st) = step st)
          by (unfold finish; now destruct writeOk).
        exists st'. rewrite S3 in Hs.
        assert (F : no_write_succeeds (Click writeOk :: evs) = true ->
                    finish writeOk st = st /\ no_write_succeeds evs = true).
        { unfold no_write_succeeds. cbn [forallb]. intros H.
          apply andb_prop in H as [H1 H2]. destruct writeOk; [discriminate|].
          now split. }
        repeat split; try tauto.
        -- rewrite Hs. lia.
        -- destruct H as [H|H]; [lia|]. destruct (F H) as [F1 F2].
           rewrite F1 in Hw. now apply Hw; right.
        -- destruct H as [H|H]; [lia|]. destruct (F H) as [F1 F2].
           rewrite F1 in Hw. now apply Hw; right.
        -- intros C. apply Hc. unfold finish. destruct writeOk; [|exact C].
           reflexivity.
Qed.

Lemma run_app evs1 evs2 st :
  run parseInt (evs1 ++ evs2) st
  = match run parseInt evs1 st with
    | Some st' => run parseInt evs2 st'
    | None => None
    end.
Proof.
  revert st. induction evs1 as [|ev evs1 IH]; intros st; [reflexivity|].
  cbn [app run]. destruct (handle parseInt ev st); [apply IH|reflexivity].
Qed.

Lemma last_cons {A : Type} (x d : A) (l : list A) : last (x :: l) d = last l x.
Proof.
  revert x d. induction l as [|y l IH]; intros x d; [reflexivity|].
  change (last (x :: y :: l) d) with (last (y :: l) d).
  now rewrite (IH y d), (IH y x).
Qed.

(** Typing the values [vs] one after the other at a step leaves the last
    one parsed in the step's field, and the field as it was when nothing
    was typed. *)
Lemma run_changes vs : forall st cs,
  currentStep st = Some cs ->
  run parseInt (map Change vs) st
  = Some {| step := step st;
            data := match k cs with
                    | Age => {| age := last (map parseInt vs) (age (data st));
                                height := height (data st);
                                weight := weight (data st) |}
                    | Height => {| age := age (data st);
                                   height := last (map parseInt vs) (height (data st));
                                   weight := weight (data st) |}
                    | Weight => {| age := age (data st);
                                   height := height (data st);
                                   weight := last (map parseInt vs) (weight (data st)) |}
                    end;
            written := written st; completed := completed st |}.
Proof.
  induction vs as [|v vs IH]; intros st cs Hcs.
  - destruct st as [s [a h w] wr c]. simpl. now destruct (k cs).
  - cbn [map run]. unfold handle. rewrite Hcs.
    rewrite (IH {| step := step st;
                   data := setField (k cs) (parseInt v) (data st);
                   written := written st; completed := completed st |} cs Hcs).
    cbn [step data written completed map].
    destruct (k cs); cbn [setField age height weight]; now rewrite last_cons.
Qed.

End Wizard.

(** Whatever is typed and however often the button is pressed, the wizard
    never reads past its table of steps; it is on step [min (1 + n) 3]
    after [n] presses, and fewer than three presses write nothing and
    complete nothing. *)
Theorem wizard_progress parseInt evs :
  exists st,
    run parseInt evs initial = Some st /\
    step st = Z.min (1 + Z.of_nat (clicks evs)) 3 /\
    currentStep st <> None /\
    ((clicks evs < 3)%nat -> written st = None /\ completed st = None).
Proof.
  destruct (run_invariant parseInt evs initial) as (st & Hr & Hs & Hw & _);
    [simpl; lia|].
  exists st. cbn [step initial written completed] in *.
  repeat split; try assumption.
  - destruct (currentStep_defined st) as [cs ->]; [lia|discriminate].
  - apply Hw. lia.
  - apply Hw. lia.
Qed.

(** The profile document written is the value handed to [onComplete] with
    [setupComplete] set: neither happens without the other. *)
Theorem wizard_writes_what_it_hands_over parseInt evs :
  exists st,
    run parseInt evs initial = Some st /\
    written st
    = option_map (fun dt => {| profile := dt; setupComplete := true |}) (completed st).
Proof.
  destruct (run_invariant parseInt evs initial) as (st & Hr & _ & _ & Hc);
    [simpl; lia|].
  exists st. split; [assumption|]. now apply Hc.
Qed.

(** While every write is rejected the wizard stays open: nothing is
    handed to [onComplete]. *)
Theorem rejected_writes_complete_nothing parseInt evs :
  no_write_succeeds evs = true ->
  exists st,
    run parseInt evs initial = Some st /\ written st = None /\ completed st = None.
Proof.
  intros H.
  destruct (run_invariant parseInt evs initial) as (st & Hr & _ & Hw & _);
    [simpl; lia|].
  exists st. split; [assumption|]. apply Hw. now right.
Qed.

Lemma rejected_writes_complete_nothing_witness :
  exists st,
    run (fun _ => 30%float)
      [Click false; Change "52"; Click false; Click false; Click false] initial
    = Some st /\ written st = None /\ completed st = None.
Proof.
  apply (rejected_writes_complete_nothing (fun _ => 30%float)
           [Click false; Change "52"; Click false; Click false; Click false]).
  reflexivity.
Defined.

(** The profile stored holds, for each step, what [parseInt] gives for the
    last text typed there, whatever it is, and the initial value of a step
    where nothing was typed. *)
Theorem wizard_stores_last_inputs parseInt ages heights weights b1 b2 :
  let dt := {| age := last (map parseInt ages) 45%float;
               height := last (map parseInt heights) 170%float;
               weight := last (map parseInt weights) 70%float |} in
  run parseInt
    (map Change ages ++ [Click b1] ++ map Change heights ++ [Click b2]
     ++ map Change weights ++ [Click true]) initial
  = Some {| step := 3; data := dt;
            written := Some {| profile := dt; setupComplete := true |};
            completed := Some dt |}.
Proof.
  intros dt.
  rewrite run_app, (run_changes parseInt ages initial _ eq_refl).
  cbn [app run].
  match goal with |- context [handle parseInt (Click b1) ?s] =>
    change (handle parseInt (Click b1) s)
      with (Some {| step := 2; data := data s; written := None; completed := None |})
  end.
  cbn [run]. rewrite run_app.
  match goal with |- context [run parseInt (map Change heights) ?s] =>
    rewrite (run_changes parseInt heights s _ eq_refl) end.
  cbn [app run].
  match goal with |- context [handle parseInt (Click b2) ?s] =>
    change (handle parseInt (Click b2) s)
      with (Some {| step := 3; data := data s; written := None; completed := None |})
  end.
  cbn [run]. rewrite run_app.
  match goal with |- context [run parseInt (map Change weights) ?s] =>
    rewrite (run_changes parseInt weights s _ eq_refl) end.
  reflexivity.
Qed.

End OnboardingFacts.
